(** * Elevator emulator (Elevator-Emulator.c): a shallow embedding

    The program is an AVR firmware made of a cooperative main loop
    ([start_elevator_emulator]) and a periodic interrupt handler
    ([ISR(TIMER1_COMPA_vect)]) that share global variables.  The globals
    are gathered in records, every C function that touches them becomes
    a state transformer, and the interleaving of the interrupt with the
    main loop is a transition system over a program counter that stops
    between the statements of the loop body. *)

From Stdlib Require Import ZArith List Bool Lia.
Import ListNotations.
Open Scope Z_scope.

(** ** Machine integers *)

(** [uint8_t], [uint16_t] and [uint32_t] arithmetic wraps. *)
Definition uint8 (z : Z) : Z := z mod 2 ^ 8.
Definition uint16 (z : Z) : Z := z mod 2 ^ 16.
Definition uint32 (z : Z) : Z := z mod 2 ^ 32.

(** [int8_t] and the 16-bit [int] of the AVR, in two's complement. *)
Definition int8 (z : Z) : Z := (z + 2 ^ 7) mod 2 ^ 8 - 2 ^ 7.
Definition int16 (z : Z) : Z := (z + 2 ^ 15) mod 2 ^ 16 - 2 ^ 15.

(** Pin numbers of <avr/io.h>. *)
Definition PC0 : Z := 0.
Definition PC1 : Z := 1.
Definition PC2 : Z := 2.
Definition PC3 : Z := 3.
Definition PC4 : Z := 4.
Definition PC5 : Z := 5.
Definition PC6 : Z := 6.
Definition PC7 : Z := 7.
Definition PD6 : Z := 6.

(** ** Data structures *)

(** [typedef enum {UNDEF_FLOOR = -1, FLOOR_0=0, FLOOR_1=4, FLOOR_2=8,
    FLOOR_3=12} ElevatorFloor;] an [ElevatorFloor] variable is an [int]
    that also holds the coordinates between two floors. *)
Definition UNDEF_FLOOR : Z := -1.
Definition FLOOR_0 : Z := 0.
Definition FLOOR_1 : Z := 4.
Definition FLOOR_2 : Z := 8.
Definition FLOOR_3 : Z := 12.

(** Colours of display.h, which the program only passes on to
    [update_square_colour]. *)
Inductive Colour : Set :=
| EMPTY_SQUARE | ELEVATOR | FLOOR
| TRAVELLER_TO_0 | TRAVELLER_TO_1 | TRAVELLER_TO_2 | TRAVELLER_TO_3.

(** What [display_information] prints on the terminal. *)
Inductive Direction : Set := Stationary | Up | Down.

Record Info : Set := mkInfo {
  info_floor : Z;
  info_direction : option Direction;
  info_w_traveller : Z;
  info_no_traveller : Z
}.

(** Globals written by the main loop for the car. [old_position] is the
    [static] local of [draw_elevator]. *)
Record Car : Set := mkCar {
  time_since_move : Z;
  current_position : Z;
  destination : Z;
  direction_change : Z;
  old_direction_change : Z;
  old_floor : Z;
  current_floor : Z;
  old_position : Z
}.

(** Globals that describe the traveller and the two travel counters. *)
Record Traveller : Set := mkTraveller {
  traveller_active : bool;
  traveller_onboard : bool;
  traveller_floor : Z;
  floors_w_traveller : Z;
  floors_no_traveller : Z
}.

(** The [volatile] globals shared with the interrupt handler. *)
Record Sequencer : Set := mkSequencer {
  digit : Z;
  floor_just_reached : bool;
  animation_phase : Z;
  animation_timer : Z;
  elevator_door_open : bool;
  button_just_pushed : bool;
  button_timer : Z
}.

(** The I/O registers the modelled functions write. *)
Record Ports : Set := mkPorts {
  PORTA : Z;
  PORTC : Z;
  DDRD : Z;
  OCR2A : Z;
  OCR2B : Z
}.

(** The whole state: the globals, the registers, and the calls made to
    the LED matrix and to the terminal, most recent first. *)
Record State : Set := mkState {
  car : Car;
  trav : Traveller;
  seq : Sequencer;
  io : Ports;
  matrix : list (Z * Z * Colour);
  terminal : list Info
}.

(** *** Assignments *)

Definition with_time_since_move (v : Z) (c : Car) : Car :=
  mkCar v (current_position c) (destination c) (direction_change c)
        (old_direction_change c) (old_floor c) (current_floor c) (old_position c).
Definition with_current_position (v : Z) (c : Car) : Car :=
  mkCar (time_since_move c) v (destination c) (direction_change c)
        (old_direction_change c) (old_floor c) (current_floor c) (old_position c).
Definition with_destination (v : Z) (c : Car) : Car :=
  mkCar (time_since_move c) (current_position c) v (direction_change c)
        (old_direction_change c) (old_floor c) (current_floor c) (old_position c).
Definition with_direction_change (v : Z) (c : Car) : Car :=
  mkCar (time_since_move c) (current_position c) (destination c) v
        (old_direction_change c) (old_floor c) (current_floor c) (old_position c).
Definition with_old_direction_change (v : Z) (c : Car) : Car :=
  mkCar (time_since_move c) (current_position c) (destination c) (direction_change c)
        v (old_floor c) (current_floor c) (old_position c).
Definition with_old_floor (v : Z) (c : Car) : Car :=
  mkCar (time_since_move c) (current_position c) (destination c) (direction_change c)
        (old_direction_change c) v (current_floor c) (old_position c).
Definition with_current_floor (v : Z) (c : Car) : Car :=
  mkCar (time_since_move c) (current_position c) (destination c) (direction_change c)
        (old_direction_change c) (old_floor c) v (old_position c).
Definition with_old_position (v : Z) (c : Car) : Car :=
  mkCar (time_since_move c) (current_position c) (destination c) (direction_change c)
        (old_direction_change c) (old_floor c) (current_floor c) v.

Definition with_traveller_active (v : bool) (t : Traveller) : Traveller :=
  mkTraveller v (traveller_onboard t) (traveller_floor t)
              (floors_w_traveller t) (floors_no_traveller t).
Definition with_traveller_onboard (v : bool) (t : Traveller) : Traveller :=
  mkTraveller (traveller_active t) v (traveller_floor t)
              (floors_w_traveller t) (floors_no_traveller t).
Definition with_traveller_floor (v : Z) (t : Traveller) : Traveller :=
  mkTraveller (traveller_active t) (traveller_onboard t) v
              (floors_w_traveller t) (floors_no_traveller t).
Definition with_floors_w_traveller (v : Z) (t : Traveller) : Traveller :=
  mkTraveller (traveller_active t) (traveller_onboard t) (traveller_floor t)
              v (floors_no_traveller t).
Definition with_floors_no_traveller (v : Z) (t : Traveller) : Traveller :=
  mkTraveller (traveller_active t) (traveller_onboard t) (traveller_floor t)
              (floors_w_traveller t) v.

Definition with_digit (v : Z) (q : Sequencer) : Sequencer :=
  mkSequencer v (floor_just_reached q) (animation_phase q) (animation_timer q)
              (elevator_door_open q) (button_just_pushed q) (button_timer q).
Definition with_floor_just_reached (v : bool) (q : Sequencer) : Sequencer :=
  mkSequencer (digit q) v (animation_phase q) (animation_timer q)
              (elevator_door_open q) (button_just_pushed q) (button_timer q).
Definition with_animation_phase (v : Z) (q : Sequencer) : Sequencer :=
  mkSequencer (digit q) (floor_just_reached q) v (animation_timer q)
              (elevator_door_open q) (button_just_pushed q) (button_timer q).
Definition with_animation_timer (v : Z) (q : Sequencer) : Sequencer :=
  mkSequencer (digit q) (floor_just_reached q) (animation_phase q) v
              (elevator_door_open q) (button_just_pushed q) (button_timer q).
Definition with_elevator_door_open (v : bool) (q : Sequencer) : Sequencer :=
  mkSequencer (digit q) (floor_just_reached q) (animation_phase q) (animation_timer q)
              v (button_just_pushed q) (button_timer q).
Definition with_button_just_pushed (v : bool) (q : Sequencer) : Sequencer :=
  mkSequencer (digit q) (floor_just_reached q) (animation_phase q) (animation_timer q)
              (elevator_door_open q) v (button_timer q).
Definition with_button_timer (v : Z) (q : Sequencer) : Sequencer :=
  mkSequencer (digit q) (floor_just_reached q) (animation_phase q) (animation_timer q)
              (elevator_door_open q) (button_just_pushed q) v.

Definition with_PORTA (v : Z) (p : Ports) : Ports :=
  mkPorts v (PORTC p) (DDRD p) (OCR2A p) (OCR2B p).
Definition with_PORTC (v : Z) (p : Ports) : Ports :=
  mkPorts (PORTA p) v (DDRD p) (OCR2A p) (OCR2B p).
Definition with_DDRD (v : Z) (p : Ports) : Ports :=
  mkPorts (PORTA p) (PORTC p) v (OCR2A p) (OCR2B p).
Definition with_OCR2A (v : Z) (p : Ports) : Ports :=
  mkPorts (PORTA p) (PORTC p) (DDRD p) v (OCR2B p).
Definition with_OCR2B (v : Z) (p : Ports) : Ports :=
  mkPorts (PORTA p) (PORTC p) (DDRD p) (OCR2A p) v.

Definition upd_car (f : Car -> Car) (s : State) : State :=
  mkState (f (car s)) (trav s) (seq s) (io s) (matrix s) (terminal s).
Definition upd_trav (f : Traveller -> Traveller) (s : State) : State :=
  mkState (car s) (f (trav s)) (seq s) (io s) (matrix s) (terminal s).
Definition upd_seq (f : Sequencer -> Sequencer) (s : State) : State :=
  mkState (car s) (trav s) (f (seq s)) (io s) (matrix s) (terminal s).
Definition upd_io (f : Ports -> Ports) (s : State) : State :=
  mkState (car s) (trav s) (seq s) (f (io s)) (matrix s) (terminal s).

(** [update_square_colour(x, y, colour)] of display.h: a pure sink. *)
Definition update_square_colour (x y : Z) (c : Colour) (s : State) : State :=
  mkState (car s) (trav s) (seq s) (io s) ((x, y, c) :: matrix s) (terminal s).

(** One screenful printed by [display_information]. *)
Definition print_info (i : Info) (s : State) : State :=
  mkState (car s) (trav s) (seq s) (io s) (matrix s) (i :: terminal s).

(** [p == FLOOR_0 || p == FLOOR_1 || p == FLOOR_2 || p == FLOOR_3] *)
Definition at_a_floor (p : Z) : bool :=
  (p =? FLOOR_0) || (p =? FLOOR_1) || (p =? FLOOR_2) || (p =? FLOOR_3).

(** ** The sound functions *)

Definition start_3kHz_sound (s : State) : State :=
  let s := upd_io (fun p => with_DDRD (Z.lor (DDRD p) (Z.shiftl 1 PD6)) p) s in
  let s := upd_io (with_OCR2A 41) s in
  upd_io (fun p => with_OCR2B (OCR2A p / 2) p) s.

Definition start_500Hz_sound (s : State) : State :=
  let s := upd_io (fun p => with_DDRD (Z.lor (DDRD p) (Z.shiftl 1 PD6)) p) s in
  let s := upd_io (with_OCR2A 249) s in
  upd_io (fun p => with_OCR2B (OCR2A p / 2) p) s.

Definition stop_sound (s : State) : State :=
  let s := upd_io (fun p => with_DDRD (Z.land (DDRD p) (Z.lnot (Z.shiftl 1 PD6))) p) s in
  let s := upd_io (with_OCR2A 0) s in
  upd_io (with_OCR2B 0) s.

(** ** Displays *)

(** The direction the three-way [if] of [display_information] and of
    [handle_seven_seg] finds; the subtraction is done on [int]. *)
Definition travel_direction (s : State) : option Direction :=
  let d := int16 (destination (car s) - current_position (car s)) in
  if 0 <? d then Some Up
  else if d <? 0 then Some Down
  else if destination (car s) =? current_position (car s) then Some Stationary
  else None.

Definition display_information (s : State) : State :=
  print_info
    (mkInfo (Z.quot (current_floor (car s)) 4)
            (if floor_just_reached (seq s) then Some Stationary
             else travel_direction s)
            (floors_w_traveller (trav s))
            (floors_no_traveller (trav s))) s.

(** [uint8_t seven_seg[4] = {63,6,91,79};] *)
Definition seven_seg : list Z := [63; 6; 91; 79].

Definition handle_seven_seg (digit : Z) (s : State) : State :=
  if digit =? 0 then
    let s := upd_io (fun p => with_PORTC (Z.land (PORTC p) (Z.lnot (Z.shiftl 1 4))) p) s in
    let pattern := nth (Z.to_nat (Z.quot (current_floor (car s)) 4)) seven_seg 0 in
    if at_a_floor (current_position (car s))
    then upd_io (with_PORTA pattern) s
    else upd_io (with_PORTA (Z.lor pattern 128)) s
  else
    let s := upd_io (fun p => with_PORTC (Z.lor (PORTC p) (Z.shiftl 1 4)) p) s in
    if floor_just_reached (seq s) then upd_io (with_PORTA 64) s
    else match travel_direction s with
         | Some Up => upd_io (with_PORTA 1) s
         | Some Down => upd_io (with_PORTA 8) s
         | Some Stationary => upd_io (with_PORTA 64) s
         | None => s
         end.

(** [draw_elevator]: [y] is an [int8_t], [old_position] a [uint8_t], and
    [%] is the remainder of C. *)
Definition draw_elevator (s : State) : State :=
  let y := 0 in
  let y := if current_position (car s) <? old_position (car s)
           then int8 (old_position (car s) + 3)
           else if old_position (car s) <? current_position (car s)
                then int8 (old_position (car s) + 1)
                else y in
  let s := if negb (Z.rem y 4 =? 0)
           then update_square_colour 2 y EMPTY_SQUARE
                  (update_square_colour 1 y EMPTY_SQUARE s)
           else s in
  let s := upd_car (with_old_position (uint8 (current_position (car s)))) s in
  fold_left
    (fun s i =>
       let y := int8 (current_position (car s) + i) in
       if negb (Z.rem y 4 =? 0)
       then update_square_colour 2 y ELEVATOR (update_square_colour 1 y ELEVATOR s)
       else s)
    [1; 2; 3] s.

(** [draw_floors]; [width] is the [WIDTH] of display.h. *)
Definition draw_floors (width : Z) (s : State) : State :=
  fold_left
    (fun s i =>
       update_square_colour i FLOOR_3 FLOOR
         (update_square_colour i FLOOR_2 FLOOR
            (update_square_colour i FLOOR_1 FLOOR
               (update_square_colour i FLOOR_0 FLOOR s))))
    (map Z.of_nat (List.seq 0 (Z.to_nat width))) s.

Definition handle_displays (s : State) : State :=
  let s := upd_car (fun c => with_direction_change
                               (uint8 (destination c - current_position c)) c) s in
  let s := if at_a_floor (current_position (car s))
           then upd_car (fun c => with_current_floor (current_position c) c) s
           else s in
  let floor_changed := negb (old_floor (car s) =? current_floor (car s)) in
  let s := if floor_changed then
             if traveller_onboard (trav s)
             then upd_trav (fun t => with_floors_w_traveller
                                       (uint8 (floors_w_traveller t + 1)) t) s
             else upd_trav (fun t => with_floors_no_traveller
                                       (uint8 (floors_no_traveller t + 1)) t) s
           else s in
  let s := if negb (direction_change (car s) =? old_direction_change (car s))
              || floor_changed
           then display_information s else s in
  let s := upd_car (fun c => with_old_direction_change (direction_change c) c) s in
  upd_car (fun c => with_old_floor (current_floor c) c) s.

(** ** Inputs *)

(** [ElevatorFloor floors[] = {FLOOR_0, FLOOR_1, FLOOR_2, FLOOR_3};] and
    [uint16_t colours[] = {TRAVELLER_TO_0, ..., TRAVELLER_TO_3};] *)
Definition floors : list Z := [FLOOR_0; FLOOR_1; FLOOR_2; FLOOR_3].
Definition colours : list Colour :=
  [TRAVELLER_TO_0; TRAVELLER_TO_1; TRAVELLER_TO_2; TRAVELLER_TO_3].

(** The body of the [for] loop of [handle_inputs] at index [i]. [btn] is
    the [uint8_t] local, [serial_input] the [char] local. *)
Definition handle_inputs_at (floor_choice btn serial_input : Z) (s : State) (i : Z)
  : State :=
  if (btn =? i) || (serial_input =? 48 + i) then
    if negb (traveller_active (trav s)) && negb (i =? floor_choice) then
      let s := upd_car (with_destination (nth (Z.to_nat i) floors UNDEF_FLOOR)) s in
      let s := update_square_colour 5 (4 * i + 1)
                 (nth (Z.to_nat floor_choice) colours EMPTY_SQUARE) s in
      let s := upd_trav (with_traveller_active true) s in
      let s := upd_trav (with_traveller_floor (destination (car s))) s in
      upd_seq (with_button_just_pushed true) s
    else s
  else s.

(** [handle_inputs(floor_choice)]. [button] is what [button_pushed()]
    returns and [serial] the character [fgetc(stdin)] returns when
    [serial_input_available()], otherwise [None]. *)
Definition handle_inputs (floor_choice : Z) (button : Z) (serial : option Z)
           (s : State) : State :=
  let btn := uint8 button in
  let serial_input := match serial with Some c => c | None => -1 end in
  fold_left (handle_inputs_at floor_choice btn serial_input) [0; 1; 2; 3] s.

(** ** The interrupt handler *)

(** [handle_seven_seg(digit); digit = 1 - digit;] *)
Definition ISR_seven_seg (s : State) : State :=
  let s := handle_seven_seg (digit (seq s)) s in
  upd_seq (fun q => with_digit (uint8 (1 - digit q)) q) s.

(** [if (floor_just_reached) animation_timer ++;]
    [if (button_just_pushed) button_timer ++;] *)
Definition ISR_timers (s : State) : State :=
  let s := if floor_just_reached (seq s)
           then upd_seq (fun q => with_animation_timer (uint16 (animation_timer q + 1)) q) s
           else s in
  if button_just_pushed (seq s)
  then upd_seq (fun q => with_button_timer (uint8 (button_timer q + 1)) q) s
  else s.

(** [if (button_timer == 1) start_3kHz_sound();]
    [if (button_timer >= 100) { button_timer = 0; button_just_pushed = false;
                                stop_sound(); }] *)
Definition ISR_button (s : State) : State :=
  let s := if button_timer (seq s) =? 1 then start_3kHz_sound s else s in
  if 100 <=? button_timer (seq s)
  then
    let s := upd_seq (with_button_timer 0) s in
    let s := upd_seq (with_button_just_pushed false) s in
    stop_sound s
  else s.

(** [PORTC |= (1 << a)|(1 << b); PORTC &= ~((1 << c)|(1 << d));] *)
Definition door_leds (a b c d : Z) (s : State) : State :=
  let s := upd_io (fun p => with_PORTC
             (Z.lor (PORTC p) (Z.lor (Z.shiftl 1 a) (Z.shiftl 1 b))) p) s in
  upd_io (fun p => with_PORTC
             (Z.land (PORTC p) (Z.lnot (Z.lor (Z.shiftl 1 c) (Z.shiftl 1 d)))) p) s.

(** [switch (animation_phase) { case 0: ... case 1: ... case 2: ... }] *)
Definition ISR_animation (s : State) : State :=
  match animation_phase (seq s) with
  | 0 =>
      if 800 <=? animation_timer (seq s)
      then upd_seq (with_animation_timer 0) (upd_seq (with_animation_phase 1) s)
      else s
  | 1 =>
      let s := if animation_timer (seq s) =? 1 then
                 let s := door_leds PC0 PC3 PC1 PC2 s in
                 let s := upd_seq (with_elevator_door_open true) s in
                 start_500Hz_sound s
               else s in
      let s := if animation_timer (seq s) =? 100 then stop_sound s else s in
      if 800 <=? animation_timer (seq s)
      then upd_seq (with_animation_timer 0) (upd_seq (with_animation_phase 2) s)
      else s
  | 2 =>
      let s := if animation_timer (seq s) =? 1 then
                 let s := door_leds PC1 PC2 PC0 PC3 s in
                 upd_seq (with_elevator_door_open false) s
               else s in
      if 800 <=? animation_timer (seq s)
      then upd_seq (with_floor_just_reached false)
             (upd_seq (with_animation_timer 0) (upd_seq (with_animation_phase 0) s))
      else s
  | _ => s
  end.

(** [ISR(TIMER1_COMPA_vect)], its four parts in the order of the source. *)
Definition ISR (s : State) : State :=
  ISR_animation (ISR_button (ISR_timers (ISR_seven_seg s))).

(** ** The main loop of [start_elevator_emulator] *)

(** What one pass through the loop body reads from outside: [PINC], the
    two results of [get_current_time()] in the movement block, the
    result of [button_pushed()] and the serial character, if any. *)
Record Inputs : Set := mkInputs {
  in_pinc : Z;
  in_time : Z;
  in_time_after : Z;
  in_button : Z;
  in_serial : option Z
}.

(** [if (PINC & (1 << PC7)) speed = 300; else speed = 125;] *)
Definition speed_of (pinc : Z) : Z :=
  if negb (Z.land pinc (Z.shiftl 1 PC7) =? 0) then 300 else 125.

(** [switch_value = PINC & ((1<<PC6)|(1<<PC5)); floor_choice = switch_value >> 5;] *)
Definition floor_choice_of (pinc : Z) : Z :=
  let switch_value := uint8 (Z.land pinc (Z.lor (Z.shiftl 1 PC6) (Z.shiftl 1 PC5))) in
  Z.shiftr switch_value 5.

(** The movement block, with the choice of [speed] before it. *)
Definition move_elevator (i : Inputs) (s : State) : State :=
  let speed := speed_of (in_pinc i) in
  if (speed <? uint32 (in_time i - time_since_move (car s)))
     && negb (floor_just_reached (seq s))
  then
    let d := int16 (destination (car s) - current_position (car s)) in
    let s := if 0 <? d
             then upd_car (fun c => with_current_position (int16 (current_position c + 1)) c) s
             else if d <? 0
                  then upd_car (fun c => with_current_position
                                           (int16 (current_position c - 1)) c) s
                  else s in
    let s := draw_elevator s in
    upd_car (with_time_since_move (uint32 (in_time_after i))) s
  else s.

(** [if (traveller_active && traveller_floor == current_position)
       destination = (ElevatorFloor)(floor_choice * 4);] *)
Definition pickup_destination (floor_choice : Z) (s : State) : State :=
  if traveller_active (trav s)
     && (traveller_floor (trav s) =? current_position (car s))
  then upd_car (with_destination (floor_choice * 4)) s
  else s.

(** [if (traveller_active && traveller_floor == current_position)
       floor_just_reached = true;] *)
Definition arrival_trigger (s : State) : State :=
  if traveller_active (trav s)
     && (traveller_floor (trav s) =? current_position (car s))
  then upd_seq (with_floor_just_reached true) s
  else s.

(** [if (traveller_onboard && current_position == destination) { ... }] *)
Definition drop_off (s : State) : State :=
  if traveller_onboard (trav s)
     && (current_position (car s) =? destination (car s))
  then
    let s := upd_seq (with_floor_just_reached true) s in
    let s := upd_trav (with_traveller_onboard false) s in
    upd_trav (with_traveller_active false) s
  else s.

(** [if (traveller_active && traveller_floor == current_position
         && elevator_door_open) { ... }] *)
Definition board (s : State) : State :=
  if traveller_active (trav s)
     && (traveller_floor (trav s) =? current_position (car s))
     && elevator_door_open (seq s)
  then
    let s := update_square_colour 5 (traveller_floor (trav s) + 1) EMPTY_SQUARE s in
    upd_trav (with_traveller_onboard true) s
  else s.

(** One pass through the body of [while(true)], not interrupted. *)
Definition main_iteration (i : Inputs) (s : State) : State :=
  let s := move_elevator i s in
  let s := if negb (floor_just_reached (seq s)) then
             let floor_choice := floor_choice_of (in_pinc i) in
             let s := handle_inputs floor_choice (in_button i) (in_serial i) s in
             let s := pickup_destination floor_choice s in
             let s := handle_displays s in
             let s := arrival_trigger s in
             drop_off s
           else s in
  board s.

(** The globals as the C start-up code leaves them (all zero), and the
    registers the model follows, cleared. *)
Definition zero_state : State :=
  mkState (mkCar 0 0 0 0 0 0 0 0)
          (mkTraveller false false 0 0 0)
          (mkSequencer 0 false 0 0 false false 0)
          (mkPorts 0 0 0 0 0)
          [] [].

(** [start_elevator_emulator] up to its loop; [width] is [WIDTH] and
    [t0] the result of [get_current_time()]. *)
Definition start_elevator_emulator_init (width t0 : Z) : State :=
  let s := upd_car (with_time_since_move (uint32 t0)) zero_state in
  let s := draw_elevator s in
  let s := draw_floors width s in
  let s := display_information s in
  let s := upd_car (with_current_position FLOOR_0) s in
  let s := upd_car (with_destination FLOOR_0) s in
  let s := upd_car (with_direction_change 0) s in
  let s := upd_car (with_old_direction_change 0) s in
  let s := upd_car (with_old_floor FLOOR_0) s in
  let s := upd_car (with_current_floor FLOOR_0) s in
  let s := upd_trav (with_traveller_active false) s in
  door_leds PC2 PC1 PC0 PC3 s.

(** ** Interleaving the interrupt with the main loop *)

(** The interrupt may be served between any two statements of the loop
    body, so the program counter stops before each of them. *)
Inductive PC : Set :=
| PcMove | PcGuard | PcInputs | PcPickup | PcDisplays | PcArrive | PcDropoff | PcBoard.

(** A configuration: the program counter, the local [floor_choice] of the
    loop body, and the state. *)
Record Machine : Set := mkMachine {
  pc : PC;
  floor_choice : Z;
  st : State
}.

(** [Tick] is one run of the interrupt handler; [Main i] runs the
    statement at the program counter with the inputs it reads. *)
Inductive Event : Set :=
| Tick
| Main (i : Inputs).

Definition step (e : Event) (m : Machine) : Machine :=
  match e with
  | Tick => mkMachine (pc m) (floor_choice m) (ISR (st m))
  | Main i =>
      match pc m with
      | PcMove => mkMachine PcGuard (floor_choice m) (move_elevator i (st m))
      | PcGuard =>
          if negb (floor_just_reached (seq (st m)))
          then mkMachine PcInputs (floor_choice_of (in_pinc i)) (st m)
          else mkMachine PcBoard (floor_choice m) (st m)
      | PcInputs =>
          mkMachine PcPickup (floor_choice m)
            (handle_inputs (floor_choice m) (in_button i) (in_serial i) (st m))
      | PcPickup =>
          mkMachine PcDisplays (floor_choice m) (pickup_destination (floor_choice m) (st m))
      | PcDisplays => mkMachine PcArrive (floor_choice m) (handle_displays (st m))
      | PcArrive => mkMachine PcDropoff (floor_choice m) (arrival_trigger (st m))
      | PcDropoff => mkMachine PcBoard (floor_choice m) (drop_off (st m))
      | PcBoard => mkMachine PcMove (floor_choice m) (board (st m))
      end
  end.

(** The machine when the loop is entered. *)
Definition boot (width t0 : Z) : Machine :=
  mkMachine PcMove 0 (start_elevator_emulator_init width t0).

Inductive reachable : Machine -> Prop :=
| reach_boot : forall width t0, reachable (boot width t0)
| reach_step : forall e m, reachable m -> reachable (step e m).

(** [n] consecutive interrupts. *)
Definition interrupts (n : nat) (m : Machine) : Machine :=
  Nat.iter n (step Tick) m.

(** The main loop runs, not interrupted, with the inputs [i] at every
    statement, until it is back at the head of the loop body. *)
Fixpoint until_head (fuel : nat) (i : Inputs) (m : Machine) : Machine :=
  match fuel with
  | O => m
  | S k =>
      let m' := step (Main i) m in
      match pc m' with
      | PcMove => m'
      | _ => until_head k i m'
      end
  end.

Definition pass (i : Inputs) (m : Machine) : Machine := until_head 8 i m.

(** Scenarios: bursts of interrupts between whole passes of the loop. *)
Inductive Action : Set :=
| Interrupts (n : nat)
| Pass (i : Inputs).

Definition act (m : Machine) (a : Action) : Machine :=
  match a with
  | Interrupts n => interrupts n m
  | Pass i => pass i m
  end.

Definition play (l : list Action) (m : Machine) : Machine := fold_left act l m.

(** Raising the trigger of the door animation, as the main loop does in
    [arrival_trigger] and [drop_off]: [floor_just_reached = true]. *)
Definition trigger (s : State) : State := upd_seq (with_floor_just_reached true) s.

(** * Vocabulary of the properties

    The parts of the interrupt handler, the phases, the invariants and
    the runs the statements below speak of. *)

(** The interrupt handler before its [switch]: only [animation_timer]
    and the button timer move. *)
Definition ISR_prefix (s : State) : State := ISR_button (ISR_timers (ISR_seven_seg s)).

(** Phases of the animation, as the values of [animation_phase]. *)
Definition IDLE : Z := 0.
Definition OPENING : Z := 1.
Definition CLOSING : Z := 2.

(** The phase that follows in the cycle. *)
Definition next_phase (p : Z) : Z :=
  if p =? IDLE then OPENING else if p =? OPENING then CLOSING else IDLE.

(** What holds of the sequencer variables between any two steps. *)
Record seq_ok (q : Sequencer) : Prop := mk_seq_ok {
  timer_range : 0 <= animation_timer q < 800;
  phase_range : animation_phase q = IDLE \/ animation_phase q = OPENING
                \/ animation_phase q = CLOSING;
  idle_when_clear : floor_just_reached q = false ->
                    animation_phase q = IDLE /\ animation_timer q = 0;
  door_span : elevator_door_open q = true <->
              (animation_phase q = OPENING /\ 1 <= animation_timer q)
              \/ (animation_phase q = CLOSING /\ animation_timer q = 0)
}.

(** Floor [i] is selected by the button or by the serial digit. *)
Definition selected (button : Z) (serial : option Z) (i : Z) : bool :=
  (uint8 button =? i)
  || ((match serial with Some c => c | None => -1 end) =? 48 + i).

(** The state an accepted request for origin floor [i] leaves, in the
    words of the specification: a traveller active at floor [i], the
    destination at the coordinate of floor [i], the waiting marker in
    the colour of the floor the switches select, and the button
    feedback timer armed. *)
Definition accept_request (i fc : Z) (s : State) : State :=
  mkState (with_destination (4 * i) (car s))
          (with_traveller_floor (4 * i) (with_traveller_active true (trav s)))
          (with_button_just_pushed true (seq s))
          (io s)
          ((5, 4 * i + 1, nth (Z.to_nat fc) colours EMPTY_SQUARE) :: matrix s)
          (terminal s).

(** A traveller was created between [s] and [s']. *)
Definition accepted (s s' : State) : Prop :=
  traveller_active (trav s) = false /\ traveller_active (trav s') = true.

(** Whether the movement block is entered. *)
Definition move_due (i : Inputs) (s : State) : bool :=
  (speed_of (in_pinc i) <? uint32 (in_time i - time_since_move (car s)))
  && negb (floor_just_reached (seq s)).

(** The sticky floor after [handle_displays]. *)
Definition sticky (s : State) : Z :=
  if at_a_floor (current_position (car s))
  then current_position (car s) else current_floor (car s).

(** The coordinates of the four floors. *)
Definition floor_coordinate (z : Z) : Prop :=
  z = FLOOR_0 \/ z = FLOOR_1 \/ z = FLOOR_2 \/ z = FLOOR_3.

(** The car stays in the shaft, it is sent to floors only, the sticky
    floor and its copy agree between two calls of [handle_displays], and
    the counters are bytes. *)
Record car_ok (s : State) : Prop := mk_car_ok {
  position_range : 0 <= current_position (car s) <= 12;
  destination_floor : floor_coordinate (destination (car s));
  origin_floor : floor_coordinate (traveller_floor (trav s));
  sticky_settled : old_floor (car s) = current_floor (car s);
  w_traveller_range : 0 <= floors_w_traveller (trav s) < 256;
  no_traveller_range : 0 <= floors_no_traveller (trav s) < 256
}.

(** The statements inside [if (!floor_just_reached) { ... }] that come
    before the two that raise the trigger. *)
Definition before_trigger (p : PC) : bool :=
  match p with
  | PcInputs | PcPickup | PcDisplays | PcArrive => true
  | _ => false
  end.

(** What holds of every reachable configuration. *)
Record invariant (m : Machine) : Prop := mk_invariant {
  inv_car : car_ok (st m);
  inv_seq : seq_ok (seq (st m));
  inv_choice : 0 <= floor_choice m <= 3;
  inv_guard : before_trigger (pc m) = true -> floor_just_reached (seq (st m)) = false
}.

(** The registers of the buzzer. *)
Definition sound (s : State) : Z * Z * Z := (DDRD (io s), OCR2A (io s), OCR2B (io s)).

(** A pass in which nothing is pressed, the switches select floor 0 and
    the move interval has elapsed. *)
Definition quiet : Inputs := mkInputs 0 126 0 (-1) None.

(** A pass in which the button of floor [b] is pushed while [PINC] reads
    [pinc]. *)
Definition press (b pinc : Z) : Inputs := mkInputs pinc 126 0 b None.

(** A traveller is placed on floor 1 for floor 0, the car goes up, and
    the sequencer is let run to the start of OPENING. *)
Definition to_opening : list Action :=
  Pass (press 1 0) :: repeat (Pass quiet) 4 ++ [Interrupts 800].

(** A whole journey: a traveller placed on floor 3 for floor 0 is
    fetched, taken in while the doors are open, carried down and dropped
    off, and the second animation is let run to its end. *)
Definition trip : list Action :=
  Pass (press 3 0) :: repeat (Pass quiet) 12
  ++ [Interrupts 801; Pass quiet; Interrupts 1599]
  ++ repeat (Pass quiet) 12 ++ [Interrupts 2400].

(** The run of 85 journeys between floor 0 and floor 3, followed by a
    86th traveller placed on floor 3 and the empty car on its way up. *)
Definition long_run : list Action :=
  concat (repeat trip 85) ++ Pass (press 3 0) :: repeat (Pass quiet) 3.

(** The configuration that run ends in. *)
Definition after_long_run : Machine := play long_run (boot 8 0).

(** The configuration in which the loop is about to call
    [handle_inputs] for the first time. *)
Definition first_call : Machine := step (Main quiet) (step (Main quiet) (boot 8 0)).

(** ** Vocabulary of the further properties *)

(** The door LEDs on port C show [b]: pins 0 and 3 are at [b], pins 1
    and 2 at its negation. *)
Definition leds_show (b : bool) (portc : Z) : Prop :=
  Z.testbit portc PC0 = b /\ Z.testbit portc PC3 = b
  /\ Z.testbit portc PC1 = negb b /\ Z.testbit portc PC2 = negb b.

(** What holds, besides [invariant], of the state of every reachable
    configuration: the traveller flags, the button feedback timer, the
    display multiplexer, the door LEDs and the sprite. *)
Record lifecycle_ok (s : State) : Prop := mk_lifecycle_ok {
  onboard_active :
    traveller_onboard (trav s) = true -> traveller_active (trav s) = true;
  button_timer_range : 0 <= button_timer (seq s) < 100;
  button_timer_rest :
    button_just_pushed (seq s) = false -> button_timer (seq s) = 0;
  button_while_waiting :
    button_just_pushed (seq s) = true ->
    traveller_active (trav s) = true /\ traveller_onboard (trav s) = false
    /\ animation_phase (seq s) = IDLE
    /\ animation_timer (seq s) <= button_timer (seq s);
  digit_bit : digit (seq s) = 0 \/ digit (seq s) = 1;
  leds_door : leds_show (elevator_door_open (seq s)) (PORTC (io s));
  sprite_position : old_position (car s) = current_position (car s);
  sticky_floor_coordinate : floor_coordinate (current_floor (car s))
}.

(** The car at the traveller's floor with the doors open, one interrupt
    into OPENING, and the traveller taken in by the next pass. *)
Definition boarded : Machine :=
  play (to_opening ++ [Interrupts 1; Pass quiet]) (boot 8 0).

(** The configuration right after a request for floor 2 was accepted. *)
Definition just_placed : Machine := step (Main (press 2 0)) first_call.

(** The colour the LED matrix shows at column [x], row [y]: that of the
    most recent call of [update_square_colour] for this cell, if any. *)
Fixpoint pixel (x y : Z) (mx : list (Z * Z * Colour)) : option Colour :=
  match mx with
  | [] => None
  | (x', y', c) :: rest =>
      if (x' =? x) && (y' =? y) then Some c else pixel x y rest
  end.

(** The two calls [draw_elevator] makes for row [y] when [y % 4 != 0],
    most recent first. *)
Definition cells (y : Z) (c : Colour) : list (Z * Z * Colour) :=
  if negb (Z.rem y 4 =? 0) then [(2, y, c); (1, y, c)] else [].

(** A call on a floor row ([y % 4 == 0]) paints the colour [FLOOR]. *)
Definition keeps_floor_row (e : Z * Z * Colour) : Prop :=
  Z.rem (snd (fst e)) 4 = 0 -> snd e = FLOOR.

(** A call by [draw_elevator]: column 1 or 2, off the floor rows, in the
    colour of the car or of an empty square. *)
Definition sprite_call (e : Z * Z * Colour) : Prop :=
  (fst (fst e) = 1 \/ fst (fst e) = 2)
  /\ Z.rem (snd (fst e)) 4 <> 0
  /\ (snd e = ELEVATOR \/ snd e = EMPTY_SQUARE).

(** Columns 1 and 2 show the car on the three rows above
    [current_position], floor rows left out, and nowhere else. *)
Definition sprite_shown (s : State) : Prop :=
  forall x y, x = 1 \/ x = 2 ->
    (pixel x y (matrix s) = Some ELEVATOR
     <-> current_position (car s) < y <= current_position (car s) + 3
         /\ Z.rem y 4 <> 0).

(** Column 5 shows a traveller's colour exactly on the row above the
    floor of a traveller who is waiting. *)
Definition marker_shown (s : State) : Prop :=
  (traveller_active (trav s) = true -> traveller_onboard (trav s) = false ->
   exists c, In c colours
             /\ pixel 5 (traveller_floor (trav s) + 1) (matrix s) = Some c)
  /\ (forall y c, In c colours -> pixel 5 y (matrix s) = Some c ->
      traveller_active (trav s) = true /\ traveller_onboard (trav s) = false
      /\ y = traveller_floor (trav s) + 1).

(** What holds of the LED matrix in every reachable configuration. *)
Record matrix_ok (s : State) : Prop := mk_matrix_ok {
  floor_rows_kept : Forall keeps_floor_row (matrix s);
  sprite_drawn : sprite_shown s;
  marker_drawn : marker_shown s
}.

(** The configuration after the car's first step up towards floor 2. *)
Definition first_move : Machine := pass quiet (pass quiet just_placed).


(** ** The start screen *)

(** The locals of [start_screen] and, most recent first, the frames it
    has passed to [start_display_animation]. *)
Record Splash : Set := mkSplash {
  doors_frame_time : Z;
  interval_delay : Z;
  frame : Z;
  doors_opening_closing : Z;
  frames_shown : list Z
}.

(** [doors_frame_time = 0; interval_delay = 150; frame = 0;
    doors_opening_closing = 1;] *)
Definition splash_start : Splash := mkSplash 0 150 0 1 [].

(** The body of [if (get_current_time() - doors_frame_time >
    interval_delay)]; [now] is the second [get_current_time()]. *)
Definition animate_doors (now : Z) (a : Splash) : Splash :=
  let shown := frame a :: frames_shown a in
  if negb (doors_opening_closing a =? 0) then
    let delay := 150 in
    let f := uint8 (frame a + 1) in
    let delay := if f =? 1 then 2000 else delay in
    let oc := if f =? 3 then 0 else doors_opening_closing a in
    mkSplash (uint32 now) delay f oc shown
  else
    let delay := 150 in
    let f := uint8 (frame a - 1) in
    let delay := if f =? 2 then 500 else delay in
    let oc := if f =? 0 then 1 else doors_opening_closing a in
    mkSplash (uint32 now) delay f oc shown.

(** What one pass of the loop of [start_screen] reads. *)
Record SplashInputs : Set := mkSplashInputs {
  sp_time : Z;
  sp_time_after : Z;
  sp_serial : option Z;
  sp_button : Z
}.

(** One pass of the loop of [start_screen]; the boolean tells whether
    the loop is left. [no_button_pushed] is [NO_BUTTON_PUSHED] of
    buttons.h; 115 and 83 are ['s'] and ['S']. *)
Definition start_screen_pass (no_button_pushed : Z) (i : SplashInputs) (a : Splash)
  : Splash * bool :=
  let a := if interval_delay a <? uint32 (sp_time i - doors_frame_time a)
           then animate_doors (sp_time_after i) a else a in
  let serial_input := match sp_serial i with Some c => c | None => -1 end in
  if (serial_input =? 115) || (serial_input =? 83) then (a, true)
  else
    let btn := int8 (sp_button i) in
    if negb (btn =? no_button_pushed) then (a, true) else (a, false).

(** [start_screen] over the inputs of its successive passes: the locals
    when the inputs run out or the loop is left, and whether it was
    left. *)
Fixpoint start_screen (no_button_pushed : Z) (l : list SplashInputs) (a : Splash)
  : Splash * bool :=
  match l with
  | [] => (a, false)
  | i :: l =>
      let r := start_screen_pass no_button_pushed i a in
      if snd r then r else start_screen no_button_pushed l (fst r)
  end.

(** The frames of the start screen in the order of one period, and the
    values of [frame], [doors_opening_closing] and [interval_delay]
    before each of them is shown. *)
Definition splash_frames : list Z := [0; 1; 2; 3; 2; 1].
Definition splash_cycle : list (Z * Z * Z) :=
  [(0, 1, 150); (1, 1, 2000); (2, 1, 150); (3, 0, 150); (2, 0, 500); (1, 0, 150)].

(** What holds of the locals of [start_screen] after any number of
    passes. *)
Definition splash_ok (a : Splash) : Prop :=
  let n := length (frames_shown a) in
  (frame a, doors_opening_closing a, interval_delay a)
  = nth (n mod 6) splash_cycle (0, 0, 0)
  /\ frames_shown a
     = rev (map (fun k => nth (k mod 6) splash_frames 0) (List.seq 0 n)).

(** Any number of movement blocks in a row. *)
Definition moves (l : list Inputs) (s : State) : State :=
  fold_left (fun s i => move_elevator i s) l s.

(** ** The terminal *)

(** The direction a screen printed by [handle_displays] shows when the
    byte [direction_change] is [u]. *)
Definition shown_direction (u : Z) : option Direction :=
  if u =? 0 then Some Stationary else if u <? 128 then Some Up else Some Down.

(** The last screen printed, if any. *)
Definition on_screen (s : State) : option Info := hd_error (terminal s).

(** The places of the loop body at which the car has not moved and has
    not been sent elsewhere since [handle_displays] ran. *)
Definition displayed (p : PC) (skipping : bool) : bool :=
  match p with
  | PcMove | PcArrive | PcDropoff | PcBoard => true
  | PcGuard => skipping
  | PcInputs | PcPickup | PcDisplays => false
  end.

(** The terminal agrees with the variables it was printed from. *)
Record screen_ok (m : Machine) : Prop := mk_screen_ok {
  screen_last :
    on_screen (st m)
    = Some (mkInfo (Z.quot (current_floor (car (st m))) 4)
                   (shown_direction (old_direction_change (car (st m))))
                   (floors_w_traveller (trav (st m)))
                   (floors_no_traveller (trav (st m))));
  screen_settled :
    displayed (pc m) (floor_just_reached (seq (st m))) = true ->
    old_direction_change (car (st m))
    = uint8 (destination (car (st m)) - current_position (car (st m)))
}.

(** One pass of the start screen at 151 ms with [NO_BUTTON_PUSHED]
    (taken as -1) and no key. *)
Definition splash_first_pass : list SplashInputs := [mkSplashInputs 151 151 None (-1)].

(** A pass of the start screen on which the loop is left. *)
Definition leaves (no_button_pushed : Z) (i : SplashInputs) : Prop :=
  sp_serial i = Some 115 \/ sp_serial i = Some 83
  \/ int8 (sp_button i) <> no_button_pushed.

(** ** Further runs *)

(** A pass in which nothing is pressed, [PINC] reads [pinc] and the move
    interval has elapsed. *)
Definition switches (pinc : Z) : Inputs := mkInputs pinc 126 0 (-1) None.

(** The trigger of the doors is raised between [m] and [m']. *)
Definition activated (m m' : Machine) : Prop :=
  floor_just_reached (seq (st m)) = false /\ floor_just_reached (seq (st m')) = true.

(** A traveller is placed on floor 1 for floor 0, the car goes up, and
    the sequencer is let run to the last interrupt of IDLE. *)
Definition before_opening : Machine :=
  play (Pass (press 1 0) :: repeat (Pass quiet) 4 ++ [Interrupts 799]) (boot 8 0).

(** A traveller is placed on floor 2, the car has just come to floor 1
    and the loop is about to call [handle_displays]. *)
Definition floor_change : Machine :=
  step (Main quiet) (step (Main quiet) (step (Main quiet) (step (Main quiet)
    (play (Pass (press 2 0) :: repeat (Pass quiet) 3) (boot 8 0))))).

(** * Properties *)

(** ** Machine integers and switches *)

Lemma uint8_small (z : Z) : 0 <= z < 256 -> uint8 z = z.
Proof. intros H. unfold uint8. apply Z.mod_small. lia. Qed.

Lemma uint8_range (z : Z) : 0 <= uint8 z < 256.
Proof. unfold uint8. apply Z.mod_pos_bound. lia. Qed.

Lemma uint16_small (z : Z) : 0 <= z < 65536 -> uint16 z = z.
Proof. intros H. unfold uint16. apply Z.mod_small. lia. Qed.

Lemma int16_small (z : Z) : -32768 <= z < 32768 -> int16 z = z.
Proof.
  intros H. unfold int16.
  rewrite Z.mod_small; change (2 ^ 15) with 32768; change (2 ^ 16) with 65536; lia.
Qed.

(** The two switch bits always give a floor index. *)
Lemma floor_choice_of_range (pinc : Z) : 0 <= floor_choice_of pinc <= 3.
Proof.
  unfold floor_choice_of.
  change (Z.lor (Z.shiftl 1 PC6) (Z.shiftl 1 PC5)) with 96.
  assert (Hx : 0 <= Z.land pinc 96 < 128).
  { assert (E : Z.land pinc 96 = Z.land pinc 96 mod 2 ^ 7).
    { rewrite <- Z.land_ones by lia. rewrite <- Z.land_assoc. reflexivity. }
    rewrite E. apply Z.mod_pos_bound. lia. }
  rewrite uint8_small by lia.
  rewrite Z.shiftr_div_pow2 by lia. change (2 ^ 5) with 32.
  split.
  - apply Z.div_pos; lia.
  - apply Z.lt_succ_r. apply Z.div_lt_upper_bound; lia.
Qed.

(** ** What each function leaves alone *)

(** Reduces the projections of updated records, and nothing else. *)
Ltac reduce :=
  cbn [car trav seq io matrix terminal
       time_since_move current_position destination direction_change
       old_direction_change old_floor current_floor old_position
       traveller_active traveller_onboard traveller_floor
       floors_w_traveller floors_no_traveller
       digit floor_just_reached animation_phase animation_timer
       elevator_door_open button_just_pushed button_timer
       PORTA PORTC DDRD OCR2A OCR2B
       with_time_since_move with_current_position with_destination
       with_direction_change with_old_direction_change with_old_floor
       with_current_floor with_old_position
       with_traveller_active with_traveller_onboard with_traveller_floor
       with_floors_w_traveller with_floors_no_traveller
       with_digit with_floor_just_reached with_animation_phase
       with_animation_timer with_elevator_door_open with_button_just_pushed
       with_button_timer
       with_PORTA with_PORTC with_DDRD with_OCR2A with_OCR2B
       upd_car upd_trav upd_seq upd_io update_square_colour print_info
       start_3kHz_sound start_500Hz_sound stop_sound door_leds
       pc floor_choice st] in *.

(** Splits on the test of the first conditional left in the goal. *)
Ltac split_if :=
  match goal with
  | |- context [if ?b then _ else _] => destruct b eqn:?
  | |- context [match ?x with Some _ => _ | None => _ end] => destruct x eqn:?
  | |- context [match ?x with Stationary => _ | Up => _ | Down => _ end] => destruct x eqn:?
  end.

Ltac frame := repeat (reduce; try split_if); try reflexivity.

Lemma handle_seven_seg_frame (d : Z) (s : State) :
  car (handle_seven_seg d s) = car s /\ trav (handle_seven_seg d s) = trav s /\
  seq (handle_seven_seg d s) = seq s /\
  matrix (handle_seven_seg d s) = matrix s /\
  terminal (handle_seven_seg d s) = terminal s.
Proof. unfold handle_seven_seg; frame; auto. Qed.

Ltac split_cond :=
  match goal with
  | |- context [Z.eqb ?a ?b] => destruct (Z.eqb_spec a b)
  | |- context [Z.leb ?a ?b] => destruct (Z.leb_spec a b)
  | |- context [Z.ltb ?a ?b] => destruct (Z.ltb_spec a b)
  | |- context [if ?b then _ else _] => destruct b eqn:?
  end.

Lemma ISR_prefix_frame (s : State) :
  car (ISR_prefix s) = car s /\ trav (ISR_prefix s) = trav s /\
  matrix (ISR_prefix s) = matrix s /\ terminal (ISR_prefix s) = terminal s.
Proof.
  unfold ISR_prefix, ISR_button, ISR_timers, ISR_seven_seg.
  destruct (handle_seven_seg_frame (digit (seq s)) s) as (Hc & Ht & Hq & Hm & Hl).
  revert Hc Ht Hq Hm Hl. generalize (handle_seven_seg (digit (seq s)) s).
  intros s1 Hc Ht Hq Hm Hl. rewrite <- Hc, <- Ht, <- Hm, <- Hl.
  frame; auto.
Qed.

Lemma ISR_prefix_animation (s : State) :
  floor_just_reached (seq (ISR_prefix s)) = floor_just_reached (seq s) /\
  animation_phase (seq (ISR_prefix s)) = animation_phase (seq s) /\
  elevator_door_open (seq (ISR_prefix s)) = elevator_door_open (seq s) /\
  animation_timer (seq (ISR_prefix s)) =
    (if floor_just_reached (seq s) then uint16 (animation_timer (seq s) + 1)
     else animation_timer (seq s)).
Proof.
  unfold ISR_prefix, ISR_button, ISR_timers, ISR_seven_seg.
  destruct (handle_seven_seg_frame (digit (seq s)) s) as (_ & _ & Hq & _ & _).
  revert Hq. generalize (handle_seven_seg (digit (seq s)) s).
  intros s1 Hq. rewrite <- Hq.
  frame; auto.
Qed.

Lemma ISR_animation_frame (s : State) :
  car (ISR_animation s) = car s /\ trav (ISR_animation s) = trav s /\
  matrix (ISR_animation s) = matrix s /\ terminal (ISR_animation s) = terminal s.
Proof.
  unfold ISR_animation.
  destruct (animation_phase (seq s)) as [|[[]|[]|]|]; frame; auto.
Qed.

Lemma ISR_frame (s : State) :
  car (ISR s) = car s /\ trav (ISR s) = trav s /\
  matrix (ISR s) = matrix s /\ terminal (ISR s) = terminal s.
Proof.
  unfold ISR. fold (ISR_prefix s).
  destruct (ISR_animation_frame (ISR_prefix s)) as (-> & -> & -> & ->).
  apply ISR_prefix_frame.
Qed.

(** ** The door sequencer *)

(** The [switch] of the handler on the variables of the animation. *)
Lemma ISR_animation_cases (s : State) :
  let q := seq s in
  let q' := seq (ISR_animation s) in
  0 <= animation_timer q <= 800 ->
  (animation_phase q = IDLE ->
     floor_just_reached q' = floor_just_reached q /\
     elevator_door_open q' = elevator_door_open q /\
     (animation_timer q < 800 ->
        animation_phase q' = IDLE /\ animation_timer q' = animation_timer q) /\
     (animation_timer q = 800 -> animation_phase q' = OPENING /\ animation_timer q' = 0))
  /\
  (animation_phase q = OPENING ->
     floor_just_reached q' = floor_just_reached q /\
     elevator_door_open q' =
       (if animation_timer q =? 1 then true else elevator_door_open q) /\
     (animation_timer q < 800 ->
        animation_phase q' = OPENING /\ animation_timer q' = animation_timer q) /\
     (animation_timer q = 800 -> animation_phase q' = CLOSING /\ animation_timer q' = 0))
  /\
  (animation_phase q = CLOSING ->
     elevator_door_open q' =
       (if animation_timer q =? 1 then false else elevator_door_open q) /\
     (animation_timer q < 800 ->
        floor_just_reached q' = floor_just_reached q /\
        animation_phase q' = CLOSING /\ animation_timer q' = animation_timer q) /\
     (animation_timer q = 800 ->
        floor_just_reached q' = false /\
        animation_phase q' = IDLE /\ animation_timer q' = 0)).
Proof.
  intros q q' Ht. subst q q'. unfold IDLE, OPENING, CLOSING, ISR_animation.
  repeat split; intros;
    match goal with H : animation_phase _ = _ |- _ => rewrite H end;
    repeat (reduce; try split_cond); try reflexivity; try lia.
Qed.

(** The invariant from the four variables it speaks of. *)
Lemma seq_ok_of_fields (q : Sequencer) (f : bool) (p t : Z) (d : bool) :
  floor_just_reached q = f -> animation_phase q = p ->
  animation_timer q = t -> elevator_door_open q = d ->
  0 <= t < 800 ->
  (p = 0 \/ p = 1 \/ p = 2) ->
  (f = false -> p = 0 /\ t = 0) ->
  (d = true <-> (p = 1 /\ 1 <= t) \/ (p = 2 /\ t = 0)) ->
  seq_ok q.
Proof.
  intros <- <- <- <- Ht Hp Hi Hd. constructor; assumption.
Qed.

Lemma ISR_seq_ok (s : State) : seq_ok (seq s) -> seq_ok (seq (ISR s)).
Proof.
  intros [Ht Hp Hi Hd].
  unfold ISR. fold (ISR_prefix s).
  destruct (ISR_prefix_animation s) as (Hf1 & Hp1 & Hd1 & Ht1).
  assert (Hr : 0 <= animation_timer (seq (ISR_prefix s)) <= 800).
  { rewrite Ht1. destruct (floor_just_reached (seq s)).
    - rewrite uint16_small by lia. lia.
    - lia. }
  destruct (ISR_animation_cases (ISR_prefix s) Hr) as (C0 & C1 & C2).
  rewrite Hp1, Hf1, Hd1 in C0, C1, C2. rewrite Ht1 in C0, C1, C2. clear Hr Ht1.
  unfold IDLE, OPENING, CLOSING in *.
  destruct (floor_just_reached (seq s)) eqn:Hf.
  - rewrite uint16_small in C0, C1, C2 by lia.
    destruct (Z.eq_dec (animation_timer (seq s) + 1) 800) as [E|E];
      destruct Hp as [Hp | [Hp | Hp]].
    + destruct (C0 Hp) as (Ef & Ed & _ & Heq). destruct (Heq E) as (Ep & Et).
      eapply seq_ok_of_fields; eauto; try lia; try discriminate.
      rewrite Hd. lia.
    + destruct (C1 Hp) as (Ef & Ed & _ & Heq). destruct (Heq E) as (Ep & Et).
      eapply seq_ok_of_fields; eauto; try lia; try discriminate.
      destruct (Z.eqb_spec (animation_timer (seq s) + 1) 1); [lia|].
      rewrite Hd. lia.
    + destruct (C2 Hp) as (Ed & _ & Heq). destruct (Heq E) as (Ef & Ep & Et).
      eapply seq_ok_of_fields; eauto; try lia.
      destruct (Z.eqb_spec (animation_timer (seq s) + 1) 1); [lia|].
      rewrite Hd. lia.
    + destruct (C0 Hp) as (Ef & Ed & Hlt & _). destruct Hlt as (Ep & Et); [lia|].
      eapply seq_ok_of_fields; eauto; try lia; try discriminate.
      rewrite Hd. lia.
    + destruct (C1 Hp) as (Ef & Ed & Hlt & _). destruct Hlt as (Ep & Et); [lia|].
      eapply seq_ok_of_fields; eauto; try lia; try discriminate.
      destruct (Z.eqb_spec (animation_timer (seq s) + 1) 1).
      * split; [lia | reflexivity].
      * rewrite Hd. lia.
    + destruct (C2 Hp) as (Ed & Hlt & _). destruct Hlt as (Ef & Ep & Et); [lia|].
      eapply seq_ok_of_fields; eauto; try lia; try discriminate.
      destruct (Z.eqb_spec (animation_timer (seq s) + 1) 1).
      * split; [discriminate | lia].
      * rewrite Hd. lia.
  - destruct (Hi eq_refl) as (Hp0 & Ht0).
    destruct (C0 Hp0) as (Ef & Ed & Hlt & _). destruct Hlt as (Ep & Et); [lia|].
    eapply seq_ok_of_fields; eauto; try lia.
    rewrite Hd. lia.
Qed.

(** ** Requests *)

Lemma handle_inputs_at_active (fc btn ser : Z) (s : State) (i : Z) :
  traveller_active (trav s) = true -> handle_inputs_at fc btn ser s i = s.
Proof.
  intros H. unfold handle_inputs_at. rewrite H.
  destruct ((btn =? i) || (ser =? 48 + i)); reflexivity.
Qed.

Lemma handle_inputs_at_idle (fc btn ser : Z) (s : State) (i : Z) :
  traveller_active (trav s) = false ->
  i = 0 \/ i = 1 \/ i = 2 \/ i = 3 ->
  handle_inputs_at fc btn ser s i =
  if ((btn =? i) || (ser =? 48 + i)) && negb (i =? fc)
  then accept_request i fc s else s.
Proof.
  intros H Hi. unfold handle_inputs_at. rewrite H.
  destruct ((btn =? i) || (ser =? 48 + i)); [|reflexivity].
  cbn [negb andb]. destruct (i =? fc); [reflexivity|].
  cbn [negb]. unfold accept_request.
  destruct Hi as [-> | [-> | [-> | ->]]]; reflexivity.
Qed.

Lemma accept_request_active (i fc : Z) (s : State) :
  traveller_active (trav (accept_request i fc s)) = true.
Proof. reflexivity. Qed.

(** [handle_inputs] accepts the lowest selected floor that differs from
    the switches' floor, when no traveller is active, and nothing else. *)
Lemma handle_inputs_spec (fc button : Z) (serial : option Z) (s : State) :
  handle_inputs fc button serial s =
  if traveller_active (trav s) then s
  else match find (fun i => selected button serial i && negb (i =? fc)) [0; 1; 2; 3] with
       | Some i => accept_request i fc s
       | None => s
       end.
Proof.
  unfold handle_inputs, selected. cbn [fold_left find].
  set (btn := uint8 button).
  set (ser := match serial with Some c => c | None => -1 end).
  destruct (traveller_active (trav s)) eqn:Ha.
  - rewrite !(handle_inputs_at_active fc btn ser s) by assumption. reflexivity.
  - rewrite (handle_inputs_at_idle fc btn ser s 0) by auto.
    destruct (((btn =? 0) || (ser =? 48 + 0)) && negb (0 =? fc)).
    { rewrite !(handle_inputs_at_active fc btn ser (accept_request _ fc s))
        by apply accept_request_active.
      reflexivity. }
    rewrite (handle_inputs_at_idle fc btn ser s 1) by auto.
    destruct (((btn =? 1) || (ser =? 48 + 1)) && negb (1 =? fc)).
    { rewrite !(handle_inputs_at_active fc btn ser (accept_request _ fc s))
        by apply accept_request_active.
      reflexivity. }
    rewrite (handle_inputs_at_idle fc btn ser s 2) by auto.
    destruct (((btn =? 2) || (ser =? 48 + 2)) && negb (2 =? fc)).
    { rewrite !(handle_inputs_at_active fc btn ser (accept_request _ fc s))
        by apply accept_request_active.
      reflexivity. }
    rewrite (handle_inputs_at_idle fc btn ser s 3) by auto.
    destruct (((btn =? 3) || (ser =? 48 + 3)) && negb (3 =? fc)); reflexivity.
Qed.

(** The outcome of [handle_inputs], for the invariants. *)
Lemma handle_inputs_outcome (fc button : Z) (serial : option Z) (s : State) :
  handle_inputs fc button serial s = s
  \/ exists i, 0 <= i <= 3 /\ i <> fc /\ selected button serial i = true
               /\ traveller_active (trav s) = false
               /\ handle_inputs fc button serial s = accept_request i fc s.
Proof.
  rewrite handle_inputs_spec.
  destruct (traveller_active (trav s)) eqn:Ha; [left; reflexivity|].
  destruct (find _ _) as [i|] eqn:Hf; [|left; reflexivity].
  right. exists i. apply find_some in Hf. destruct Hf as [Hin Hc].
  apply andb_true_iff in Hc. destruct Hc as [Hs Hn].
  apply negb_true_iff, Z.eqb_neq in Hn.
  repeat split; auto; cbn [In] in Hin; lia.
Qed.

(** ** Effects of the statements of the main loop *)

Lemma draw_elevator_effect (s : State) :
  car (draw_elevator s) = with_old_position (uint8 (current_position (car s))) (car s)
  /\ trav (draw_elevator s) = trav s /\ seq (draw_elevator s) = seq s
  /\ io (draw_elevator s) = io s /\ terminal (draw_elevator s) = terminal s.
Proof.
  unfold draw_elevator. cbn [fold_left]. frame; auto.
Qed.

Lemma move_elevator_effect (i : Inputs) (s : State) :
  let s' := move_elevator i s in
  trav s' = trav s /\ seq s' = seq s /\ io s' = io s /\ terminal s' = terminal s
  /\ destination (car s') = destination (car s)
  /\ old_floor (car s') = old_floor (car s)
  /\ current_floor (car s') = current_floor (car s)
  /\ current_position (car s') =
     (if move_due i s then
        let d := int16 (destination (car s) - current_position (car s)) in
        if 0 <? d then int16 (current_position (car s) + 1)
        else if d <? 0 then int16 (current_position (car s) - 1)
             else current_position (car s)
      else current_position (car s)).
Proof.
  unfold move_elevator, move_due.
  destruct (_ && _); cbn zeta; [|repeat split; reflexivity].
  match goal with
  | |- context [draw_elevator ?x] =>
      destruct (draw_elevator_effect x) as (Hc & Ht & Hq & Hp & Hl);
      revert Hc Ht Hq Hp Hl; generalize (draw_elevator x)
  end.
  intros s1 Hc Ht Hq Hp Hl. reduce. rewrite Hc, Ht, Hq, Hp, Hl. clear.
  destruct (0 <? _); [reduce; repeat split; reflexivity|].
  destruct (_ <? 0); reduce; repeat split; reflexivity.
Qed.

Lemma pickup_destination_effect (fc : Z) (s : State) :
  let s' := pickup_destination fc s in
  trav s' = trav s /\ seq s' = seq s /\ io s' = io s
  /\ matrix s' = matrix s /\ terminal s' = terminal s
  /\ current_position (car s') = current_position (car s)
  /\ old_floor (car s') = old_floor (car s)
  /\ current_floor (car s') = current_floor (car s)
  /\ destination (car s') =
     (if traveller_active (trav s)
         && (traveller_floor (trav s) =? current_position (car s))
      then fc * 4 else destination (car s)).
Proof.
  unfold pickup_destination. destruct (_ && _); reduce; repeat split; reflexivity.
Qed.

Lemma handle_displays_effect (s : State) :
  let s' := handle_displays s in
  seq s' = seq s /\ io s' = io s /\ matrix s' = matrix s
  /\ current_position (car s') = current_position (car s)
  /\ destination (car s') = destination (car s)
  /\ current_floor (car s') = sticky s
  /\ old_floor (car s') = sticky s
  /\ traveller_active (trav s') = traveller_active (trav s)
  /\ traveller_onboard (trav s') = traveller_onboard (trav s)
  /\ traveller_floor (trav s') = traveller_floor (trav s)
  /\ floors_w_traveller (trav s') =
     (if negb (old_floor (car s) =? sticky s) && traveller_onboard (trav s)
      then uint8 (floors_w_traveller (trav s) + 1) else floors_w_traveller (trav s))
  /\ floors_no_traveller (trav s') =
     (if negb (old_floor (car s) =? sticky s) && negb (traveller_onboard (trav s))
      then uint8 (floors_no_traveller (trav s) + 1) else floors_no_traveller (trav s)).
Proof.
  unfold handle_displays, sticky, display_information. cbv zeta. reduce.
  destruct (at_a_floor (current_position (car s))); reduce;
    destruct (old_floor (car s) =? _); cbn [negb andb orb]; reduce;
    destruct (traveller_onboard (trav s)) eqn:Hon; cbn [negb andb orb]; reduce;
    try (destruct (negb _); cbn [orb]; reduce);
    repeat split; try reflexivity; assumption.
Qed.

Lemma arrival_trigger_effect (s : State) :
  arrival_trigger s =
  if traveller_active (trav s) && (traveller_floor (trav s) =? current_position (car s))
  then trigger s else s.
Proof. reflexivity. Qed.

Lemma drop_off_effect (s : State) :
  let s' := drop_off s in
  car s' = car s /\ io s' = io s /\ matrix s' = matrix s /\ terminal s' = terminal s
  /\ traveller_floor (trav s') = traveller_floor (trav s)
  /\ floors_w_traveller (trav s') = floors_w_traveller (trav s)
  /\ floors_no_traveller (trav s') = floors_no_traveller (trav s)
  /\ (seq s' = seq s \/ seq s' = seq (trigger s)).
Proof.
  unfold drop_off, trigger. destruct (_ && _); reduce; repeat split; auto.
Qed.

Lemma board_effect (s : State) :
  let s' := board s in
  car s' = car s /\ seq s' = seq s /\ io s' = io s /\ terminal s' = terminal s
  /\ traveller_floor (trav s') = traveller_floor (trav s)
  /\ traveller_active (trav s') = traveller_active (trav s)
  /\ floors_w_traveller (trav s') = floors_w_traveller (trav s)
  /\ floors_no_traveller (trav s') = floors_no_traveller (trav s).
Proof.
  unfold board. destruct (_ && _); reduce; repeat split; auto.
Qed.

(** ** Invariants of the reachable configurations *)

Lemma floor_coordinate_of_index (i : Z) : 0 <= i <= 3 -> floor_coordinate (4 * i).
Proof. unfold floor_coordinate, FLOOR_0, FLOOR_1, FLOOR_2, FLOOR_3. lia. Qed.

Lemma seq_ok_trigger (s : State) : seq_ok (seq s) -> seq_ok (seq (trigger s)).
Proof.
  intros [Ht Hp Hi Hd]. unfold trigger. reduce.
  constructor; reduce; auto. discriminate.
Qed.

Lemma ISR_car_ok (s : State) : car_ok s -> car_ok (ISR s).
Proof.
  intros [H1 H2 H3 H4 H5 H6].
  destruct (ISR_frame s) as (Ec & Et & _ & _).
  constructor; rewrite ?Ec, ?Et; assumption.
Qed.

Lemma ISR_keeps_clear (s : State) :
  seq_ok (seq s) -> floor_just_reached (seq s) = false ->
  floor_just_reached (seq (ISR s)) = false.
Proof.
  intros [Ht Hp Hi Hd] Hf. destruct (Hi Hf) as (Hp0 & Ht0).
  unfold ISR. fold (ISR_prefix s).
  destruct (ISR_prefix_animation s) as (Hf1 & Hp1 & Hd1 & Ht1).
  rewrite Hf in Ht1.
  assert (Hr : 0 <= animation_timer (seq (ISR_prefix s)) <= 800) by lia.
  destruct (ISR_animation_cases (ISR_prefix s) Hr) as (C0 & _ & _).
  destruct C0 as (Ef & _); [congruence|]. congruence.
Qed.

Lemma move_elevator_car_ok (i : Inputs) (s : State) :
  car_ok s -> car_ok (move_elevator i s).
Proof.
  intros [H1 H2 H3 H4 H5 H6].
  destruct (move_elevator_effect i s) as (Et & Eq & _ & _ & Ed & Eo & Ec & Ep).
  constructor; rewrite ?Et, ?Ed, ?Eo, ?Ec; try assumption.
  rewrite Ep. destruct (move_due i s); [|assumption]. cbv zeta.
  assert (Hd : -12 <= destination (car s) - current_position (car s) <= 12).
  { unfold floor_coordinate, FLOOR_0, FLOOR_1, FLOOR_2, FLOOR_3 in H2. lia. }
  rewrite (int16_small (destination (car s) - current_position (car s))) by lia.
  unfold floor_coordinate, FLOOR_0, FLOOR_1, FLOOR_2, FLOOR_3 in H2.
  destruct (Z.ltb_spec 0 (destination (car s) - current_position (car s))).
  - rewrite int16_small by lia. lia.
  - destruct (Z.ltb_spec (destination (car s) - current_position (car s)) 0).
    + rewrite int16_small by lia. lia.
    + lia.
Qed.

Lemma accept_request_car_ok (i fc : Z) (s : State) :
  0 <= i <= 3 -> car_ok s -> car_ok (accept_request i fc s).
Proof.
  intros Hi [H1 H2 H3 H4 H5 H6]. unfold accept_request.
  constructor; reduce; auto using floor_coordinate_of_index.
Qed.

Lemma handle_inputs_car_ok (fc button : Z) (serial : option Z) (s : State) :
  car_ok s -> car_ok (handle_inputs fc button serial s).
Proof.
  intros H. destruct (handle_inputs_outcome fc button serial s)
    as [-> | (i & Hi & _ & _ & _ & ->)]; auto using accept_request_car_ok.
Qed.

Lemma handle_inputs_seq (fc button : Z) (serial : option Z) (s : State) :
  seq (handle_inputs fc button serial s) = seq s
  \/ seq (handle_inputs fc button serial s) = with_button_just_pushed true (seq s).
Proof.
  destruct (handle_inputs_outcome fc button serial s)
    as [-> | (i & _ & _ & _ & _ & ->)]; [left | right]; reflexivity.
Qed.

Lemma seq_ok_button (b : bool) (q : Sequencer) :
  seq_ok q -> seq_ok (with_button_just_pushed b q).
Proof. intros [Ht Hp Hi Hd]. constructor; reduce; auto. Qed.

Lemma pickup_destination_car_ok (fc : Z) (s : State) :
  0 <= fc <= 3 -> car_ok s -> car_ok (pickup_destination fc s).
Proof.
  intros Hfc [H1 H2 H3 H4 H5 H6].
  destruct (pickup_destination_effect fc s)
    as (Et & _ & _ & _ & _ & Ep & Eo & Ec & Ed).
  constructor; rewrite ?Et, ?Ep, ?Eo, ?Ec; try assumption.
  rewrite Ed. destruct (_ && _); [|assumption].
  replace (fc * 4) with (4 * fc) by lia. auto using floor_coordinate_of_index.
Qed.

Lemma handle_displays_car_ok (s : State) : car_ok s -> car_ok (handle_displays s).
Proof.
  intros [H1 H2 H3 H4 H5 H6].
  destruct (handle_displays_effect s)
    as (_ & _ & _ & Ep & Ed & Ec & Eo & _ & _ & Ef & Ew & En).
  constructor; rewrite ?Ep, ?Ed, ?Ec, ?Eo, ?Ef; try assumption; try reflexivity.
  - rewrite Ew. destruct (negb _ && traveller_onboard _); [apply uint8_range | assumption].
  - rewrite En. destruct (negb _ && negb _); [apply uint8_range | assumption].
Qed.

Lemma arrival_trigger_car_ok (s : State) : car_ok s -> car_ok (arrival_trigger s).
Proof.
  intros H. rewrite arrival_trigger_effect. destruct (_ && _); [|assumption].
  destruct H. constructor; assumption.
Qed.

Lemma drop_off_car_ok (s : State) : car_ok s -> car_ok (drop_off s).
Proof.
  intros [H1 H2 H3 H4 H5 H6].
  destruct (drop_off_effect s) as (Ec & _ & _ & _ & Ef & Ew & En & _).
  constructor; rewrite ?Ec, ?Ef, ?Ew, ?En; assumption.
Qed.

Lemma board_car_ok (s : State) : car_ok s -> car_ok (board s).
Proof.
  intros [H1 H2 H3 H4 H5 H6].
  destruct (board_effect s) as (Ec & _ & _ & _ & Ef & _ & Ew & En).
  constructor; rewrite ?Ec, ?Ef, ?Ew, ?En; assumption.
Qed.

Lemma draw_floors_frame (width : Z) (s : State) :
  car (draw_floors width s) = car s /\ trav (draw_floors width s) = trav s
  /\ seq (draw_floors width s) = seq s /\ io (draw_floors width s) = io s
  /\ terminal (draw_floors width s) = terminal s.
Proof.
  unfold draw_floors. generalize (map Z.of_nat (List.seq 0 (Z.to_nat width))).
  intros l. revert s. induction l as [|x l IH]; intros s; cbn [fold_left].
  - repeat split; reflexivity.
  - destruct (IH (update_square_colour x FLOOR_3 FLOOR
                    (update_square_colour x FLOOR_2 FLOOR
                       (update_square_colour x FLOOR_1 FLOOR
                          (update_square_colour x FLOOR_0 FLOOR s)))))
      as (-> & -> & -> & -> & ->).
    repeat split; reflexivity.
Qed.

(** The globals when the loop is entered. *)
Lemma boot_state (width t0 : Z) :
  car (st (boot width t0)) = mkCar (uint32 t0) 0 0 0 0 0 0 0
  /\ trav (st (boot width t0)) = mkTraveller false false 0 0 0
  /\ seq (st (boot width t0)) = mkSequencer 0 false 0 0 false false 0
  /\ io (st (boot width t0)) = mkPorts 0 6 0 0 0.
Proof.
  unfold boot, start_elevator_emulator_init. reduce. unfold display_information. reduce.
  match goal with
  | |- context [draw_floors width ?x] =>
      destruct (draw_floors_frame width x) as (-> & -> & -> & -> & _);
      destruct (draw_elevator_effect (upd_car (with_time_since_move (uint32 t0)) zero_state))
        as (-> & -> & -> & -> & _)
  end.
  repeat split; reflexivity.
Qed.

Lemma boot_invariant (width t0 : Z) : invariant (boot width t0).
Proof.
  destruct (boot_state width t0) as (Ec & Et & Eq & _).
  constructor.
  - constructor; rewrite ?Ec, ?Et; reduce;
      unfold floor_coordinate, FLOOR_0; auto; lia.
  - rewrite Eq. constructor; reduce; unfold IDLE, OPENING, CLOSING; auto; try lia.
  - cbn. lia.
  - cbn. discriminate.
Qed.

Lemma step_invariant (e : Event) (m : Machine) : invariant m -> invariant (step e m).
Proof.
  intros [Hc Hq Hfc Hg]. destruct e as [|i]; cbn [step].
  - constructor; reduce; auto using ISR_car_ok, ISR_seq_ok, ISR_keeps_clear.
  - destruct (pc m) eqn:Hpc; cbn [before_trigger] in Hg.
    + destruct (move_elevator_effect i (st m)) as (_ & Eq & _).
      constructor; reduce; auto using move_elevator_car_ok.
      * rewrite Eq. assumption.
      * discriminate.
    + destruct (floor_just_reached (seq (st m))) eqn:Hf; cbn [negb];
        constructor; reduce; auto using floor_choice_of_range; discriminate.
    + constructor; reduce; auto using handle_inputs_car_ok.
      * destruct (handle_inputs_seq (floor_choice m) (in_button i) (in_serial i) (st m))
          as [-> | ->]; auto using seq_ok_button.
      * intros _.
        destruct (handle_inputs_seq (floor_choice m) (in_button i) (in_serial i) (st m))
          as [-> | ->]; reduce; auto.
    + destruct (pickup_destination_effect (floor_choice m) (st m)) as (_ & Eq & _).
      constructor; reduce; auto using pickup_destination_car_ok; rewrite Eq; auto.
    + destruct (handle_displays_effect (st m)) as (Eq & _).
      constructor; reduce; auto using handle_displays_car_ok; rewrite Eq; auto.
    + constructor; reduce; auto using arrival_trigger_car_ok.
      * rewrite arrival_trigger_effect.
        destruct (_ && _); auto using seq_ok_trigger.
      * discriminate.
    + destruct (drop_off_effect (st m)) as (_ & _ & _ & _ & _ & _ & _ & Eq).
      constructor; reduce; auto using drop_off_car_ok.
      * destruct Eq as [-> | ->]; auto using seq_ok_trigger.
      * discriminate.
    + destruct (board_effect (st m)) as (_ & Eq & _).
      constructor; reduce; auto using board_car_ok.
      * rewrite Eq. assumption.
      * discriminate.
Qed.

Theorem reachable_invariant (m : Machine) : reachable m -> invariant m.
Proof.
  induction 1 as [width t0 | e m _ IH].
  - apply boot_invariant.
  - apply step_invariant, IH.
Qed.

(** ** Scenarios stay among the reachable configurations *)

Lemma reachable_interrupts (n : nat) (m : Machine) :
  reachable m -> reachable (interrupts n m).
Proof.
  intros H. unfold interrupts. induction n as [|n IH]; cbn [Nat.iter].
  - assumption.
  - apply reach_step, IH.
Qed.

Lemma reachable_until_head (fuel : nat) (i : Inputs) (m : Machine) :
  reachable m -> reachable (until_head fuel i m).
Proof.
  revert m. induction fuel as [|k IH]; intros m H; cbn [until_head].
  - assumption.
  - destruct (pc (step (Main i) m)); try apply IH; apply reach_step, H.
Qed.

Lemma reachable_play (l : list Action) (m : Machine) :
  reachable m -> reachable (play l m).
Proof.
  unfold play. revert m. induction l as [|a l IH]; intros m H; cbn [fold_left].
  - assumption.
  - apply IH. destruct a; cbn [act].
    + apply reachable_interrupts, H.
    + apply reachable_until_head, H.
Qed.

Lemma until_head_step (k : nat) (i : Inputs) (m : Machine) :
  until_head (S k) i m =
  match pc (step (Main i) m) with
  | PcMove => step (Main i) m
  | _ => until_head k i (step (Main i) m)
  end.
Proof. reflexivity. Qed.

(** A pass that is not interrupted is [main_iteration]. *)
Lemma pass_main_iteration (i : Inputs) (m : Machine) :
  pc m = PcMove ->
  pc (pass i m) = PcMove /\ st (pass i m) = main_iteration i (st m).
Proof.
  destruct m as [p fc s]. cbn [pc st]. intros ->.
  unfold pass, main_iteration.
  rewrite until_head_step. cbn [step pc floor_choice st].
  rewrite until_head_step. cbn [step pc floor_choice st].
  destruct (floor_just_reached (seq (move_elevator i s))); cbn [negb pc].
  - rewrite until_head_step. cbn [step pc floor_choice st].
    split; reflexivity.
  - do 6 (rewrite until_head_step; cbn [step pc floor_choice st]).
    split; reflexivity.
Qed.

(** ** What a step may change *)

Lemma PC_eq_dec (a b : PC) : {a = b} + {a <> b}.
Proof. decide equality. Qed.

Lemma handle_inputs_position (fc button : Z) (serial : option Z) (s : State) :
  current_position (car (handle_inputs fc button serial s)) = current_position (car s).
Proof.
  destruct (handle_inputs_outcome fc button serial s)
    as [-> | (i & _ & _ & _ & _ & ->)]; reflexivity.
Qed.

(** Only the movement block moves the car. *)
Lemma step_position (e : Event) (m : Machine) :
  e = Tick \/ pc m <> PcMove ->
  current_position (car (st (step e m))) = current_position (car (st m)).
Proof.
  intros H. destruct e as [|i]; cbn [step]; reduce.
  - destruct (ISR_frame (st m)) as (-> & _). reflexivity.
  - destruct H as [H|H]; [discriminate|].
    destruct (pc m); reduce.
    + congruence.
    + destruct (negb _); reflexivity.
    + apply handle_inputs_position.
    + apply pickup_destination_effect.
    + apply handle_displays_effect.
    + rewrite arrival_trigger_effect. destruct (_ && _); reflexivity.
    + destruct (drop_off_effect (st m)) as (-> & _). reflexivity.
    + destruct (board_effect (st m)) as (-> & _). reflexivity.
Qed.

(** The main loop leaves the animation alone, except for the trigger. *)
Lemma main_step_animation (i : Inputs) (m : Machine) :
  let q := seq (st m) in
  let q' := seq (st (step (Main i) m)) in
  animation_phase q' = animation_phase q
  /\ animation_timer q' = animation_timer q
  /\ elevator_door_open q' = elevator_door_open q
  /\ (floor_just_reached q' = floor_just_reached q \/ floor_just_reached q' = true).
Proof.
  cbn [step]. destruct (pc m); reduce.
  - destruct (move_elevator_effect i (st m)) as (_ & -> & _). auto.
  - destruct (negb _); reduce; auto.
  - destruct (handle_inputs_seq (floor_choice m) (in_button i) (in_serial i) (st m))
      as [-> | ->]; reduce; auto.
  - destruct (pickup_destination_effect (floor_choice m) (st m)) as (_ & -> & _). auto.
  - destruct (handle_displays_effect (st m)) as (-> & _). auto.
  - rewrite arrival_trigger_effect. destruct (_ && _); unfold trigger; reduce; auto.
  - destruct (drop_off_effect (st m)) as (_ & _ & _ & _ & _ & _ & _ & [-> | ->]);
      unfold trigger; reduce; auto.
  - destruct (board_effect (st m)) as (_ & -> & _). auto.
Qed.

(** The phase after an interrupt. *)
Lemma ISR_phase (s : State) :
  seq_ok (seq s) ->
  animation_phase (seq (ISR s)) = animation_phase (seq s)
  \/ animation_phase (seq (ISR s)) = next_phase (animation_phase (seq s)).
Proof.
  intros [Ht Hp Hi Hd].
  unfold ISR. fold (ISR_prefix s).
  destruct (ISR_prefix_animation s) as (Hf1 & Hp1 & Hd1 & Ht1).
  assert (Hr : 0 <= animation_timer (seq (ISR_prefix s)) <= 800).
  { rewrite Ht1. destruct (floor_just_reached (seq s)); [|lia].
    rewrite uint16_small by lia. lia. }
  destruct (ISR_animation_cases (ISR_prefix s) Hr) as (C0 & C1 & C2).
  rewrite Hp1 in C0, C1, C2.
  destruct (Z.eq_dec (animation_timer (seq (ISR_prefix s))) 800) as [E|E];
    destruct Hp as [Hp | [Hp | Hp]]; rewrite Hp; unfold next_phase, IDLE, OPENING, CLOSING; cbn [Z.eqb Pos.eqb].
  - right. apply C0; auto.
  - right. apply C1; auto.
  - right. apply C2; auto.
  - left. apply C0; auto; lia.
  - left. apply C1; auto; lia.
  - left. apply C2; auto; lia.
Qed.

(** A trigger raised when one is pending changes nothing. *)
Lemma trigger_pending (s : State) :
  floor_just_reached (seq s) = true -> trigger s = s.
Proof.
  intros H. destruct s as [c t q p mx tm]. destruct q as [dg f ph ti dr bj bt].
  unfold trigger. reduce. subst f. reflexivity.
Qed.

(** ** The claims *)

(** C1. In every reachable configuration, the movement block, when it is
    entered (the interval has elapsed and [floor_just_reached] is
    false), moves [current_position] by one towards [destination]: up by
    one when the destination is above, down by one when it is below, not
    at all when they are equal. No other step changes
    [current_position], and no step at all changes it while
    [floor_just_reached] is true. *)
Theorem car_moves_one_step_towards_destination (m : Machine) (e : Event) :
  reachable m ->
  let p := current_position (car (st m)) in
  let d := destination (car (st m)) in
  let p' := current_position (car (st (step e m))) in
  (forall i, e = Main i -> pc m = PcMove -> move_due i (st m) = true ->
     (p < d -> p' = p + 1) /\ (d < p -> p' = p - 1) /\ (d = p -> p' = p))
  /\ (forall i, e = Main i -> pc m = PcMove -> move_due i (st m) = false -> p' = p)
  /\ (e = Tick \/ pc m <> PcMove -> p' = p)
  /\ (floor_just_reached (seq (st m)) = true -> p' = p)
  /\ (p' = p - 1 \/ p' = p \/ p' = p + 1).
Proof.
  intros Hr p d p'. apply reachable_invariant in Hr.
  destruct Hr as [[H1 H2 _ _ _ _] _ _ _].
  assert (Hmove : forall i, e = Main i -> pc m = PcMove ->
            p' = if move_due i (st m) then
                   if 0 <? d - p then p + 1 else if d - p <? 0 then p - 1 else p
                 else p).
  { intros i -> Hpc. subst p'. cbn [step]. rewrite Hpc. reduce.
    destruct (move_elevator_effect i (st m)) as (_ & _ & _ & _ & _ & _ & _ & ->).
    destruct (move_due i (st m)); [|reflexivity]. cbv zeta. fold p d.
    assert (Hd : -12 <= d - p <= 12).
    { subst d p. unfold floor_coordinate, FLOOR_0, FLOOR_1, FLOOR_2, FLOOR_3 in H2. lia. }
    fold p in H1. rewrite (int16_small (d - p)) by lia.
    destruct (0 <? d - p); [apply int16_small; lia|].
    destruct (d - p <? 0); [apply int16_small; lia | reflexivity]. }
  assert (Hstill : e = Tick \/ pc m <> PcMove -> p' = p).
  { intros H. apply step_position, H. }
  repeat split.
  - intros Hlt. rewrite (Hmove i) by assumption. rewrite H3.
    destruct (Z.ltb_spec 0 (d - p)); lia.
  - intros Hlt. rewrite (Hmove i) by assumption. rewrite H3.
    destruct (Z.ltb_spec 0 (d - p)); [lia|].
    destruct (Z.ltb_spec (d - p) 0); lia.
  - intros Heq. rewrite (Hmove i) by assumption. rewrite H3.
    destruct (Z.ltb_spec 0 (d - p)); [lia|].
    destruct (Z.ltb_spec (d - p) 0); lia.
  - intros i He Hpc Hdue. rewrite (Hmove i) by assumption. rewrite Hdue. reflexivity.
  - assumption.
  - intros Hf. destruct e as [|i]; [apply Hstill; auto|].
    destruct (PC_eq_dec (pc m) PcMove) as [Hpc|Hpc]; [|apply Hstill; auto].
    rewrite (Hmove i) by auto. unfold move_due. rewrite Hf.
    rewrite andb_false_r. reflexivity.
  - destruct e as [|i]; [right; left; apply Hstill; auto|].
    destruct (PC_eq_dec (pc m) PcMove) as [Hpc|Hpc];
      [|right; left; apply Hstill; auto].
    rewrite (Hmove i) by auto.
    destruct (move_due i (st m)); [|auto].
    destruct (0 <? d - p); [auto|]. destruct (d - p <? 0); auto.
Qed.

Lemma car_moves_one_step_witness :
  let m := pass (mkInputs 0 126 0 1 None) (boot 8 0) in
  let i := mkInputs 0 126 0 (-1) None in
  reachable m
  /\ pc m = PcMove
  /\ move_due i (st m) = true
  /\ current_position (car (st m)) < destination (car (st m))
  /\ current_position (car (st (step (Main i) m))) = current_position (car (st m)) + 1.
Proof.
  intros m i.
  assert (Hr : reachable m) by (apply reachable_until_head, reach_boot).
  assert (Hpc : pc m = PcMove) by reflexivity.
  assert (Hdue : move_due i (st m) = true) by reflexivity.
  assert (Hlt : current_position (car (st m)) < destination (car (st m)))
    by reflexivity.
  split; [exact Hr|]. split; [exact Hpc|]. split; [exact Hdue|]. split; [exact Hlt|].
  exact (proj1 (proj1 (car_moves_one_step_towards_destination m (Main i) Hr)
                  i eq_refl Hpc Hdue) Hlt).
Defined.

(** C2. The doors are activated twice for one arrival. A traveller is
    placed on floor 1 and the car goes up. In the pass in which it
    arrives the switches select floor 1 itself: the trigger is raised
    and the doors are animated, the traveller boards, the animation
    ends and the car has not moved. The switches now select floor 3,
    and in the next pass the test [traveller_active && traveller_floor
    == current_position], which does not ask whether the traveller is
    on board already, raises the trigger again: the doors open a second
    time at the floor the car reached once. With the switches left
    alone (second run) the same happens when the interrupt that ends
    the animation is served between the movement block and the test of
    [floor_just_reached] that follows it. *)
Lemma doors_animate_twice :
  let m1 := play (Pass (press 1 0) :: repeat (Pass quiet) 3) (boot 8 0) in
  let m2 := pass (switches 32) m1 in
  let m3 := play [Interrupts 801; Pass (switches 96); Interrupts 1599] m2 in
  let m4 := pass (switches 96) m3 in
  let m5 := interrupts 801 m4 in
  let n3 := play [Interrupts 801; Pass quiet; Interrupts 1598] (pass quiet m1) in
  let n4 := step Tick (step (Main quiet) n3) in
  let n5 := pass quiet n4 in
  (current_position (car (st m1)) = 3
   /\ traveller_floor (trav (st m1)) = 4
   /\ activated m1 m2
   /\ current_position (car (st m2)) = 4
   /\ traveller_onboard (trav (st m2)) = false)
  /\ (floor_just_reached (seq (st m3)) = false
      /\ animation_phase (seq (st m3)) = IDLE
      /\ current_position (car (st m3)) = 4
      /\ traveller_onboard (trav (st m3)) = true)
  /\ (activated m3 m4
      /\ current_position (car (st m4)) = 4
      /\ traveller_floor (trav (st m4)) = 4
      /\ traveller_onboard (trav (st m4)) = true
      /\ traveller_active (trav (st m4)) = true)
  /\ (elevator_door_open (seq (st m5)) = true
      /\ current_position (car (st m5)) = 4)
  /\ (pc n3 = PcMove /\ floor_just_reached (seq (st n3)) = true
      /\ traveller_onboard (trav (st n3)) = true
      /\ pc n4 = PcGuard
      /\ activated n4 n5
      /\ current_position (car (st n5)) = 4
      /\ traveller_onboard (trav (st n5)) = true
      /\ elevator_door_open (seq (st (interrupts 801 n5))) = true).
Proof.
  vm_compute. repeat split; reflexivity.
Qed.



(** C4. A call of [handle_inputs] while a traveller is active, or in
    which every selected floor is the floor of the switches, returns the
    state it was given: [traveller_active], [traveller_onboard],
    [traveller_floor], [destination], the feedback timer and everything
    else are unchanged. *)
Theorem handle_inputs_rejects (fc button : Z) (serial : option Z) (s : State) :
  traveller_active (trav s) = true
  \/ (forall j, 0 <= j <= 3 -> selected button serial j = true -> j = fc) ->
  handle_inputs fc button serial s = s.
Proof.
  intros H. destruct (handle_inputs_outcome fc button serial s)
    as [E | (i & Hi & Hn & Hs & Ha & _)]; [exact E|].
  exfalso. destruct H as [H|H]; [congruence|]. apply Hn, H; assumption.
Qed.

Lemma handle_inputs_rejects_witness :
  (traveller_active (trav (upd_trav (with_traveller_active true) zero_state)) = true
   \/ (forall j, 0 <= j <= 3 -> selected 2 (Some 51) j = true -> j = 1))
  /\ handle_inputs 1 2 (Some 51) (upd_trav (with_traveller_active true) zero_state)
     = upd_trav (with_traveller_active true) zero_state.
Proof.
  assert (H : traveller_active (trav (upd_trav (with_traveller_active true) zero_state))
              = true
              \/ (forall j, 0 <= j <= 3 -> selected 2 (Some 51) j = true -> j = 1)).
  { left. reflexivity. }
  split; [exact H|].
  exact (handle_inputs_rejects 1 2 (Some 51)
           (upd_trav (with_traveller_active true) zero_state) H).
Defined.

(** C10. When the button selects floor [i] and the serial digit floor
    [j], two different floors from 0 to 3 that both differ from the
    floor of the switches, one call of [handle_inputs] creates at most
    one traveller: with no traveller active it accepts the lower of the
    two floors and only that one (one marker is drawn, and the higher
    floor is turned down because [traveller_active] is already set);
    with a traveller active it accepts neither. *)
Theorem handle_inputs_button_and_serial (fc button i j : Z) (s : State) :
  0 <= i <= 3 -> 0 <= j <= 3 -> i <> j -> i <> fc -> j <> fc ->
  uint8 button = i ->
  let s' := handle_inputs fc button (Some (48 + j)) s in
  let lo := Z.min i j in
  let hi := Z.max i j in
  (traveller_active (trav s) = false ->
     s' = accept_request lo fc s
     /\ traveller_floor (trav s') = 4 * lo
     /\ destination (car s') = 4 * lo
     /\ traveller_floor (trav s') <> 4 * hi
     /\ length (matrix s') = S (length (matrix s))
     /\ handle_inputs_at fc (uint8 button) (48 + j) (accept_request lo fc s) hi
        = accept_request lo fc s)
  /\ (traveller_active (trav s) = true -> s' = s).
Proof.
  intros Hi Hj Hij Hif Hjf Hb s' lo hi. split.
  - intros Ha.
    assert (Hs' : s' = accept_request lo fc s).
    { subst s' lo. rewrite handle_inputs_spec, Ha. unfold selected. rewrite Hb.
      cbn [find].
      assert (Ei : i = 0 \/ i = 1 \/ i = 2 \/ i = 3) by lia.
      assert (Ej : j = 0 \/ j = 1 \/ j = 2 \/ j = 3) by lia.
      destruct Ei as [-> | [-> | [-> | ->]]];
        destruct Ej as [-> | [-> | [-> | ->]]]; try (exfalso; apply Hij; reflexivity);
        match goal with
        | |- context [Z.min ?a ?b] =>
            let v := eval vm_compute in (Z.min a b) in change (Z.min a b) with v
        end;
        repeat match goal with
               | |- context [Z.eqb ?a ?b] =>
                   destruct (Z.eqb_spec a b); try (exfalso; lia)
               end;
        cbn [orb andb negb]; reflexivity. }
    rewrite Hs'. split; [reflexivity|]. split; [reflexivity|]. split; [reflexivity|].
    split; [|split].
    + unfold accept_request. reduce. subst lo hi. lia.
    + reflexivity.
    + apply handle_inputs_at_active, accept_request_active.
  - intros Ha. subst s'. apply handle_inputs_rejects. left. exact Ha.
Qed.

Lemma handle_inputs_button_and_serial_witness :
  0 <= 3 <= 3 /\ 0 <= 1 <= 3 /\ 3 <> 1 /\ 3 <> 0 /\ 1 <> 0 /\ uint8 3 = 3
  /\ traveller_active (trav zero_state) = false
  /\ handle_inputs 0 3 (Some (48 + 1)) zero_state = accept_request 1 0 zero_state.
Proof.
  assert (H1 : 0 <= 3 <= 3) by lia.
  assert (H2 : 0 <= 1 <= 3) by lia.
  assert (H3 : 3 <> 1) by lia.
  assert (H4 : 3 <> 0) by lia.
  assert (H5 : 1 <> 0) by lia.
  assert (H6 : uint8 3 = 3) by reflexivity.
  assert (H7 : traveller_active (trav zero_state) = false) by reflexivity.
  repeat (split; [assumption|]).
  exact (proj1 (proj1 (handle_inputs_button_and_serial 0 3 3 1 zero_state
                         H1 H2 H3 H4 H5 H6) H7)).
Defined.

(** ** The animation, interrupt by interrupt *)

(** One interrupt while the trigger is pending: the counter goes up to
    799, and the interrupt after that starts the next phase at 0. The
    trigger is cleared when CLOSING ends, not before. *)
Lemma ISR_counting (s : State) :
  seq_ok (seq s) -> floor_just_reached (seq s) = true ->
  let q := seq s in
  let q' := seq (ISR s) in
  (animation_timer q < 799 ->
     animation_phase q' = animation_phase q
     /\ animation_timer q' = animation_timer q + 1
     /\ floor_just_reached q' = true)
  /\ (animation_timer q = 799 ->
     animation_phase q' = next_phase (animation_phase q)
     /\ animation_timer q' = 0
     /\ floor_just_reached q' = negb (animation_phase q =? CLOSING)).
Proof.
  intros [Ht Hp Hi Hd] Hf q q'. subst q q'.
  unfold ISR. fold (ISR_prefix s).
  destruct (ISR_prefix_animation s) as (Hf1 & Hp1 & Hd1 & Ht1).
  rewrite Hf in Ht1. rewrite uint16_small in Ht1 by lia.
  assert (Hr : 0 <= animation_timer (seq (ISR_prefix s)) <= 800) by lia.
  destruct (ISR_animation_cases (ISR_prefix s) Hr) as (C0 & C1 & C2).
  rewrite Hp1, Hf1, Ht1 in C0, C1, C2. rewrite Hf in C0, C1, C2.
  unfold next_phase.
  destruct Hp as [Hp | [Hp | Hp]]; rewrite Hp;
    unfold IDLE, OPENING, CLOSING in *; cbn [Z.eqb Pos.eqb negb]; split; intros Hlt.
  - destruct (C0 Hp) as (Ef & _ & Hl & _). destruct Hl as (E1 & E2); [lia|]. auto.
  - destruct (C0 Hp) as (Ef & _ & _ & Hl). destruct Hl as (E1 & E2); [lia|]. auto.
  - destruct (C1 Hp) as (Ef & _ & Hl & _). destruct Hl as (E1 & E2); [lia|]. auto.
  - destruct (C1 Hp) as (Ef & _ & _ & Hl). destruct Hl as (E1 & E2); [lia|]. auto.
  - destruct (C2 Hp) as (_ & Hl & _). destruct Hl as (Ef & E1 & E2); [lia|]. auto.
  - destruct (C2 Hp) as (_ & _ & Hl). destruct Hl as (Ef & E1 & E2); [lia|]. auto.
Qed.

(** [k] interrupts that fit in the current phase. *)
Lemma interrupts_within_phase (k : nat) (s : State) :
  seq_ok (seq s) -> floor_just_reached (seq s) = true ->
  animation_timer (seq s) + Z.of_nat k < 800 ->
  seq_ok (seq (Nat.iter k ISR s))
  /\ floor_just_reached (seq (Nat.iter k ISR s)) = true
  /\ animation_phase (seq (Nat.iter k ISR s)) = animation_phase (seq s)
  /\ animation_timer (seq (Nat.iter k ISR s)) = animation_timer (seq s) + Z.of_nat k.
Proof.
  intros Hq Hf. induction k as [|k IH]; intros Hk.
  - change (Nat.iter 0 ISR s) with s. split; [assumption|]. split; [assumption|].
    split; [reflexivity|]. lia.
  - change (Nat.iter (S k) ISR s) with (ISR (Nat.iter k ISR s)).
    destruct IH as (Hq' & Hf' & Hp' & Ht'); [lia|].
    destruct (ISR_counting _ Hq' Hf') as ((E1 & E2 & E3) & _); [lia|].
    split; [apply ISR_seq_ok; assumption|]. split; [exact E3|].
    split; [congruence|]. rewrite E2, Ht'. lia.
Qed.

Lemma handle_seven_seg_sound (d : Z) (s : State) :
  sound (handle_seven_seg d s) = sound s.
Proof. unfold handle_seven_seg, sound. frame. Qed.

Lemma ISR_prefix_sound (s : State) :
  button_just_pushed (seq s) = false -> button_timer (seq s) = 0 ->
  sound (ISR_prefix s) = sound s.
Proof.
  intros Hb Ht. unfold ISR_prefix, ISR_button, ISR_timers, ISR_seven_seg.
  pose proof (handle_seven_seg_sound (digit (seq s)) s) as Hs.
  destruct (handle_seven_seg_frame (digit (seq s)) s) as (_ & _ & Hq & _ & _).
  revert Hs Hq. generalize (handle_seven_seg (digit (seq s)) s).
  intros s1 Hs Hq. rewrite <- Hs. rewrite <- Hq in Hb, Ht. clear Hs Hq.
  unfold sound. reduce.
  destruct (floor_just_reached (seq s1)); reduce; rewrite Hb; reduce; rewrite Ht;
    change (0 =? 1) with false; reduce; rewrite Ht;
    change (100 <=? 0) with false; reflexivity.
Qed.

(** The OPENING case of the [switch] on the buzzer and the door. *)
Lemma ISR_animation_opening (s : State) :
  animation_phase (seq s) = OPENING ->
  let t := animation_timer (seq s) in
  let s' := ISR_animation s in
  (t = 1 -> elevator_door_open (seq s') = true
            /\ sound s' = (Z.lor (DDRD (io s)) 64, 249, 124))
  /\ (t = 100 -> sound s' = (Z.land (DDRD (io s)) (Z.lnot 64), 0, 0))
  /\ (t <> 1 -> t <> 100 -> sound s' = sound s).
Proof.
  intros Hp t s'. subst t s'. unfold ISR_animation, sound. rewrite Hp.
  unfold OPENING. repeat split; intros; repeat (reduce; try split_cond);
    try reflexivity; try lia.
Qed.

(** C5, as the code has it. A trigger raised in the IDLE phase changes
    neither the phase nor the counter. The sequencer stays in IDLE while
    the counter runs up to 799, the doors closed, and the interrupt that
    takes the counter to 800 moves it to OPENING with the counter back
    at 0: when no trigger was pending, that is the 800th interrupt after
    the trigger. *)
Theorem trigger_in_idle_waits (m : Machine) (k : nat) :
  reachable m ->
  animation_phase (seq (st m)) = IDLE ->
  let t := animation_timer (seq (st m)) in
  let s := trigger (st m) in
  animation_phase (seq s) = IDLE
  /\ animation_timer (seq s) = t
  /\ (floor_just_reached (seq (st m)) = false -> t = 0)
  /\ (t + Z.of_nat k < 800 ->
        animation_phase (seq (Nat.iter k ISR s)) = IDLE
        /\ animation_timer (seq (Nat.iter k ISR s)) = t + Z.of_nat k
        /\ elevator_door_open (seq (Nat.iter k ISR s)) = false)
  /\ (t + Z.of_nat k = 800 ->
        animation_phase (seq (Nat.iter k ISR s)) = OPENING
        /\ animation_timer (seq (Nat.iter k ISR s)) = 0).
Proof.
  intros Hr Hp t s. apply reachable_invariant in Hr.
  destruct Hr as [_ Hq _ _]. pose proof (seq_ok_trigger _ Hq) as Hq'.
  fold s in Hq'.
  assert (Hf' : floor_just_reached (seq s) = true) by reflexivity.
  assert (Hp' : animation_phase (seq s) = IDLE) by exact Hp.
  assert (Ht' : animation_timer (seq s) = t) by reflexivity.
  split; [exact Hp'|]. split; [exact Ht'|]. split.
  { intros Hf. apply (idle_when_clear _ Hq Hf). }
  split.
  - intros Hk.
    destruct (interrupts_within_phase k s Hq' Hf') as (Hqk & Hfk & Hpk & Htk); [lia|].
    split; [congruence|]. split; [lia|].
    destruct (elevator_door_open (seq (Nat.iter k ISR s))) eqn:Hd; [|reflexivity].
    apply (door_span _ Hqk) in Hd. rewrite Hpk, Hp' in Hd.
    unfold IDLE, OPENING, CLOSING in Hd. lia.
  - intros Hk. destruct k as [|k].
    { exfalso. pose proof (timer_range _ Hq). fold t in H. lia. }
    change (Nat.iter (S k) ISR s) with (ISR (Nat.iter k ISR s)).
    destruct (interrupts_within_phase k s Hq' Hf') as (Hqk & Hfk & Hpk & Htk); [lia|].
    destruct (ISR_counting _ Hqk Hfk) as (_ & (E1 & E2 & _)); [lia|].
    rewrite E1, E2, Hpk, Hp'. split; reflexivity.
Qed.

Lemma trigger_in_idle_waits_witness :
  reachable (boot 8 0)
  /\ animation_phase (seq (st (boot 8 0))) = IDLE
  /\ animation_phase (seq (trigger (st (boot 8 0)))) = IDLE.
Proof.
  split; [apply reach_boot|]. split; [reflexivity|].
  exact (proj1 (trigger_in_idle_waits (boot 8 0) 0 (reach_boot 8 0) eq_refl)).
Defined.

(** The claim C5 as the specification states it fails when the loop is
    entered: after the trigger the phase is still IDLE, 799 interrupts
    later it is IDLE with the counter at 799, and OPENING only begins at
    the 800th interrupt. *)
Lemma trigger_in_idle_counterexample :
  let s := trigger (st (boot 8 0)) in
  animation_phase (seq (st (boot 8 0))) = IDLE
  /\ animation_phase (seq s) <> OPENING
  /\ animation_phase (seq (ISR s)) <> OPENING
  /\ animation_phase (seq (Nat.iter 799 ISR s)) = IDLE
  /\ animation_timer (seq (Nat.iter 799 ISR s)) = 799
  /\ animation_phase (seq (Nat.iter 800 ISR s)) = OPENING.
Proof.
  vm_compute. repeat split; discriminate.
Qed.

(** C6, as the code has it. In the OPENING phase the interrupt that
    takes the counter to 1 opens the door and starts the 500 Hz tone,
    the interrupt that takes it to 100 (50 ms, an eighth of the phase)
    stops the tone, no other interrupt of the phase touches the buzzer
    when the button timer is at rest, and the interrupt that takes the
    counter to 800 moves the sequencer to CLOSING with the counter at
    0. *)
Theorem opening_tone_stops_at_100 (m : Machine) :
  reachable m ->
  animation_phase (seq (st m)) = OPENING ->
  let s := st m in
  let t := animation_timer (seq s) in
  (t = 0 -> elevator_door_open (seq (ISR s)) = true
            /\ OCR2A (io (ISR s)) = 249 /\ OCR2B (io (ISR s)) = 124
            /\ Z.testbit (DDRD (io (ISR s))) PD6 = true)
  /\ (t = 99 -> OCR2A (io (ISR s)) = 0 /\ OCR2B (io (ISR s)) = 0
                /\ Z.testbit (DDRD (io (ISR s))) PD6 = false)
  /\ (t <> 0 -> t <> 99 ->
      button_just_pushed (seq s) = false -> button_timer (seq s) = 0 ->
      sound (ISR s) = sound s)
  /\ (t < 799 -> animation_phase (seq (ISR s)) = OPENING
                 /\ animation_timer (seq (ISR s)) = t + 1)
  /\ (t = 799 -> animation_phase (seq (ISR s)) = CLOSING
                 /\ animation_timer (seq (ISR s)) = 0).
Proof.
  intros Hr Hp s t. apply reachable_invariant in Hr.
  destruct Hr as [_ Hq _ _]. fold s in Hq, Hp.
  assert (Hf : floor_just_reached (seq s) = true).
  { destruct (floor_just_reached (seq s)) eqn:Hf; [reflexivity|].
    destruct (idle_when_clear _ Hq Hf) as (H0 & _).
    unfold IDLE, OPENING in *. lia. }
  pose proof (timer_range _ Hq) as Ht. fold t in Ht.
  destruct (ISR_counting s Hq Hf) as (Clt & Ceq).
  destruct (ISR_prefix_animation s) as (_ & Hp1 & _ & Ht1).
  rewrite Hf, uint16_small in Ht1 by lia. rewrite Hp in Hp1.
  destruct (ISR_animation_opening (ISR_prefix s) Hp1) as (A1 & A100 & Aother).
  rewrite Ht1 in A1, A100, Aother. fold t in A1, A100, Aother.
  change (ISR_animation (ISR_prefix s)) with (ISR s) in A1, A100, Aother.
  unfold sound in A1, A100.
  repeat split.
  - apply A1. lia.
  - destruct A1 as (_ & E); [lia|]. congruence.
  - destruct A1 as (_ & E); [lia|]. congruence.
  - destruct A1 as (_ & E); [lia|]. injection E as E _ _. rewrite E.
    rewrite Z.lor_spec. apply orb_true_r.
  - assert (E : t + 1 = 100) by lia. apply A100 in E. congruence.
  - assert (E : t + 1 = 100) by lia. apply A100 in E. congruence.
  - assert (E : t + 1 = 100) by lia. apply A100 in E. injection E as E _ _.
    rewrite E, Z.land_spec. apply andb_false_r.
  - intros H0 H99 Hb Hbt. rewrite Aother by lia. apply ISR_prefix_sound; assumption.
  - destruct Clt as (E1 & E2 & _); [assumption|]. congruence.
  - destruct Clt as (E1 & E2 & _); [assumption|]. exact E2.
  - destruct Ceq as (E1 & E2 & _); [assumption|]. rewrite E1, Hp. reflexivity.
  - destruct Ceq as (E1 & E2 & _); [assumption|]. exact E2.
Qed.

Lemma opening_tone_stops_at_100_witness :
  reachable (play to_opening (boot 8 0))
  /\ animation_phase (seq (st (play to_opening (boot 8 0)))) = OPENING
  /\ (animation_timer (seq (st (play to_opening (boot 8 0)))) = 0 ->
      elevator_door_open (seq (ISR (st (play to_opening (boot 8 0))))) = true
      /\ OCR2A (io (ISR (st (play to_opening (boot 8 0))))) = 249
      /\ OCR2B (io (ISR (st (play to_opening (boot 8 0))))) = 124
      /\ Z.testbit (DDRD (io (ISR (st (play to_opening (boot 8 0)))))) PD6 = true).
Proof.
  assert (Hr : reachable (play to_opening (boot 8 0))).
  { apply reachable_play, reach_boot. }
  assert (Hp : animation_phase (seq (st (play to_opening (boot 8 0)))) = OPENING).
  { vm_compute. reflexivity. }
  split; [exact Hr|]. split; [exact Hp|].
  exact (proj1 (opening_tone_stops_at_100 (play to_opening (boot 8 0)) Hr Hp)).
Defined.

(** The claim C6 as the specification states it fails on the run
    [to_opening]: 99 interrupts into OPENING the 500 Hz tone is on, at
    the 100th it is off, long before the 400th, at which nothing
    happens to the buzzer. *)
Lemma opening_tone_counterexample :
  let s := st (play to_opening (boot 8 0)) in
  animation_phase (seq s) = OPENING /\ animation_timer (seq s) = 0
  /\ sound (Nat.iter 99 ISR s) = (64, 249, 124)
  /\ animation_phase (seq (Nat.iter 100 ISR s)) = OPENING
  /\ animation_timer (seq (Nat.iter 100 ISR s)) = 100
  /\ sound (Nat.iter 100 ISR s) = (0, 0, 0)
  /\ sound (Nat.iter 399 ISR s) = (0, 0, 0)
  /\ sound (Nat.iter 400 ISR s) = (0, 0, 0).
Proof.
  vm_compute. repeat split; reflexivity.
Qed.

(** The guarded block from the reassignment of [destination] on, when a
    traveller is active with the car at the traveller's floor. *)
Lemma arrival_block (fc : Z) (s : State) :
  traveller_active (trav s) = true ->
  traveller_floor (trav s) = current_position (car s) ->
  destination (car (board (drop_off (arrival_trigger (handle_displays
                 (pickup_destination fc s)))))) = fc * 4
  /\ floor_just_reached (seq (board (drop_off (arrival_trigger (handle_displays
                 (pickup_destination fc s)))))) = true.
Proof.
  intros Ha Hfl.
  destruct (pickup_destination_effect fc s)
    as (Et & _ & _ & _ & _ & Ep & _ & _ & Ed).
  rewrite Ha, Hfl, Z.eqb_refl in Ed. cbn [andb] in Ed.
  rewrite <- Et in Ha. rewrite <- Et, <- Ep in Hfl. clear Et Ep.
  revert Ha Hfl Ed. generalize (pickup_destination fc s). clear s. intros s Ha Hfl Ed.
  destruct (handle_displays_effect s)
    as (_ & _ & _ & Ep & Ed' & _ & _ & Ea & _ & Ef & _ & _).
  rewrite <- Ea in Ha. rewrite <- Ef, <- Ep in Hfl. rewrite <- Ed' in Ed.
  clear Ep Ed' Ea Ef.
  revert Ha Hfl Ed. generalize (handle_displays s). clear s. intros s Ha Hfl Ed.
  rewrite arrival_trigger_effect, Ha, Hfl, Z.eqb_refl. cbn [andb].
  assert (Hf : floor_just_reached (seq (trigger s)) = true) by reflexivity.
  assert (Hd : destination (car (trigger s)) = fc * 4) by exact Ed.
  revert Hf Hd. generalize (trigger s). clear s Ha Hfl Ed. intros s Hf Hd.
  destruct (drop_off_effect s) as (Ec & _ & _ & _ & _ & _ & _ & Eq).
  assert (Hf' : floor_just_reached (seq (drop_off s)) = true).
  { destruct Eq as [-> | ->]; [exact Hf | reflexivity]. }
  rewrite <- Ec in Hd. clear Ec Eq Hf.
  revert Hf' Hd. generalize (drop_off s). clear s. intros s Hf Hd.
  destruct (board_effect s) as (-> & -> & _). split; assumption.
Qed.

(** The arrival block in a pass of the loop that no interrupt cuts: when
    the pass enters the guarded block and, once [handle_inputs] has run,
    a traveller is active with the car at the traveller's floor,
    [destination] becomes four times the floor the switches select in
    that same pass and the trigger of the sequencer is raised. *)
Theorem arrival_reads_switches (i : Inputs) (s : State) :
  let fc := floor_choice_of (in_pinc i) in
  let s1 := move_elevator i s in
  let s2 := handle_inputs fc (in_button i) (in_serial i) s1 in
  floor_just_reached (seq s) = false ->
  traveller_active (trav s2) = true ->
  traveller_floor (trav s2) = current_position (car s2) ->
  destination (car (main_iteration i s)) = 4 * fc
  /\ 0 <= fc <= 3
  /\ floor_just_reached (seq (main_iteration i s)) = true.
Proof.
  cbv zeta. intros Hf Ha Hfl.
  unfold main_iteration.
  destruct (move_elevator_effect i s) as (_ & Eq & _).
  rewrite Eq, Hf. cbn [negb].
  destruct (arrival_block (floor_choice_of (in_pinc i)) _ Ha Hfl) as (Hd & Hf').
  split; [rewrite Hd; apply Z.mul_comm|].
  split; [apply floor_choice_of_range | exact Hf'].
Qed.

Lemma arrival_reads_switches_witness :
  floor_just_reached (seq (st (boot 8 0))) = false
  /\ traveller_active
       (trav (handle_inputs (floor_choice_of 96) 0 None
                (move_elevator (press 0 96) (st (boot 8 0))))) = true
  /\ traveller_floor
       (trav (handle_inputs (floor_choice_of 96) 0 None
                (move_elevator (press 0 96) (st (boot 8 0)))))
     = current_position
         (car (handle_inputs (floor_choice_of 96) 0 None
                 (move_elevator (press 0 96) (st (boot 8 0)))))
  /\ destination (car (main_iteration (press 0 96) (st (boot 8 0)))) = 12.
Proof.
  split; [reflexivity|]. split; [reflexivity|]. split; [reflexivity|].
  exact (proj1 (arrival_reads_switches (press 0 96) (st (boot 8 0))
                  eq_refl eq_refl eq_refl)).
Defined.

(** C7. The destination asked for is not the one served. A traveller is
    placed on floor 2 while the switches select floor 0, and the marker
    is drawn in the colour of floor 0. The switches are moved to floor 3
    before the car arrives. At the arrival, with the traveller active
    and not yet on board, the trigger is raised but [destination]
    becomes 12, the coordinate of floor 3: the program keeps no record
    of the floor chosen when the request was accepted and reads the
    switches again. The traveller boards, is carried up and is dropped
    off on floor 3. *)
Lemma traveller_carried_to_switch_floor :
  let m1 := pass (press 2 0) (boot 8 0) in
  let m2 := play (repeat (Pass quiet) 7) m1 in
  let m3 := pass (switches 96) m2 in
  let m4 := play ([Interrupts 801; Pass (switches 96); Interrupts 1599]
                  ++ repeat (Pass (switches 96)) 3) m3 in
  let m5 := pass (switches 96) m4 in
  (accepted (st (boot 8 0)) (st m1)
   /\ floor_choice_of (in_pinc (press 2 0)) = 0
   /\ hd_error (matrix (st m1)) = Some (5, 9, TRAVELLER_TO_0)
   /\ traveller_floor (trav (st m1)) = 8)
  /\ (traveller_active (trav (st m2)) = true
      /\ traveller_onboard (trav (st m2)) = false
      /\ traveller_floor (trav (st m2)) = 8
      /\ current_position (car (st m2)) = 7)
  /\ (traveller_active (trav (st m3)) = true
      /\ traveller_onboard (trav (st m3)) = false
      /\ current_position (car (st m3)) = traveller_floor (trav (st m3))
      /\ floor_just_reached (seq (st m3)) = true
      /\ destination (car (st m3)) = 12
      /\ destination (car (st m3)) <> 4 * 0)
  /\ (traveller_onboard (trav (st m4)) = true
      /\ current_position (car (st m4)) = 11
      /\ destination (car (st m4)) = 12)
  /\ (current_position (car (st m5)) = 12
      /\ traveller_active (trav (st m5)) = false
      /\ traveller_onboard (trav (st m5)) = false
      /\ floor_just_reached (seq (st m5)) = true).
Proof.
  vm_compute. repeat split; try reflexivity; discriminate.
Qed.

(** ** The travel counters *)

(** Only [handle_displays] changes the sticky floor and the counters. *)
Lemma step_counters (e : Event) (m : Machine) :
  e = Tick \/ pc m <> PcDisplays ->
  current_floor (car (st (step e m))) = current_floor (car (st m))
  /\ floors_w_traveller (trav (st (step e m))) = floors_w_traveller (trav (st m))
  /\ floors_no_traveller (trav (st (step e m))) = floors_no_traveller (trav (st m)).
Proof.
  intros H. destruct e as [|i]; cbn [step]; reduce.
  - destruct (ISR_frame (st m)) as (-> & -> & _). auto.
  - destruct H as [H|H]; [discriminate|].
    destruct (pc m); reduce.
    + destruct (move_elevator_effect i (st m)) as (-> & _ & _ & _ & _ & _ & -> & _). auto.
    + destruct (negb _); auto.
    + destruct (handle_inputs_outcome (floor_choice m) (in_button i) (in_serial i) (st m))
        as [-> | (j & _ & _ & _ & _ & ->)]; auto.
    + destruct (pickup_destination_effect (floor_choice m) (st m))
        as (-> & _ & _ & _ & _ & _ & _ & -> & _). auto.
    + congruence.
    + rewrite arrival_trigger_effect. destruct (_ && _); auto.
    + destruct (drop_off_effect (st m)) as (-> & _ & _ & _ & _ & -> & -> & _). auto.
    + destruct (board_effect (st m)) as (-> & _ & _ & _ & _ & _ & -> & ->). auto.
Qed.

Lemma long_run_counters :
  floors_no_traveller (trav (st after_long_run)) = 255
  /\ traveller_onboard (trav (st after_long_run)) = false
  /\ current_floor (car (st after_long_run)) = 0
  /\ current_floor (car (st (pass quiet after_long_run))) = 4
  /\ floors_no_traveller (trav (st (pass quiet after_long_run))) = 0.
Proof. vm_compute. repeat split; reflexivity. Qed.

(** C8. A counter goes down. After 85 journeys between floor 0 and
    floor 3 the counter of the floors moved without a traveller stands
    at 255; a 86th traveller is placed on floor 3, and when the empty
    car reaches floor 1 the sticky floor changes and the counter, a
    [uint8_t], falls to 0 instead of counting the 256th floor. *)
Lemma counter_wraps_after_255_floors :
  reachable after_long_run
  /\ floors_no_traveller (trav (st after_long_run)) = 255
  /\ traveller_onboard (trav (st after_long_run)) = false
  /\ current_floor (car (st after_long_run)) = 0
  /\ current_floor (car (st (pass quiet after_long_run))) = 4
  /\ floors_no_traveller (trav (st (pass quiet after_long_run))) = 0
  /\ floors_no_traveller (trav (st (pass quiet after_long_run)))
     < floors_no_traveller (trav (st after_long_run)).
Proof.
  destruct long_run_counters as (H1 & H2 & H3 & H4 & H5).
  split; [apply reachable_play, reach_boot|].
  rewrite H1, H2, H3, H4, H5. repeat split; reflexivity.
Qed.

(** ** Requests and the animation *)

(** Only [handle_inputs] creates a traveller. *)
Lemma step_creates_traveller (e : Event) (m : Machine) :
  accepted (st m) (st (step e m)) -> exists i, e = Main i /\ pc m = PcInputs.
Proof.
  intros [Ha Ha']. destruct e as [|i].
  - exfalso. cbn [step] in Ha'. reduce.
    destruct (ISR_frame (st m)) as (_ & Et & _). rewrite Et in Ha'. congruence.
  - exists i. split; [reflexivity|].
    destruct (pc m) eqn:Hpc; try reflexivity; exfalso;
      cbn [step] in Ha'; rewrite Hpc in Ha'; reduce.
    + destruct (move_elevator_effect i (st m)) as (Et & _). rewrite Et in Ha'. congruence.
    + destruct (negb _) in Ha'; reduce; congruence.
    + destruct (pickup_destination_effect (floor_choice m) (st m)) as (Et & _).
      rewrite Et in Ha'. congruence.
    + destruct (handle_displays_effect (st m))
        as (_ & _ & _ & _ & _ & _ & _ & Et & _). congruence.
    + rewrite arrival_trigger_effect in Ha'.
      destruct (_ && _) in Ha'; unfold trigger in Ha'; reduce; congruence.
    + unfold drop_off in Ha'.
      destruct (_ && _) in Ha'; reduce; congruence.
    + destruct (board_effect (st m)) as (_ & _ & _ & _ & _ & Et & _). congruence.
Qed.

(** When a traveller is created the sequencer is at rest. *)
Lemma accepted_at_rest (e : Event) (m : Machine) :
  reachable m -> accepted (st m) (st (step e m)) ->
  pc m = PcInputs
  /\ floor_just_reached (seq (st m)) = false
  /\ animation_phase (seq (st m)) = IDLE
  /\ animation_timer (seq (st m)) = 0
  /\ elevator_door_open (seq (st m)) = false.
Proof.
  intros Hr Hacc. apply reachable_invariant in Hr.
  destruct Hr as [_ Hq _ Hg].
  destruct (step_creates_traveller e m Hacc) as (i & _ & Hpc).
  rewrite Hpc in Hg. specialize (Hg eq_refl).
  destruct (idle_when_clear _ Hq Hg) as (Hp & Ht).
  repeat split; auto.
  destruct (elevator_door_open (seq (st m))) eqn:Hd; [|reflexivity].
  apply (door_span _ Hq) in Hd. unfold IDLE, OPENING, CLOSING in *. lia.
Qed.

(** C9, as the code has it. The drop-off does clear [traveller_onboard]
    and [traveller_active] in the very statement that raises the
    trigger; but a traveller is only ever created by [handle_inputs],
    which the loop calls under [if (!floor_just_reached)]: at that
    moment the trigger is clear, the phase is IDLE with the counter at 0
    and the door is closed. No request is accepted while an animation
    is playing. *)
Theorem no_request_during_animation (m : Machine) (e : Event) :
  reachable m ->
  (accepted (st m) (st (step e m)) ->
     pc m = PcInputs
     /\ floor_just_reached (seq (st m)) = false
     /\ animation_phase (seq (st m)) = IDLE
     /\ animation_timer (seq (st m)) = 0
     /\ elevator_door_open (seq (st m)) = false)
  /\ (forall i, e = Main i -> pc m = PcDropoff ->
      traveller_onboard (trav (st m)) = true ->
      current_position (car (st m)) = destination (car (st m)) ->
      floor_just_reached (seq (st (step e m))) = true
      /\ traveller_onboard (trav (st (step e m))) = false
      /\ traveller_active (trav (st (step e m))) = false).
Proof.
  intros Hr. split.
  - apply accepted_at_rest, Hr.
  - intros i -> Hpc Ho Hp. cbn [step]. rewrite Hpc. reduce.
    unfold drop_off. rewrite Ho, Hp, Z.eqb_refl. cbn [andb]. reduce.
    repeat split; reflexivity.
Qed.

Lemma no_request_during_animation_witness :
  reachable first_call
  /\ accepted (st first_call) (st (step (Main (press 2 0)) first_call))
  /\ floor_just_reached (seq (st first_call)) = false
  /\ animation_phase (seq (st first_call)) = IDLE.
Proof.
  assert (Hr : reachable first_call) by (repeat apply reach_step; apply reach_boot).
  assert (Ha : accepted (st first_call) (st (step (Main (press 2 0)) first_call))).
  { split; reflexivity. }
  split; [exact Hr|]. split; [exact Ha|].
  destruct (proj1 (no_request_during_animation first_call (Main (press 2 0)) Hr) Ha)
    as (_ & Hf & Hp & _).
  split; assumption.
Defined.

(** The claim C9 as the specification states it has no execution: no
    reachable configuration accepts a request while the trigger is
    pending or the phase is not IDLE. *)
Lemma request_during_animation_counterexample :
  ~ (exists m e,
       reachable m
       /\ accepted (st m) (st (step e m))
       /\ (floor_just_reached (seq (st m)) = true
           \/ animation_phase (seq (st m)) <> IDLE)).
Proof.
  intros (m & e & Hr & Hacc & Hplay).
  destruct (accepted_at_rest e m Hr Hacc) as (_ & Hf & Hp & _).
  destruct Hplay as [H|H]; [congruence | contradiction].
Qed.

(** * Further properties of the code *)

(** ** More effects of the interrupt handler *)

Lemma ISR_animation_buttons (s : State) :
  digit (seq (ISR_animation s)) = digit (seq s)
  /\ button_just_pushed (seq (ISR_animation s)) = button_just_pushed (seq s)
  /\ button_timer (seq (ISR_animation s)) = button_timer (seq s)
  /\ PORTA (io (ISR_animation s)) = PORTA (io s).
Proof.
  unfold ISR_animation.
  destruct (animation_phase (seq s)) as [|[[]|[]|]|]; frame; auto.
Qed.

(** The button feedback timer over one interrupt. *)
Lemma ISR_button_timer (s : State) :
  let t1 := if button_just_pushed (seq s)
            then uint8 (button_timer (seq s) + 1) else button_timer (seq s) in
  button_timer (seq (ISR s)) = (if 100 <=? t1 then 0 else t1)
  /\ button_just_pushed (seq (ISR s))
     = (if 100 <=? t1 then false else button_just_pushed (seq s))
  /\ digit (seq (ISR s)) = uint8 (1 - digit (seq s)).
Proof.
  unfold ISR.
  destruct (ISR_animation_buttons (ISR_button (ISR_timers (ISR_seven_seg s))))
    as (-> & -> & -> & _).
  unfold ISR_button, ISR_timers, ISR_seven_seg.
  destruct (handle_seven_seg_frame (digit (seq s)) s) as (_ & _ & Hq & _ & _).
  revert Hq. generalize (handle_seven_seg (digit (seq s)) s).
  intros s1 Hq. rewrite <- Hq. clear Hq s. cbv zeta. reduce.
  destruct (floor_just_reached (seq s1)); reduce;
    destruct (button_just_pushed (seq s1)) eqn:Hb; reduce; rewrite ?Hb; reduce;
    destruct (_ =? 1); reduce;
    destruct (100 <=? _) eqn:Hc; reduce; rewrite ?Hc, ?Hb;
    repeat split; reflexivity.
Qed.

(** An interrupt while no trigger is pending leaves the animation at
    rest. *)
Lemma ISR_at_rest (s : State) :
  seq_ok (seq s) -> floor_just_reached (seq s) = false ->
  floor_just_reached (seq (ISR s)) = false
  /\ animation_phase (seq (ISR s)) = IDLE
  /\ animation_timer (seq (ISR s)) = 0
  /\ elevator_door_open (seq (ISR s)) = elevator_door_open (seq s).
Proof.
  intros Hq Hf. destruct (idle_when_clear _ Hq Hf) as (Hp & Ht).
  unfold ISR. fold (ISR_prefix s).
  destruct (ISR_prefix_animation s) as (Hf1 & Hp1 & Hd1 & Ht1).
  rewrite Hf in Ht1.
  assert (Hr : 0 <= animation_timer (seq (ISR_prefix s)) <= 800) by lia.
  destruct (ISR_animation_cases (ISR_prefix s) Hr) as (C0 & _ & _).
  destruct C0 as (Ef & Ed & Hlt & _); [congruence|].
  destruct Hlt as (E1 & E2); [lia|].
  repeat split; congruence.
Qed.

(** ** The door LEDs and the display selector on port C *)

(** Evaluates the bits of the constant masks. *)
Ltac mask_bits :=
  repeat match goal with
         | |- context [Z.testbit ?c ?n] =>
             let v := eval vm_compute in (Z.testbit c n) in
             match v with
             | true => change (Z.testbit c n) with true
             | false => change (Z.testbit c n) with false
             end
         end.

Ltac port_bits :=
  unfold leds_show, PC0, PC1, PC2, PC3, PC4 in *;
  rewrite ?Z.land_spec, ?Z.lor_spec, ?Z.lnot_spec by lia;
  mask_bits;
  rewrite ?andb_true_r, ?orb_false_r, ?orb_true_r, ?andb_false_r.

Lemma leds_show_select (b : bool) (p : Z) :
  leds_show b p ->
  leds_show b (Z.land p (Z.lnot (Z.shiftl 1 4)))
  /\ leds_show b (Z.lor p (Z.shiftl 1 4)).
Proof.
  intros H. split; port_bits; cbn [negb]; rewrite ?andb_true_r, ?orb_false_r; exact H.
Qed.

Lemma leds_show_open (p : Z) :
  leds_show true
    (Z.land (Z.lor p (Z.lor (Z.shiftl 1 PC0) (Z.shiftl 1 PC3)))
            (Z.lnot (Z.lor (Z.shiftl 1 PC1) (Z.shiftl 1 PC2)))).
Proof. port_bits. cbn [negb]. rewrite ?andb_true_r, ?andb_false_r. auto. Qed.

Lemma leds_show_closed (p : Z) :
  leds_show false
    (Z.land (Z.lor p (Z.lor (Z.shiftl 1 PC1) (Z.shiftl 1 PC2)))
            (Z.lnot (Z.lor (Z.shiftl 1 PC0) (Z.shiftl 1 PC3)))).
Proof. port_bits. cbn [negb]. rewrite ?andb_true_r, ?andb_false_r. auto. Qed.

Lemma handle_seven_seg_portc (d : Z) (s : State) :
  PORTC (io (handle_seven_seg d s))
  = if d =? 0 then Z.land (PORTC (io s)) (Z.lnot (Z.shiftl 1 4))
    else Z.lor (PORTC (io s)) (Z.shiftl 1 4).
Proof. unfold handle_seven_seg. frame. Qed.

Lemma ISR_prefix_portc (s : State) :
  PORTC (io (ISR_prefix s)) = PORTC (io (handle_seven_seg (digit (seq s)) s)).
Proof.
  unfold ISR_prefix, ISR_button, ISR_timers, ISR_seven_seg.
  generalize (handle_seven_seg (digit (seq s)) s). intros s1. frame.
Qed.

Lemma ISR_animation_leds (s : State) :
  leds_show (elevator_door_open (seq s)) (PORTC (io s)) ->
  leds_show (elevator_door_open (seq (ISR_animation s))) (PORTC (io (ISR_animation s))).
Proof.
  intros H. unfold ISR_animation.
  destruct (animation_phase (seq s)) as [|[[]|[]|]|]; try exact H;
    repeat (reduce; try split_if); try exact H;
    first [apply leds_show_open | apply leds_show_closed].
Qed.

Lemma ISR_leds (s : State) :
  leds_show (elevator_door_open (seq s)) (PORTC (io s)) ->
  leds_show (elevator_door_open (seq (ISR s))) (PORTC (io (ISR s))).
Proof.
  intros H. unfold ISR. fold (ISR_prefix s). apply ISR_animation_leds.
  destruct (ISR_prefix_animation s) as (_ & _ & -> & _).
  rewrite ISR_prefix_portc, handle_seven_seg_portc.
  destruct (digit (seq s) =? 0); apply leds_show_select, H.
Qed.

(** ** The traveller, the button feedback timer and the sprite *)

Lemma move_elevator_sprite (i : Inputs) (s : State) :
  old_position (car (move_elevator i s))
  = if move_due i s then uint8 (current_position (car (move_elevator i s)))
    else old_position (car s).
Proof.
  unfold move_elevator, move_due.
  destruct (_ && _); cbn zeta; [|reflexivity].
  match goal with
  | |- context [draw_elevator ?x] =>
      destruct (draw_elevator_effect x) as (Hc & _);
      revert Hc; generalize (draw_elevator x)
  end.
  intros s1 Hc. reduce. rewrite Hc. reflexivity.
Qed.

Lemma handle_displays_sprite (s : State) :
  old_position (car (handle_displays s)) = old_position (car s).
Proof.
  unfold handle_displays, display_information. cbv zeta. reduce.
  repeat (split_if; reduce); reflexivity.
Qed.

Lemma ISR_lifecycle (s : State) :
  seq_ok (seq s) -> lifecycle_ok s -> lifecycle_ok (ISR s).
Proof.
  intros Hq [Hoa Hbr Hb0 Hbw Hdg Hled Hsp Hcf].
  destruct (ISR_frame s) as (Ec & Et & _ & _).
  destruct (ISR_button_timer s) as (Ebt & Ebj & Edg).
  constructor; rewrite ?Ec, ?Et; try assumption.
  - rewrite Ebt. destruct (button_just_pushed (seq s)).
    + rewrite uint8_small by lia. destruct (Z.leb_spec 100 (button_timer (seq s) + 1)); lia.
    + destruct (Z.leb_spec 100 (button_timer (seq s))); lia.
  - rewrite Ebt, Ebj. destruct (button_just_pushed (seq s)) eqn:Hb.
    + destruct (100 <=? _); [reflexivity | discriminate].
    + intros _. rewrite (Hb0 eq_refl). reflexivity.
  - rewrite Ebt, Ebj. destruct (button_just_pushed (seq s)) eqn:Hb.
    2:{ destruct (100 <=? _); discriminate. }
    rewrite uint8_small by lia.
    destruct (Z.leb_spec 100 (button_timer (seq s) + 1)); [discriminate|].
    intros _. destruct (Hbw eq_refl) as (Ha & Ho & Hp & Ht).
    split; [assumption|]. split; [assumption|].
    destruct (floor_just_reached (seq s)) eqn:Hf.
    + destruct (ISR_counting s Hq Hf) as ((E1 & E2 & _) & _); [lia|].
      rewrite E1, E2. split; [assumption | lia].
    + destruct (ISR_at_rest s Hq Hf) as (_ & E1 & E2 & _).
      rewrite E1, E2. split; [reflexivity | lia].
  - rewrite Edg. destruct Hdg as [-> | ->]; [right | left]; reflexivity.
  - apply ISR_leds, Hled.
Qed.

Lemma accept_request_lifecycle (i fc : Z) (s : State) :
  seq_ok (seq s) -> floor_just_reached (seq s) = false ->
  traveller_active (trav s) = false ->
  lifecycle_ok s -> lifecycle_ok (accept_request i fc s).
Proof.
  intros Hq Hf Ha [Hoa Hbr Hb0 Hbw Hdg Hled Hsp Hcf].
  destruct (idle_when_clear _ Hq Hf) as (Hp & Ht).
  assert (Hb : button_just_pushed (seq s) = false).
  { destruct (button_just_pushed (seq s)); [|reflexivity].
    destruct (Hbw eq_refl) as (Ha' & _). congruence. }
  assert (Ho : traveller_onboard (trav s) = false).
  { destruct (traveller_onboard (trav s)); [|reflexivity].
    rewrite (Hoa eq_refl) in Ha. discriminate. }
  unfold accept_request. constructor; reduce; auto; try discriminate.
  intros _. rewrite (Hb0 Hb). repeat split; auto. lia.
Qed.

Lemma main_step_lifecycle (i : Inputs) (m : Machine) :
  invariant m -> lifecycle_ok (st m) -> lifecycle_ok (st (step (Main i) m)).
Proof.
  intros [Hc Hq Hfc Hg] L. pose proof L as [Hoa Hbr Hb0 Hbw Hdg Hled Hsp Hcf].
  cbn [step]. destruct (pc m) eqn:Hpc; cbn [before_trigger] in Hg; reduce.
  - (* the movement block *)
    destruct (move_elevator_effect i (st m)) as (Et & Eq & Eio & _ & _ & _ & Ecf & Ep).
    pose proof (move_elevator_sprite i (st m)) as Eo.
    pose proof (position_range _ (move_elevator_car_ok i (st m) Hc)) as Hr.
    constructor; rewrite ?Et, ?Eq, ?Eio, ?Ecf; try assumption.
    rewrite Eo. destruct (move_due i (st m)).
    + apply uint8_small. lia.
    + rewrite Ep. exact Hsp.
  - destruct (negb _); reduce; exact L.
  - destruct (handle_inputs_outcome (floor_choice m) (in_button i) (in_serial i) (st m))
      as [-> | (j & _ & _ & _ & Ha & ->)]; [exact L|].
    apply accept_request_lifecycle; auto.
  - unfold pickup_destination. destruct (_ && _); [|exact L].
    constructor; reduce; assumption.
  - destruct (handle_displays_effect (st m))
      as (Eq & Eio & _ & Ep & _ & Ecf & _ & Ea & Eo & _).
    pose proof (handle_displays_sprite (st m)) as Esp.
    constructor; rewrite ?Eq, ?Eio, ?Ea, ?Eo, ?Ep, ?Esp, ?Ecf; try assumption.
    unfold sticky. destruct (at_a_floor (current_position (car (st m)))) eqn:Haf;
      [|assumption].
    unfold at_a_floor in Haf. unfold floor_coordinate.
    repeat (apply orb_true_iff in Haf; destruct Haf as [Haf | Haf]);
      apply Z.eqb_eq in Haf; auto.
  - rewrite arrival_trigger_effect. destruct (_ && _); [|exact L].
    unfold trigger. constructor; reduce; assumption.
  - unfold drop_off.
    destruct (traveller_onboard (trav (st m))) eqn:Ho; cbn [andb]; [|exact L].
    destruct (_ =? _); [|exact L].
    constructor; reduce; try assumption.
    + discriminate.
    + intros Hb. destruct (Hbw Hb) as (_ & Ho' & _). congruence.
  - unfold board.
    destruct (traveller_active (trav (st m))) eqn:Ha; cbn [andb]; [|exact L].
    destruct (_ =? _); cbn [andb]; [|exact L].
    destruct (elevator_door_open (seq (st m))) eqn:Hd; [|exact L].
    constructor; reduce; try assumption.
    + intros _. exact Ha.
    + intros Hb. destruct (Hbw Hb) as (_ & _ & Hp & _).
      apply (door_span _ Hq) in Hd. unfold IDLE, OPENING, CLOSING in *. lia.
    + rewrite Hd. exact Hled.
Qed.

Lemma boot_lifecycle (width t0 : Z) : lifecycle_ok (st (boot width t0)).
Proof.
  destruct (boot_state width t0) as (Ec & Et & Eq & Eio).
  constructor; rewrite ?Ec, ?Et, ?Eq, ?Eio; reduce; auto; try lia; try discriminate.
  - unfold leds_show. repeat split; reflexivity.
  - unfold floor_coordinate, FLOOR_0. auto.
Qed.

Lemma reachable_lifecycle (m : Machine) : reachable m -> lifecycle_ok (st m).
Proof.
  induction 1 as [width t0 | e m Hr IH].
  - apply boot_lifecycle.
  - pose proof (reachable_invariant m Hr) as Hinv. destruct e as [|i].
    + cbn [step]. reduce. apply ISR_lifecycle; [apply Hinv | exact IH].
    + apply main_step_lifecycle; assumption.
Qed.

Lemma st_interrupts (k : nat) (m : Machine) :
  st (interrupts k m) = Nat.iter k ISR (st m).
Proof.
  unfold interrupts. induction k as [|k IH].
  - reflexivity.
  - change (Nat.iter (S k) (step Tick) m) with (step Tick (Nat.iter k (step Tick) m)).
    change (Nat.iter (S k) ISR (st m)) with (ISR (Nat.iter k ISR (st m))).
    rewrite <- IH. reflexivity.
Qed.

(** X1. In every reachable configuration a traveller who is on board is
    active, a traveller who is not active is not on board, and the
    traveller's floor is one of the four floors. *)
Theorem onboard_implies_active (m : Machine) :
  reachable m ->
  (traveller_onboard (trav (st m)) = true -> traveller_active (trav (st m)) = true)
  /\ (traveller_active (trav (st m)) = false -> traveller_onboard (trav (st m)) = false)
  /\ floor_coordinate (traveller_floor (trav (st m))).
Proof.
  intros Hr. pose proof (reachable_lifecycle m Hr) as L.
  pose proof (reachable_invariant m Hr) as [Hc _ _ _].
  split; [apply L|]. split; [|apply Hc].
  intros Ha. destruct (traveller_onboard (trav (st m))) eqn:Ho; [|reflexivity].
  rewrite (onboard_active _ L Ho) in Ha. discriminate.
Qed.

Lemma onboard_implies_active_witness :
  reachable boarded
  /\ traveller_onboard (trav (st boarded)) = true
  /\ traveller_active (trav (st boarded)) = true.
Proof.
  assert (Hr : reachable boarded) by (apply reachable_play, reach_boot).
  assert (Ho : traveller_onboard (trav (st boarded)) = true)
    by (vm_compute; reflexivity).
  split; [exact Hr|]. split; [exact Ho|].
  exact (proj1 (onboard_implies_active boarded Hr) Ho).
Defined.

(** X2. In every reachable configuration the button feedback timer is
    below 100 and is 0 when it is not armed; while it is armed a
    traveller is waiting and the door sequencer is still in IDLE, so the
    feedback tone and the door tone never overlap; and a request is only
    ever accepted with the timer at rest, so the timer is never armed
    again while it runs. *)
Theorem button_timer_armed_at_rest (m : Machine) (e : Event) :
  reachable m ->
  0 <= button_timer (seq (st m)) < 100
  /\ (button_just_pushed (seq (st m)) = false -> button_timer (seq (st m)) = 0)
  /\ (button_just_pushed (seq (st m)) = true ->
      traveller_active (trav (st m)) = true
      /\ traveller_onboard (trav (st m)) = false
      /\ animation_phase (seq (st m)) = IDLE
      /\ elevator_door_open (seq (st m)) = false)
  /\ (accepted (st m) (st (step e m)) ->
      button_just_pushed (seq (st m)) = false
      /\ button_timer (seq (st m)) = 0
      /\ button_just_pushed (seq (st (step e m))) = true).
Proof.
  intros Hr. pose proof (reachable_lifecycle m Hr) as L.
  pose proof (reachable_invariant m Hr) as [_ Hq _ _].
  split; [apply L|]. split; [apply L|]. split.
  - intros Hb. destruct (button_while_waiting _ L Hb) as (Ha & Ho & Hp & _).
    repeat split; auto.
    destruct (elevator_door_open (seq (st m))) eqn:Hd; [|reflexivity].
    apply (door_span _ Hq) in Hd. unfold IDLE, OPENING, CLOSING in *. lia.
  - intros Hacc. pose proof Hacc as [Ha Ha'].
    assert (Hb : button_just_pushed (seq (st m)) = false).
    { destruct (button_just_pushed (seq (st m))) eqn:Hb; [|reflexivity].
      destruct (button_while_waiting _ L Hb) as (Ha2 & _). congruence. }
    split; [exact Hb|]. split; [apply L, Hb|].
    destruct (step_creates_traveller e m Hacc) as (i & -> & Hpc).
    cbn [step] in *. rewrite Hpc in *. reduce.
    destruct (handle_inputs_outcome (floor_choice m) (in_button i) (in_serial i) (st m))
      as [E | (j & _ & _ & _ & _ & E)]; rewrite E in *; [congruence | reflexivity].
Qed.

Lemma button_timer_armed_at_rest_witness :
  reachable first_call
  /\ accepted (st first_call) (st (step (Main (press 2 0)) first_call))
  /\ button_timer (seq (st first_call)) = 0
  /\ button_just_pushed (seq (st (step (Main (press 2 0)) first_call))) = true.
Proof.
  assert (Hr : reachable first_call) by (repeat apply reach_step; apply reach_boot).
  assert (Ha : accepted (st first_call) (st (step (Main (press 2 0)) first_call))).
  { split; reflexivity. }
  split; [exact Hr|]. split; [exact Ha|].
  destruct (proj2 (proj2 (proj2
              (button_timer_armed_at_rest first_call (Main (press 2 0)) Hr))) Ha)
    as (_ & H1 & H2).
  split; assumption.
Defined.

(** ** The button feedback tone *)

Lemma ISR_animation_idle_sound (s : State) :
  animation_phase (seq s) = IDLE -> sound (ISR_animation s) = sound s.
Proof.
  intros Hp. unfold ISR_animation, sound. rewrite Hp. unfold IDLE.
  repeat (reduce; try split_if); reflexivity.
Qed.

Lemma ISR_prefix_button_sound (s : State) :
  button_just_pushed (seq s) = true ->
  0 <= button_timer (seq s) < 100 ->
  sound (ISR_prefix s)
  = if button_timer (seq s) =? 0 then (Z.lor (DDRD (io s)) 64, 41, 20)
    else if button_timer (seq s) =? 99 then (Z.land (DDRD (io s)) (Z.lnot 64), 0, 0)
         else sound s.
Proof.
  intros Hb Ht. unfold ISR_prefix, ISR_button, ISR_timers, ISR_seven_seg.
  pose proof (handle_seven_seg_sound (digit (seq s)) s) as Hs.
  destruct (handle_seven_seg_frame (digit (seq s)) s) as (_ & _ & Hq & _ & _).
  set (s1 := handle_seven_seg (digit (seq s)) s) in *.
  unfold sound in *. injection Hs as H1 H2 H3. rewrite <- H1, <- H2, <- H3.
  rewrite <- Hq in Hb, Ht. rewrite <- Hq. clear Hq H1 H2 H3.
  clearbody s1. clear s. rename s1 into s. reduce.
  destruct (floor_just_reached (seq s)); reduce; rewrite Hb; reduce;
    rewrite ?(uint8_small (button_timer (seq s) + 1)) by lia;
    destruct (Z.eqb_spec (button_timer (seq s) + 1) 1) as [E1|E1]; reduce;
    rewrite ?(uint8_small (button_timer (seq s) + 1)) by lia;
    destruct (Z.leb_spec 100 (button_timer (seq s) + 1)) as [E3|E3]; reduce;
    destruct (Z.eqb_spec (button_timer (seq s)) 0) as [E0|E0]; try lia;
    destruct (Z.eqb_spec (button_timer (seq s)) 99) as [E2|E2]; try lia;
    reflexivity.
Qed.

(** X3. While the button feedback timer is armed, in every reachable
    configuration: the interrupt that takes the timer from 0 to 1 turns
    the buzzer on at 3 kHz (compare value 41, half of it for the duty
    cycle); the interrupts that take it from 2 to 99 leave the buzzer
    alone; and the interrupt that takes it to 100 turns the buzzer off,
    puts the timer back to 0 and disarms it. *)
Theorem button_feedback_tone (m : Machine) :
  reachable m ->
  button_just_pushed (seq (st m)) = true ->
  let s := st m in
  let t := button_timer (seq s) in
  (t = 0 ->
     OCR2A (io (ISR s)) = 41 /\ OCR2B (io (ISR s)) = 20
     /\ Z.testbit (DDRD (io (ISR s))) PD6 = true
     /\ button_timer (seq (ISR s)) = 1 /\ button_just_pushed (seq (ISR s)) = true)
  /\ (0 < t < 99 ->
     sound (ISR s) = sound s
     /\ button_timer (seq (ISR s)) = t + 1 /\ button_just_pushed (seq (ISR s)) = true)
  /\ (t = 99 ->
     OCR2A (io (ISR s)) = 0 /\ OCR2B (io (ISR s)) = 0
     /\ Z.testbit (DDRD (io (ISR s))) PD6 = false
     /\ button_timer (seq (ISR s)) = 0 /\ button_just_pushed (seq (ISR s)) = false).
Proof.
  intros Hr Hb s t. pose proof (reachable_lifecycle m Hr) as L. fold s in L, Hb.
  pose proof (button_timer_range _ L) as Ht. fold t in Ht.
  destruct (button_while_waiting _ L Hb) as (_ & _ & Hp & _).
  destruct (ISR_button_timer s) as (Ebt & Ebj & _). rewrite Hb in Ebt, Ebj.
  fold t in Ebt, Ebj. rewrite (uint8_small (t + 1)) in Ebt, Ebj by lia.
  assert (Es : sound (ISR s)
               = if t =? 0 then (Z.lor (DDRD (io s)) 64, 41, 20)
                 else if t =? 99 then (Z.land (DDRD (io s)) (Z.lnot 64), 0, 0)
                      else sound s).
  { unfold ISR. fold (ISR_prefix s). rewrite ISR_animation_idle_sound.
    - apply ISR_prefix_button_sound; assumption.
    - destruct (ISR_prefix_animation s) as (_ & -> & _). exact Hp. }
  split; [|split].
  - intros E. rewrite E in *. cbn [Z.eqb] in Es. unfold sound in Es.
    injection Es as E1 E2 E3. rewrite E1, E2, E3, Ebt, Ebj.
    repeat split; try reflexivity. rewrite Z.lor_spec. apply orb_true_r.
  - intros E. destruct (Z.eqb_spec t 0); [lia|]. destruct (Z.eqb_spec t 99); [lia|].
    destruct (Z.leb_spec 100 (t + 1)); [lia|]. auto.
  - intros E. rewrite E in *. cbn [Z.eqb Pos.eqb] in Es. unfold sound in Es.
    injection Es as E1 E2 E3. rewrite E1, E2, E3, Ebt, Ebj.
    repeat split; try reflexivity. rewrite Z.land_spec. apply andb_false_r.
Qed.

Lemma button_feedback_tone_witness :
  reachable just_placed
  /\ button_just_pushed (seq (st just_placed)) = true
  /\ button_timer (seq (st just_placed)) = 0
  /\ OCR2A (io (ISR (st just_placed))) = 41.
Proof.
  assert (Hr : reachable just_placed) by (repeat apply reach_step; apply reach_boot).
  assert (Hb : button_just_pushed (seq (st just_placed)) = true) by reflexivity.
  assert (Ht : button_timer (seq (st just_placed)) = 0) by reflexivity.
  split; [exact Hr|]. split; [exact Hb|]. split; [exact Ht|].
  exact (proj1 (proj1 (button_feedback_tone just_placed Hr Hb) Ht)).
Defined.

(** ** The whole door animation *)

(** Where the sequencer stands [k] interrupts after a trigger raised at
    rest, up to the end of the animation. *)
Lemma cycle_progress (s : State) (k : nat) :
  seq_ok (seq s) -> floor_just_reached (seq s) = true ->
  animation_phase (seq s) = IDLE -> animation_timer (seq s) = 0 ->
  Z.of_nat k <= 2400 ->
  let q := seq (Nat.iter k ISR s) in
  seq_ok q
  /\ (Z.of_nat k < 800 ->
      animation_phase q = IDLE /\ animation_timer q = Z.of_nat k
      /\ floor_just_reached q = true)
  /\ (800 <= Z.of_nat k < 1600 ->
      animation_phase q = OPENING /\ animation_timer q = Z.of_nat k - 800
      /\ floor_just_reached q = true)
  /\ (1600 <= Z.of_nat k < 2400 ->
      animation_phase q = CLOSING /\ animation_timer q = Z.of_nat k - 1600
      /\ floor_just_reached q = true)
  /\ (Z.of_nat k = 2400 ->
      animation_phase q = IDLE /\ animation_timer q = 0
      /\ floor_just_reached q = false).
Proof.
  intros Hq Hf Hp Ht. induction k as [|k IH]; intros Hk q; subst q.
  - change (Nat.iter 0 ISR s) with s.
    split; [assumption|]. repeat split; intros; try lia; auto.
  - change (Nat.iter (S k) ISR s) with (ISR (Nat.iter k ISR s)).
    rewrite Nat2Z.inj_succ in *. unfold Z.succ in *.
    destruct IH as (Hqk & H0 & H1 & H2 & _); [lia|].
    set (sk := Nat.iter k ISR s) in *.
    split; [apply ISR_seq_ok, Hqk|].
    assert (Hrange : Z.of_nat k < 800 \/ 800 <= Z.of_nat k < 1600
                     \/ 1600 <= Z.of_nat k < 2400) by lia.
    unfold IDLE, OPENING, CLOSING in *.
    destruct Hrange as [Hr | [Hr | Hr]].
    + destruct (H0 Hr) as (Ep & Et & Ef).
      destruct (ISR_counting sk Hqk Ef) as (Clt & Ceq).
      rewrite Ep, Et in Clt, Ceq. unfold next_phase, IDLE, OPENING, CLOSING in Ceq.
      cbn [Z.eqb Pos.eqb negb] in Ceq.
      destruct (Z.eq_dec (Z.of_nat k) 799) as [E|E].
      * destruct (Ceq E) as (-> & -> & ->). repeat split; intros; lia || reflexivity.
      * destruct Clt as (-> & -> & ->); [lia|]. repeat split; intros; lia || reflexivity.
    + destruct (H1 Hr) as (Ep & Et & Ef).
      destruct (ISR_counting sk Hqk Ef) as (Clt & Ceq).
      rewrite Ep, Et in Clt, Ceq. unfold next_phase, IDLE, OPENING, CLOSING in Ceq.
      cbn [Z.eqb Pos.eqb negb] in Ceq.
      destruct (Z.eq_dec (Z.of_nat k) 1599) as [E|E].
      * destruct Ceq as (-> & -> & ->); [lia|]. repeat split; intros; lia || reflexivity.
      * destruct Clt as (-> & -> & ->); [lia|]. repeat split; intros; lia || reflexivity.
    + destruct (H2 Hr) as (Ep & Et & Ef).
      destruct (ISR_counting sk Hqk Ef) as (Clt & Ceq).
      rewrite Ep, Et in Clt, Ceq. unfold next_phase, IDLE, OPENING, CLOSING in Ceq.
      cbn [Z.eqb Pos.eqb negb] in Ceq.
      destruct (Z.eq_dec (Z.of_nat k) 2399) as [E|E].
      * destruct Ceq as (-> & -> & ->); [lia|]. repeat split; intros; lia || reflexivity.
      * destruct Clt as (-> & -> & ->); [lia|]. repeat split; intros; lia || reflexivity.
Qed.

(** X4. A trigger raised on a reachable configuration at rest starts an
    animation of exactly 2400 interrupts: IDLE for the first 800, OPENING
    for the next 800, CLOSING for the last 800. The trigger stays
    pending, so the car is held, for every count below 2400 and is
    cleared at 2400 with the sequencer back in IDLE at 0; and
    [elevator_door_open] is true from the 801st interrupt to the
    1600th, and at no other count. *)
Theorem door_animation_cycle (m : Machine) (k : nat) :
  reachable m ->
  floor_just_reached (seq (st m)) = false ->
  let q := seq (Nat.iter k ISR (trigger (st m))) in
  (Z.of_nat k < 800 -> animation_phase q = IDLE)
  /\ (800 <= Z.of_nat k < 1600 -> animation_phase q = OPENING)
  /\ (1600 <= Z.of_nat k < 2400 -> animation_phase q = CLOSING)
  /\ (Z.of_nat k < 2400 -> floor_just_reached q = true)
  /\ (Z.of_nat k = 2400 ->
      floor_just_reached q = false /\ animation_phase q = IDLE
      /\ animation_timer q = 0)
  /\ (Z.of_nat k <= 2400 ->
      (elevator_door_open q = true <-> 801 <= Z.of_nat k <= 1600)).
Proof.
  intros Hr Hf q. pose proof (reachable_invariant m Hr) as [_ Hq _ _].
  destruct (idle_when_clear _ Hq Hf) as (Hp & Ht).
  pose proof (seq_ok_trigger _ Hq) as Hq'.
  assert (Hcyc : Z.of_nat k <= 2400 -> _)
    by exact (cycle_progress (trigger (st m)) k Hq' eq_refl Hp Ht).
  cbv zeta in Hcyc. fold q in Hcyc.
  split.
  { intros H. destruct Hcyc as (_ & H0 & _); [lia|]. apply (H0 H). }
  split.
  { intros H. destruct Hcyc as (_ & _ & H1 & _); [lia|]. apply (H1 H). }
  split.
  { intros H. destruct Hcyc as (_ & _ & _ & H2 & _); [lia|]. apply (H2 H). }
  split.
  { intros H. destruct Hcyc as (_ & H0 & H1 & H2 & _); [lia|].
    assert (Hrange : Z.of_nat k < 800 \/ 800 <= Z.of_nat k < 1600
                     \/ 1600 <= Z.of_nat k < 2400) by lia.
    destruct Hrange as [R | [R | R]]; [apply H0 | apply H1 | apply H2]; exact R. }
  split.
  { intros H. destruct Hcyc as (_ & _ & _ & _ & H3); [lia|].
    destruct (H3 H) as (E1 & E2 & E3). auto. }
  intros H. destruct (Hcyc H) as (Hqk & H0 & H1 & H2 & H3).
  rewrite (door_span _ Hqk). unfold IDLE, OPENING, CLOSING in *.
  assert (Hrange : Z.of_nat k < 800 \/ 800 <= Z.of_nat k < 1600
                   \/ 1600 <= Z.of_nat k < 2400 \/ Z.of_nat k = 2400) by lia.
  destruct Hrange as [R | [R | [R | R]]].
  - destruct (H0 R) as (E1 & E2 & _). rewrite E1, E2. lia.
  - destruct (H1 R) as (E1 & E2 & _). rewrite E1, E2. lia.
  - destruct (H2 R) as (E1 & E2 & _). rewrite E1, E2. lia.
  - destruct (H3 R) as (E1 & E2 & _). rewrite E1, E2. lia.
Qed.

Lemma door_animation_cycle_witness :
  reachable (boot 8 0)
  /\ floor_just_reached (seq (st (boot 8 0))) = false
  /\ floor_just_reached (seq (Nat.iter 5 ISR (trigger (st (boot 8 0))))) = true.
Proof.
  split; [apply reach_boot|]. split; [reflexivity|].
  refine (proj1 (proj2 (proj2 (proj2
            (door_animation_cycle (boot 8 0) 5 (reach_boot 8 0) eq_refl)))) _).
  reflexivity.
Defined.

(** X5. In every reachable configuration the four door LEDs of port C
    show [elevator_door_open]: pins 0 and 3 carry its value and pins 1
    and 2 its negation, whatever the display selector on pin 4 does. *)
Theorem door_leds_follow_door (m : Machine) :
  reachable m ->
  let open := elevator_door_open (seq (st m)) in
  let portc := PORTC (io (st m)) in
  Z.testbit portc PC0 = open /\ Z.testbit portc PC3 = open
  /\ Z.testbit portc PC1 = negb open /\ Z.testbit portc PC2 = negb open.
Proof.
  intros Hr. exact (leds_door _ (reachable_lifecycle m Hr)).
Qed.

Lemma door_leds_follow_door_witness :
  reachable boarded
  /\ elevator_door_open (seq (st boarded)) = true
  /\ Z.testbit (PORTC (io (st boarded))) PC0 = true.
Proof.
  assert (Hr : reachable boarded) by (apply reachable_play, reach_boot).
  assert (Hd : elevator_door_open (seq (st boarded)) = true)
    by (vm_compute; reflexivity).
  split; [exact Hr|]. split; [exact Hd|].
  exact (eq_trans (proj1 (door_leds_follow_door boarded Hr)) Hd).
Defined.

(** ** The two seven-segment displays *)



(** The direction shown when the car is in the shaft and sent to a
    floor: the subtraction on [int] does not wrap. *)
Lemma travel_direction_in_range (s : State) :
  car_ok s ->
  travel_direction s
  = if current_position (car s) <? destination (car s) then Some Up
    else if destination (car s) <? current_position (car s) then Some Down
         else Some Stationary.
Proof.
  intros [H1 H2 _ _ _ _]. unfold travel_direction.
  assert (Hd : -12 <= destination (car s) - current_position (car s) <= 12).
  { unfold floor_coordinate, FLOOR_0, FLOOR_1, FLOOR_2, FLOOR_3 in H2. lia. }
  rewrite int16_small by lia.
  destruct (Z.ltb_spec 0 (destination (car s) - current_position (car s)));
    destruct (Z.ltb_spec (current_position (car s)) (destination (car s))); try lia;
    [reflexivity|].
  destruct (Z.ltb_spec (destination (car s) - current_position (car s)) 0);
    destruct (Z.ltb_spec (destination (car s)) (current_position (car s))); try lia;
    [reflexivity|].
  destruct (Z.eqb_spec (destination (car s)) (current_position (car s))); [reflexivity|lia].
Qed.



(** ** The LED matrix *)

Lemma int8_small (z : Z) : -128 <= z < 128 -> int8 z = z.
Proof.
  intros H. unfold int8.
  rewrite Z.mod_small; change (2 ^ 7) with 128; change (2 ^ 8) with 256; lia.
Qed.

(** The calls of [draw_elevator]: the three rows of the car above the
    row it erases. *)
Lemma draw_elevator_matrix (s : State) :
  let p := current_position (car s) in
  let op := old_position (car s) in
  matrix (draw_elevator s)
  = cells (int8 (p + 3)) ELEVATOR ++ cells (int8 (p + 2)) ELEVATOR
    ++ cells (int8 (p + 1)) ELEVATOR
    ++ cells (if p <? op then int8 (op + 3)
              else if op <? p then int8 (op + 1) else 0) EMPTY_SQUARE
    ++ matrix s.
Proof.
  unfold draw_elevator, cells. cbn [fold_left]. cbv zeta. reduce.
  destruct (current_position (car s) <? old_position (car s));
    [|destruct (old_position (car s) <? current_position (car s))];
    repeat (split_if; reduce); try reflexivity; congruence.
Qed.

Lemma Forall_cells (P : Z * Z * Colour -> Prop) (y : Z) (c : Colour) :
  (Z.rem y 4 <> 0 -> P (2, y, c) /\ P (1, y, c)) -> Forall P (cells y c).
Proof.
  intros H. unfold cells. destruct (Z.eqb_spec (Z.rem y 4) 0); cbn [negb].
  - constructor.
  - destruct (H n). repeat constructor; assumption.
Qed.

(** X7. Whatever the state, [draw_elevator] only adds calls to the log
    of the matrix, at most eight, each in column 1 or 2, never on a
    floor row ([y % 4 == 0]), in the colour of the car or of an empty
    square; and it records the position it drew in [old_position]. *)
Theorem draw_elevator_spares_floors (s : State) :
  exists calls,
    matrix (draw_elevator s) = calls ++ matrix s
    /\ (length calls <= 8)%nat
    /\ Forall sprite_call calls
    /\ old_position (car (draw_elevator s)) = uint8 (current_position (car s)).
Proof.
  pose proof (draw_elevator_matrix s) as E. cbv zeta in E.
  set (c3 := cells (int8 (current_position (car s) + 3)) ELEVATOR) in *.
  set (c2 := cells (int8 (current_position (car s) + 2)) ELEVATOR) in *.
  set (c1 := cells (int8 (current_position (car s) + 1)) ELEVATOR) in *.
  set (ce := cells _ EMPTY_SQUARE) in *.
  assert (Hcell : forall y c, (c = ELEVATOR \/ c = EMPTY_SQUARE) ->
                              Forall sprite_call (cells y c)).
  { intros y c Hc. apply Forall_cells. intros H.
    unfold sprite_call. cbn [fst snd]. auto 6. }
  assert (Hlen : forall y c, (length (cells y c) <= 2)%nat).
  { intros y c. unfold cells. destruct (negb _); cbn [length]; lia. }
  exists (c3 ++ c2 ++ c1 ++ ce). split; [|split; [|split]].
  - rewrite E, <- !app_assoc. reflexivity.
  - rewrite !length_app.
    assert (length c3 <= 2)%nat by apply Hlen.
    assert (length c2 <= 2)%nat by apply Hlen.
    assert (length c1 <= 2)%nat by apply Hlen.
    assert (length ce <= 2)%nat by apply Hlen.
    lia.
  - apply Forall_app; split; [apply Hcell; auto|].
    apply Forall_app; split; [apply Hcell; auto|].
    apply Forall_app; split; apply Hcell; auto.
  - destruct (draw_elevator_effect s) as (-> & _). reflexivity.
Qed.

Lemma pixel_cells (x y y' : Z) (c : Colour) (rest : list (Z * Z * Colour)) :
  x = 1 \/ x = 2 ->
  pixel x y (cells y' c ++ rest)
  = if negb (Z.rem y' 4 =? 0) && (y' =? y) then Some c else pixel x y rest.
Proof.
  intros Hx. unfold cells. destruct (negb (Z.rem y' 4 =? 0)); cbn [andb app pixel].
  - destruct Hx as [-> | ->]; cbn [Z.eqb Pos.eqb andb];
      destruct (y' =? y); reflexivity.
  - reflexivity.
Qed.

Lemma pixel_cells_other (x y y' : Z) (c : Colour) (rest : list (Z * Z * Colour)) :
  x <> 1 -> x <> 2 -> pixel x y (cells y' c ++ rest) = pixel x y rest.
Proof.
  intros H1 H2. unfold cells. destruct (negb (Z.rem y' 4 =? 0)); cbn [app pixel].
  - destruct (Z.eqb_spec 2 x); [congruence|]. destruct (Z.eqb_spec 1 x); [congruence|].
    reflexivity.
  - reflexivity.
Qed.

(** Redrawing the car one row up, one row down or where it was. *)
Lemma draw_elevator_sprite (s : State) (p0 : Z) :
  0 <= p0 <= 12 -> old_position (car s) = p0 ->
  0 <= current_position (car s) <= 12 ->
  current_position (car s) = p0 \/ current_position (car s) = p0 + 1
  \/ current_position (car s) = p0 - 1 ->
  (forall x y, x = 1 \/ x = 2 ->
     (pixel x y (matrix s) = Some ELEVATOR <-> p0 < y <= p0 + 3 /\ Z.rem y 4 <> 0)) ->
  forall x y, x = 1 \/ x = 2 ->
    (pixel x y (matrix (draw_elevator s)) = Some ELEVATOR
     <-> current_position (car s) < y <= current_position (car s) + 3
         /\ Z.rem y 4 <> 0).
Proof.
  intros Hp0 Hop Hp Hmove Hold x y Hx.
  rewrite draw_elevator_matrix. cbv zeta. rewrite Hop.
  set (p := current_position (car s)) in *.
  rewrite !(int8_small (p + 3)), !(int8_small (p + 2)), !(int8_small (p + 1)) by lia.
  rewrite !pixel_cells by assumption.
  specialize (Hold x y Hx).
  destruct Hmove as [E | [E | E]]; rewrite E in *; clear E;
    repeat match goal with
           | |- context [Z.ltb ?a ?b] => destruct (Z.ltb_spec a b); try lia
           end;
    rewrite ?int8_small by lia;
    repeat match goal with
           | |- context [Z.eqb ?a y] => destruct (Z.eqb_spec a y); try lia
           end;
    rewrite ?andb_false_r; cbn [andb];
    repeat match goal with
           | |- context [Z.eqb ?a ?b] => destruct (Z.eqb_spec a b)
           end;
    cbn [negb andb]; rewrite ?Hold;
    (split; [intros H' | intros H'; try reflexivity]);
    first [ discriminate H' | Z.to_euclidean_division_equations; lia ].
Qed.

Lemma move_elevator_draws (i : Inputs) (s : State) :
  move_due i s = true ->
  exists s1,
    matrix (move_elevator i s) = matrix (draw_elevator s1)
    /\ current_position (car s1) = current_position (car (move_elevator i s))
    /\ old_position (car s1) = old_position (car s)
    /\ matrix s1 = matrix s.
Proof.
  unfold move_due, move_elevator.
  destruct (_ && _); [intros _|discriminate]. cbv zeta.
  match goal with
  | |- context [draw_elevator ?x] => set (s1 := x)
  end.
  assert (H1 : old_position (car s1) = old_position (car s) /\ matrix s1 = matrix s).
  { subst s1. destruct (0 <? _); [split; reflexivity|].
    destruct (_ <? 0); split; reflexivity. }
  clearbody s1. exists s1.
  destruct (draw_elevator_effect s1) as (Ec & _).
  revert Ec. generalize (draw_elevator s1). intros s2 Ec.
  split; [reflexivity|]. split; [|exact H1].
  reduce. rewrite Ec. reflexivity.
Qed.

(** A call that is neither in the car's colour nor in a traveller's, or
    that falls outside the cells concerned, changes neither picture. *)
Lemma matrix_ok_same (s s' : State) :
  matrix s' = matrix s ->
  current_position (car s') = current_position (car s) ->
  traveller_active (trav s') = traveller_active (trav s) ->
  traveller_onboard (trav s') = traveller_onboard (trav s) ->
  traveller_floor (trav s') = traveller_floor (trav s) ->
  matrix_ok s -> matrix_ok s'.
Proof.
  intros Em Ep Ea Eo Ef [Hfr Hsp Hmk].
  constructor; unfold sprite_shown, marker_shown in *; rewrite ?Em, ?Ep, ?Ea, ?Eo, ?Ef;
    assumption.
Qed.

Lemma In_colours (fc : Z) :
  0 <= fc <= 3 -> In (nth (Z.to_nat fc) colours EMPTY_SQUARE) colours.
Proof.
  intros H. assert (E : fc = 0 \/ fc = 1 \/ fc = 2 \/ fc = 3) by lia.
  destruct E as [-> | [-> | [-> | ->]]]; cbn; auto.
Qed.

Lemma move_elevator_matrix_ok (i : Inputs) (s : State) :
  car_ok s -> lifecycle_ok s -> matrix_ok s -> matrix_ok (move_elevator i s).
Proof.
  intros Hc L [Hfr Hsp Hmk].
  destruct (move_elevator_effect i s) as (Et & _ & _ & _ & Ed & _ & _ & Ep).
  destruct (move_due i s) eqn:Hdue.
  2:{ unfold move_elevator. unfold move_due in Hdue. rewrite Hdue.
      constructor; assumption. }
  destruct (move_elevator_draws i s Hdue) as (s1 & Em & Ep1 & Eo1 & Em1).
  pose proof (position_range _ Hc) as Hr.
  pose proof (position_range _ (move_elevator_car_ok i s Hc)) as Hr'.
  pose proof (sprite_position _ L) as Hop.
  assert (Hstep : current_position (car s1) = current_position (car s)
                  \/ current_position (car s1) = current_position (car s) + 1
                  \/ current_position (car s1) = current_position (car s) - 1).
  { rewrite Ep1, Ep.
    pose proof (destination_floor _ Hc) as Hd.
    unfold floor_coordinate, FLOOR_0, FLOOR_1, FLOOR_2, FLOOR_3 in Hd.
    cbv zeta. rewrite (int16_small (destination (car s) - current_position (car s))) by lia.
    destruct (0 <? _); [rewrite int16_small by lia; auto|].
    destruct (_ <? 0); [rewrite int16_small by lia; auto | auto]. }
  pose proof (draw_elevator_matrix s1) as Ecalls. cbv zeta in Ecalls.
  constructor.
  - rewrite Em, Ecalls, Em1.
    repeat (apply Forall_app; split;
            [apply Forall_cells; intros H; unfold keeps_floor_row; cbn [fst snd];
             split; intros H0; contradiction|]).
    exact Hfr.
  - unfold sprite_shown. rewrite Em, <- Ep1.
    apply (draw_elevator_sprite s1 (current_position (car s))); try assumption.
    + congruence.
    + rewrite Ep1. exact Hr'.
    + unfold sprite_shown in Hsp. rewrite Em1. exact Hsp.
  - assert (Hcol : forall y, pixel 5 y (matrix (move_elevator i s)) = pixel 5 y (matrix s)).
    { intros y. rewrite Em, Ecalls, Em1.
      rewrite !(pixel_cells_other 5) by lia. reflexivity. }
    unfold marker_shown in *. rewrite Et. destruct Hmk as [Hm1 Hm2]. split.
    + intros Ha Ho. rewrite Hcol. apply Hm1; assumption.
    + intros y c Hin Hpix. rewrite Hcol in Hpix. apply (Hm2 y c Hin Hpix).
Qed.

Lemma pixel_cons_other (x y x' y' : Z) (c : Colour) (mx : list (Z * Z * Colour)) :
  x' <> x -> pixel x y ((x', y', c) :: mx) = pixel x y mx.
Proof.
  intros H. cbn [pixel]. destruct (Z.eqb_spec x' x); [contradiction | reflexivity].
Qed.

Lemma accept_request_matrix_ok (i fc : Z) (s : State) :
  0 <= i <= 3 -> 0 <= fc <= 3 -> traveller_active (trav s) = false ->
  traveller_onboard (trav s) = false ->
  matrix_ok s -> matrix_ok (accept_request i fc s).
Proof.
  intros Hi Hfc Ha Ho [Hfr Hsp Hmk]. unfold accept_request.
  constructor; unfold sprite_shown, marker_shown in *; reduce.
  - constructor; [|exact Hfr]. unfold keeps_floor_row. cbn [fst snd].
    intros H. exfalso. Z.to_euclidean_division_equations. lia.
  - intros x y Hx. rewrite pixel_cons_other by lia. apply Hsp, Hx.
  - destruct Hmk as [_ Hno]. split.
    + intros _ _. exists (nth (Z.to_nat fc) colours EMPTY_SQUARE).
      split; [apply In_colours, Hfc|].
      cbn [pixel]. rewrite !Z.eqb_refl. reflexivity.
    + intros y c Hin Hpix. cbn [pixel] in Hpix. cbn [Z.eqb Pos.eqb andb] in Hpix.
      destruct (Z.eqb_spec (4 * i + 1) y) as [E|E].
      * repeat split; auto.
      * destruct (Hno y c Hin Hpix) as (Ha' & _). congruence.
Qed.

Lemma board_matrix_ok (s : State) :
  car_ok s -> matrix_ok s -> matrix_ok (board s).
Proof.
  intros Hc [Hfr Hsp Hmk]. unfold board.
  destruct (traveller_active (trav s)) eqn:Ha; cbn [andb]; [|constructor; assumption].
  destruct (_ =? _); cbn [andb]; [|constructor; assumption].
  destruct (elevator_door_open (seq s)); [|constructor; assumption].
  pose proof (origin_floor _ Hc) as Hf.
  unfold floor_coordinate, FLOOR_0, FLOOR_1, FLOOR_2, FLOOR_3 in Hf.
  constructor; unfold sprite_shown, marker_shown in *; reduce.
  - constructor; [|exact Hfr]. unfold keeps_floor_row. cbn [fst snd].
    intros H. exfalso. Z.to_euclidean_division_equations. lia.
  - intros x y Hx. rewrite pixel_cons_other by lia. apply Hsp, Hx.
  - destruct Hmk as [_ Hno]. split; [discriminate|].
    intros y c Hin Hpix. cbn [pixel] in Hpix. cbn [Z.eqb Pos.eqb andb] in Hpix.
    destruct (Z.eqb_spec (traveller_floor (trav s) + 1) y) as [E|E].
    + exfalso. injection Hpix as <-. cbn in Hin. intuition discriminate.
    + destruct (Hno y c Hin Hpix) as (_ & _ & Hy). congruence.
Qed.

Lemma drop_off_matrix_ok (s : State) : matrix_ok s -> matrix_ok (drop_off s).
Proof.
  intros [Hfr Hsp Hmk]. unfold drop_off.
  destruct (traveller_onboard (trav s)) eqn:Ho; cbn [andb]; [|constructor; assumption].
  destruct (_ =? _); [|constructor; assumption].
  constructor; unfold sprite_shown, marker_shown in *; reduce; try assumption.
  destruct Hmk as [_ Hno]. split; [discriminate|].
  intros y c Hin Hpix. destruct (Hno y c Hin Hpix) as (_ & Ho' & _). congruence.
Qed.

Lemma main_step_matrix_ok (i : Inputs) (m : Machine) :
  invariant m -> lifecycle_ok (st m) -> matrix_ok (st m) ->
  matrix_ok (st (step (Main i) m)).
Proof.
  intros [Hc Hq Hfc Hg] L M. cbn [step]. destruct (pc m); reduce.
  - apply move_elevator_matrix_ok; assumption.
  - destruct (negb _); reduce; exact M.
  - destruct (handle_inputs_outcome (floor_choice m) (in_button i) (in_serial i) (st m))
      as [-> | (j & Hj & _ & _ & Ha & ->)]; [exact M|].
    apply accept_request_matrix_ok; auto.
    destruct (traveller_onboard (trav (st m))) eqn:Ho; [|reflexivity].
    rewrite (onboard_active _ L Ho) in Ha. discriminate.
  - destruct (pickup_destination_effect (floor_choice m) (st m))
      as (Et & _ & _ & Em & _ & Ep & _).
    apply (matrix_ok_same (st m)); try assumption; rewrite Et; reflexivity.
  - destruct (handle_displays_effect (st m))
      as (_ & _ & Em & Ep & _ & _ & _ & Ea & Eo & Ef & _).
    apply (matrix_ok_same (st m)); assumption.
  - rewrite arrival_trigger_effect. destruct (_ && _); [|exact M].
    apply (matrix_ok_same (st m)); try reflexivity. exact M.
  - apply drop_off_matrix_ok, M.
  - apply board_matrix_ok; assumption.
Qed.

(** The calls of [draw_floors]: floor rows in the floor colour. *)
Lemma draw_floors_matrix (width : Z) (s : State) :
  exists calls,
    matrix (draw_floors width s) = calls ++ matrix s
    /\ Forall (fun e => snd e = FLOOR /\ Z.rem (snd (fst e)) 4 = 0) calls.
Proof.
  unfold draw_floors. generalize (map Z.of_nat (List.seq 0 (Z.to_nat width))).
  intros l. revert s. induction l as [|x l IH]; intros s; cbn [fold_left].
  - exists []. split; [reflexivity | constructor].
  - destruct (IH (update_square_colour x FLOOR_3 FLOOR
                    (update_square_colour x FLOOR_2 FLOOR
                       (update_square_colour x FLOOR_1 FLOOR
                          (update_square_colour x FLOOR_0 FLOOR s)))))
      as (calls & E & HF).
    exists (calls ++ [(x, FLOOR_3, FLOOR); (x, FLOOR_2, FLOOR);
                      (x, FLOOR_1, FLOOR); (x, FLOOR_0, FLOOR)]).
    split.
    + rewrite E, <- app_assoc. reflexivity.
    + apply Forall_app. split; [exact HF|].
      repeat constructor.
Qed.

Lemma pixel_floor_calls (x y : Z) (c : Colour) (calls old : list (Z * Z * Colour)) :
  Forall (fun e => snd e = FLOOR /\ Z.rem (snd (fst e)) 4 = 0) calls ->
  c <> FLOOR ->
  (pixel x y (calls ++ old) = Some c -> pixel x y old = Some c)
  /\ (Z.rem y 4 <> 0 -> pixel x y (calls ++ old) = pixel x y old).
Proof.
  intros HF Hc. induction HF as [|[[x' y'] c'] calls [Hcol Hrow] HF IH];
    cbn [app pixel].
  - auto.
  - cbn [fst snd] in Hcol, Hrow. subst c'. destruct IH as [IH1 IH2].
    destruct (Z.eqb_spec x' x); cbn [andb]; [|auto].
    destruct (Z.eqb_spec y' y); [|auto]. split.
    + intros H. congruence.
    + intros H. congruence.
Qed.

Lemma boot_matrix_ok (width t0 : Z) : matrix_ok (st (boot width t0)).
Proof.
  destruct (boot_state width t0) as (Ec & Et & _ & _).
  assert (Em : exists calls,
             matrix (st (boot width t0))
             = calls ++ [(2, 3, ELEVATOR); (1, 3, ELEVATOR); (2, 2, ELEVATOR);
                         (1, 2, ELEVATOR); (2, 1, ELEVATOR); (1, 1, ELEVATOR)]
             /\ Forall (fun e => snd e = FLOOR /\ Z.rem (snd (fst e)) 4 = 0) calls).
  { unfold boot, start_elevator_emulator_init, display_information. reduce.
    match goal with
    | |- context [draw_floors width ?x] =>
        destruct (draw_floors_matrix width x) as (calls & E & HF)
    end.
    exists calls. split; [|exact HF].
    revert E. match goal with
              | |- context [draw_floors width ?x] => generalize (draw_floors width x)
              end.
    intros s1 ->. f_equal. }
  destruct Em as (calls & Em & HF).
  constructor; unfold sprite_shown, marker_shown; rewrite ?Ec, ?Et, Em; reduce.
  - apply Forall_app. split.
    + eapply Forall_impl; [|exact HF]. intros e [H _] _. exact H.
    + repeat constructor; unfold keeps_floor_row; cbn [fst snd];
        intros H; vm_compute in H; discriminate.
  - intros x y Hx.
    destruct (pixel_floor_calls x y ELEVATOR calls
                [(2, 3, ELEVATOR); (1, 3, ELEVATOR); (2, 2, ELEVATOR);
                 (1, 2, ELEVATOR); (2, 1, ELEVATOR); (1, 1, ELEVATOR)] HF)
      as [H1 H2]; [discriminate|].
    assert (Hconc : pixel x y [(2, 3, ELEVATOR); (1, 3, ELEVATOR); (2, 2, ELEVATOR);
                               (1, 2, ELEVATOR); (2, 1, ELEVATOR); (1, 1, ELEVATOR)]
                    = Some ELEVATOR <-> 0 < y <= 0 + 3 /\ Z.rem y 4 <> 0).
    { cbn [pixel].
      destruct Hx as [-> | ->];
        repeat match goal with
               | |- context [Z.eqb ?a ?b] => destruct (Z.eqb_spec a b); try lia
               end;
        cbn [andb];
        (split; [intros H' | intros H'; try reflexivity]);
        first [ discriminate H' | Z.to_euclidean_division_equations; lia ]. }
    split.
    + intros H. apply Hconc, H1, H.
    + intros H. rewrite H2 by apply H. apply Hconc, H.
  - split; [discriminate|].
    intros y c Hin Hpix. exfalso.
    destruct (pixel_floor_calls 5 y c calls
                [(2, 3, ELEVATOR); (1, 3, ELEVATOR); (2, 2, ELEVATOR);
                 (1, 2, ELEVATOR); (2, 1, ELEVATOR); (1, 1, ELEVATOR)] HF)
      as [H1 _].
    { intros ->. cbn in Hin. intuition discriminate. }
    specialize (H1 Hpix). cbn in H1. discriminate.
Qed.

Lemma reachable_matrix (m : Machine) : reachable m -> matrix_ok (st m).
Proof.
  induction 1 as [width t0 | e m Hr IH].
  - apply boot_matrix_ok.
  - pose proof (reachable_invariant m Hr) as Hinv.
    pose proof (reachable_lifecycle m Hr) as L. destruct e as [|i].
    + cbn [step]. reduce. destruct (ISR_frame (st m)) as (Ec & Et & Em & _).
      apply (matrix_ok_same (st m)); try assumption; rewrite ?Ec, ?Et; reflexivity.
    + apply main_step_matrix_ok; assumption.
Qed.

(** X8. In every reachable configuration, every call ever made to the
    LED matrix on a floor row (a row that is a multiple of 4) painted
    the floor colour: neither the car, nor the erasing of the car, nor
    the waiting marker, nor its erasing ever lands on a floor row. *)
Theorem floor_rows_never_overwritten (m : Machine) :
  reachable m ->
  forall x y c, In (x, y, c) (matrix (st m)) -> Z.rem y 4 = 0 -> c = FLOOR.
Proof.
  intros Hr x y c Hin Hrow.
  pose proof (floor_rows_kept _ (reachable_matrix m Hr)) as HF.
  rewrite Forall_forall in HF. exact (HF (x, y, c) Hin Hrow).
Qed.

Lemma floor_rows_never_overwritten_witness :
  reachable (boot 8 0)
  /\ In (0, 4, FLOOR) (matrix (st (boot 8 0)))
  /\ FLOOR = FLOOR.
Proof.
  assert (Hin : In (0, 4, FLOOR) (matrix (st (boot 8 0)))).
  { vm_compute. intuition. }
  split; [apply reach_boot|]. split; [exact Hin|].
  exact (floor_rows_never_overwritten (boot 8 0) (reach_boot 8 0) 0 4 FLOOR Hin eq_refl).
Defined.

(** X9. In every reachable configuration the LED matrix shows the car
    where the car is: in columns 1 and 2 the most recent call for a cell
    painted the car's colour exactly on the rows [current_position + 1]
    to [current_position + 3] that are not floor rows; and
    [old_position], which [draw_elevator] uses to erase, is the current
    position. *)
Theorem sprite_follows_car (m : Machine) :
  reachable m ->
  old_position (car (st m)) = current_position (car (st m))
  /\ forall x y, x = 1 \/ x = 2 ->
       (pixel x y (matrix (st m)) = Some ELEVATOR
        <-> current_position (car (st m)) < y <= current_position (car (st m)) + 3
            /\ Z.rem y 4 <> 0).
Proof.
  intros Hr. split.
  - apply (sprite_position _ (reachable_lifecycle m Hr)).
  - apply (sprite_drawn _ (reachable_matrix m Hr)).
Qed.

Lemma sprite_follows_car_witness :
  reachable first_move
  /\ current_position (car (st first_move)) = 1
  /\ pixel 1 1 (matrix (st first_move)) <> Some ELEVATOR
  /\ pixel 1 3 (matrix (st first_move)) = Some ELEVATOR.
Proof.
  assert (Hr : reachable first_move).
  { repeat apply reachable_until_head. repeat apply reach_step. apply reach_boot. }
  assert (Hp : current_position (car (st first_move)) = 1) by reflexivity.
  pose proof (proj2 (sprite_follows_car first_move Hr)) as H.
  rewrite Hp in H.
  split; [exact Hr|]. split; [exact Hp|]. split.
  - intros H1. apply (H 1 1 (or_introl eq_refl)) in H1. lia.
  - apply (H 1 3 (or_introl eq_refl)). split; [lia|]. discriminate.
Defined.

(** X10. In every reachable configuration the waiting marker is lit
    exactly while a traveller waits: when a traveller is active and not
    on board, column 5 shows one of the four traveller colours on the
    row above the traveller's floor; and column 5 shows a traveller
    colour on no other row, and on none at all once the traveller is on
    board or dropped off. *)
Theorem marker_follows_traveller (m : Machine) :
  reachable m ->
  let s := st m in
  (traveller_active (trav s) = true -> traveller_onboard (trav s) = false ->
   exists c, In c colours
             /\ pixel 5 (traveller_floor (trav s) + 1) (matrix s) = Some c)
  /\ (forall y c, In c colours -> pixel 5 y (matrix s) = Some c ->
      traveller_active (trav s) = true /\ traveller_onboard (trav s) = false
      /\ y = traveller_floor (trav s) + 1).
Proof.
  intros Hr. exact (marker_drawn _ (reachable_matrix m Hr)).
Qed.

Lemma marker_follows_traveller_witness :
  reachable just_placed
  /\ traveller_active (trav (st just_placed)) = true
  /\ traveller_onboard (trav (st just_placed)) = false
  /\ exists c, In c colours
       /\ pixel 5 (traveller_floor (trav (st just_placed)) + 1)
                (matrix (st just_placed)) = Some c.
Proof.
  assert (Hr : reachable just_placed) by (repeat apply reach_step; apply reach_boot).
  split; [exact Hr|]. split; [reflexivity|]. split; [reflexivity|].
  exact (proj1 (marker_follows_traveller just_placed Hr) eq_refl eq_refl).
Defined.

(** ** Calling twice *)

Lemma handle_displays_direction (s : State) :
  direction_change (car (handle_displays s))
  = uint8 (destination (car s) - current_position (car s))
  /\ old_direction_change (car (handle_displays s))
     = uint8 (destination (car s) - current_position (car s)).
Proof.
  unfold handle_displays, display_information. cbv zeta. reduce.
  repeat (split_if; reduce); split; reflexivity.
Qed.

(** A state whose display variables are up to date is left as it is. *)
Lemma handle_displays_settled (s : State) :
  direction_change (car s) = uint8 (destination (car s) - current_position (car s)) ->
  old_direction_change (car s) = direction_change (car s) ->
  current_floor (car s) = sticky s ->
  old_floor (car s) = current_floor (car s) ->
  handle_displays s = s.
Proof.
  destruct s as [c t q p mx tm].
  destruct c as [tsm cp d dc odc ofl cf op].
  unfold sticky. reduce. intros H1 H2 H3 H4.
  unfold handle_displays, display_information. cbv zeta. reduce.
  destruct (at_a_floor cp); reduce; subst; rewrite !Z.eqb_refl; cbn [negb orb];
    unfold upd_car; reduce; reflexivity.
Qed.

(** X11. [handle_displays] is idempotent on every state: a second call
    right after a first one finds neither the direction nor the floor
    changed, prints nothing, counts no floor and returns the very state
    the first call returned. *)
Theorem handle_displays_idempotent (s : State) :
  handle_displays (handle_displays s) = handle_displays s.
Proof.
  destruct (handle_displays_effect s)
    as (_ & _ & _ & Ep & Ed & Ec & Eo & _).
  destruct (handle_displays_direction s) as (Edc & Eodc).
  apply handle_displays_settled.
  - rewrite Edc, Ed, Ep. reflexivity.
  - rewrite Edc, Eodc. reflexivity.
  - rewrite Ec. unfold sticky at 2. rewrite Ep, Ec.
    unfold sticky. destruct (at_a_floor (current_position (car s))); reflexivity.
  - rewrite Ec, Eo. reflexivity.
Qed.

(** X12. Once [handle_inputs] has accepted a request, or whenever a
    traveller is active, a further call changes nothing, whatever
    button, serial character and switches it is given; and with the
    same inputs [handle_inputs] is idempotent on every state. A button
    that stays selected cannot place a second traveller. *)
Theorem handle_inputs_once
        (fc button : Z) (serial : option Z)
        (fc' button' : Z) (serial' : option Z) (s : State) :
  let s1 := handle_inputs fc button serial s in
  (traveller_active (trav s1) = true -> handle_inputs fc' button' serial' s1 = s1)
  /\ handle_inputs fc button serial s1 = s1.
Proof.
  intros s1.
  assert (Hact : forall a b c x, traveller_active (trav x) = true ->
                                 handle_inputs a b c x = x).
  { intros a b c x H. rewrite handle_inputs_spec, H. reflexivity. }
  split; [apply Hact|].
  destruct (handle_inputs_outcome fc button serial s)
    as [E | (j & _ & _ & _ & _ & E)]; subst s1; rewrite E.
  - exact E.
  - apply Hact. reflexivity.
Qed.

Lemma handle_inputs_once_witness :
  traveller_active (trav (handle_inputs 0 2 None zero_state)) = true
  /\ handle_inputs 1 3 (Some 48) (handle_inputs 0 2 None zero_state)
     = handle_inputs 0 2 None zero_state.
Proof.
  split; [reflexivity|].
  exact (proj1 (handle_inputs_once 0 2 None 1 3 (Some 48) zero_state) eq_refl).
Defined.

(** ** How the traveller's flags change *)



(** ** The buzzer pin *)

Lemma testbit_single (n : Z) :
  0 <= n -> Z.testbit (Z.shiftl 1 PD6) n = (n =? PD6).
Proof.
  intros Hn. unfold PD6. rewrite Z.shiftl_1_l.
  destruct (Z.eqb_spec n 6) as [->|E].
  - reflexivity.
  - apply Z.pow2_bits_false. congruence.
Qed.

(** X14. The three sound functions touch pin 6 of the direction
    register of port D and no other pin: starting a tone makes it an
    output, stopping makes it an input. Started tones have a duty cycle
    of one half ([OCR2B] is [OCR2A / 2]: 41 and 20 at 3 kHz, 249 and 124
    at 500 Hz), [stop_sound] clears both compare registers, and a tone
    started and stopped leaves the direction register as it was when
    the pin was an input before. *)
Theorem sound_functions_use_one_pin (s : State) (n : Z) :
  0 <= n ->
  Z.testbit (DDRD (io (start_3kHz_sound s))) n = (n =? PD6) || Z.testbit (DDRD (io s)) n
  /\ Z.testbit (DDRD (io (start_500Hz_sound s))) n
     = (n =? PD6) || Z.testbit (DDRD (io s)) n
  /\ Z.testbit (DDRD (io (stop_sound s))) n
     = negb (n =? PD6) && Z.testbit (DDRD (io s)) n
  /\ (OCR2A (io (start_3kHz_sound s)), OCR2B (io (start_3kHz_sound s))) = (41, 20)
  /\ (OCR2A (io (start_500Hz_sound s)), OCR2B (io (start_500Hz_sound s))) = (249, 124)
  /\ (OCR2A (io (stop_sound s)), OCR2B (io (stop_sound s))) = (0, 0)
  /\ (Z.testbit (DDRD (io s)) PD6 = false ->
      DDRD (io (stop_sound (start_3kHz_sound s))) = DDRD (io s)
      /\ DDRD (io (stop_sound (start_500Hz_sound s))) = DDRD (io s)).
Proof.
  intros Hn. unfold start_3kHz_sound, start_500Hz_sound, stop_sound. reduce.
  repeat split; try reflexivity.
  - rewrite Z.lor_spec, testbit_single by assumption. apply orb_comm.
  - rewrite Z.lor_spec, testbit_single by assumption. apply orb_comm.
  - rewrite Z.land_spec, Z.lnot_spec, testbit_single by assumption. apply andb_comm.
  - apply Z.bits_inj'. intros k Hk.
    rewrite Z.land_spec, Z.lnot_spec, Z.lor_spec, testbit_single by assumption.
    destruct (Z.eqb_spec k PD6) as [->|E]; cbn [negb].
    + rewrite H. reflexivity.
    + rewrite orb_false_r, andb_true_r. reflexivity.
  - apply Z.bits_inj'. intros k Hk.
    rewrite Z.land_spec, Z.lnot_spec, Z.lor_spec, testbit_single by assumption.
    destruct (Z.eqb_spec k PD6) as [->|E]; cbn [negb].
    + rewrite H. reflexivity.
    + rewrite orb_false_r, andb_true_r. reflexivity.
Qed.

Lemma sound_functions_use_one_pin_witness :
  0 <= 6
  /\ Z.testbit (DDRD (io zero_state)) PD6 = false
  /\ DDRD (io (stop_sound (start_3kHz_sound zero_state))) = DDRD (io zero_state).
Proof.
  assert (H0 : 0 <= 6) by lia.
  assert (H1 : Z.testbit (DDRD (io zero_state)) PD6 = false) by reflexivity.
  split; [exact H0|]. split; [exact H1|].
  exact (proj1 (proj2 (proj2 (proj2 (proj2 (proj2 (proj2
           (sound_functions_use_one_pin zero_state 6 H0)))))) H1)).
Defined.

(** ** The switches *)

Lemma land_single (a n : Z) :
  0 <= n -> Z.land a (Z.shiftl 1 n) = if Z.testbit a n then 2 ^ n else 0.
Proof.
  intros Hn. rewrite Z.shiftl_1_l. apply Z.bits_inj'. intros k Hk.
  rewrite Z.land_spec.
  destruct (Z.eq_dec k n) as [->|E].
  - rewrite Z.pow2_bits_true by assumption. rewrite andb_true_r.
    destruct (Z.testbit a n); [rewrite Z.pow2_bits_true by assumption; reflexivity|].
    rewrite Z.bits_0. reflexivity.
  - rewrite Z.pow2_bits_false by congruence. rewrite andb_false_r.
    destruct (Z.testbit a n); [rewrite Z.pow2_bits_false by congruence; reflexivity|].
    rewrite Z.bits_0. reflexivity.
Qed.

(** X15. Whatever is read from [PINC], negative values included, the
    speed depends on pin 7 alone (300 ms a step when it is set, 125 ms
    otherwise) and the floor the switches select is pin 5 plus twice
    pin 6, a number from 0 to 3: no other pin of port C influences
    either. *)
Theorem switches_decode (pinc : Z) :
  speed_of pinc = (if Z.testbit pinc PC7 then 300 else 125)
  /\ floor_choice_of pinc
     = Z.b2z (Z.testbit pinc PC5) + 2 * Z.b2z (Z.testbit pinc PC6)
  /\ 0 <= floor_choice_of pinc <= 3.
Proof.
  split; [|split; [|apply floor_choice_of_range]].
  - unfold speed_of. rewrite land_single by (unfold PC7; lia).
    destruct (Z.testbit pinc PC7); reflexivity.
  - unfold floor_choice_of.
    assert (E : Z.land pinc (Z.lor (Z.shiftl 1 PC6) (Z.shiftl 1 PC5))
                = Z.lor (Z.land pinc (Z.shiftl 1 PC6)) (Z.land pinc (Z.shiftl 1 PC5))).
    { apply Z.land_lor_distr_r. }
    rewrite E, !land_single by (unfold PC5, PC6; lia).
    destruct (Z.testbit pinc PC6), (Z.testbit pinc PC5); reflexivity.
Qed.

(** ** Movement blocks in a row *)

(** X16. While the destination stays the same, any number of movement
    blocks, due or not, keeps the car between where it was and its
    destination: it never overshoots, never moves away, and stays put
    once it is there. The blocks change neither the destination, nor
    the traveller, nor the sequencer. *)
Theorem moves_never_overshoot (l : list Inputs) (s : State) :
  car_ok s ->
  let p := current_position (car s) in
  let d := destination (car s) in
  let p' := current_position (car (moves l s)) in
  destination (car (moves l s)) = d
  /\ trav (moves l s) = trav s /\ seq (moves l s) = seq s
  /\ (p <= d -> p <= p' <= d) /\ (d <= p -> d <= p' <= p).
Proof.
  unfold moves. revert s. induction l as [|i l IH]; intros s Hc; cbn [fold_left].
  - cbv zeta. repeat split; lia.
  - pose proof (move_elevator_car_ok i s Hc) as Hc'.
    specialize (IH (move_elevator i s) Hc'). cbv zeta in IH.
    destruct IH as (Ed & Et & Eq & Hup & Hdown).
    destruct (move_elevator_effect i s) as (Et1 & Eq1 & _ & _ & Ed1 & _ & _ & Ep1).
    rewrite Ed1 in *. rewrite Et1 in Et. rewrite Eq1 in Eq.
    pose proof (position_range _ Hc) as Hr.
    pose proof (destination_floor _ Hc) as Hd.
    unfold floor_coordinate, FLOOR_0, FLOOR_1, FLOOR_2, FLOOR_3 in Hd.
    assert (Hp1 : current_position (car (move_elevator i s)) = current_position (car s)
                  \/ (current_position (car s) < destination (car s)
                      /\ current_position (car (move_elevator i s))
                         = current_position (car s) + 1)
                  \/ (destination (car s) < current_position (car s)
                      /\ current_position (car (move_elevator i s))
                         = current_position (car s) - 1)).
    { rewrite Ep1. destruct (move_due i s); [|auto]. cbv zeta.
      rewrite (int16_small (destination (car s) - current_position (car s))) by lia.
      destruct (Z.ltb_spec 0 (destination (car s) - current_position (car s))).
      - right; left. rewrite int16_small by lia. lia.
      - destruct (Z.ltb_spec (destination (car s) - current_position (car s)) 0).
        + right; right. rewrite int16_small by lia. lia.
        + auto. }
    cbv zeta. split; [exact Ed|]. split; [exact Et|]. split; [exact Eq|].
    split; intros H; destruct Hp1 as [E | [[H1 E] | [H1 E]]]; rewrite E in *; lia.
Qed.

Lemma moves_never_overshoot_witness :
  car_ok (st just_placed)
  /\ current_position (car (st just_placed)) <= destination (car (st just_placed))
  /\ current_position (car (st just_placed))
     <= current_position (car (moves (repeat quiet 20) (st just_placed)))
     <= destination (car (st just_placed)).
Proof.
  assert (Hc : car_ok (st just_placed)).
  { apply reachable_invariant. repeat apply reach_step. apply reach_boot. }
  assert (H : current_position (car (st just_placed))
              <= destination (car (st just_placed))) by (vm_compute; discriminate).
  split; [exact Hc|]. split; [exact H|].
  exact (proj1 (proj2 (proj2 (proj2
           (moves_never_overshoot (repeat quiet 20) (st just_placed) Hc)))) H).
Defined.

(** ** The start screen *)

Lemma animate_doors_ok (now : Z) (a : Splash) : splash_ok a -> splash_ok (animate_doors now a).
Proof.
  destruct a as [t dl f oc shown]. unfold splash_ok. cbn [frames_shown frame
    doors_opening_closing interval_delay]. intros [Hst Hsh].
  assert (Hshown : frames_shown (animate_doors now (mkSplash t dl f oc shown))
                   = f :: shown).
  { unfold animate_doors. cbn [frame frames_shown doors_opening_closing].
    destruct (negb _); reflexivity. }
  rewrite Hshown. cbn [length].
  assert (Hmod : (length shown mod 6 < 6)%nat) by (apply Nat.mod_upper_bound; lia).
  assert (HS : (S (length shown) mod 6 = S (length shown mod 6) mod 6)%nat).
  { change (S (length shown)) with (1 + length shown)%nat.
    change (S (length shown mod 6)) with (1 + length shown mod 6)%nat.
    rewrite (Nat.Div0.add_mod 1 (length shown) 6).
    rewrite (Nat.Div0.add_mod 1 (length shown mod 6) 6).
    rewrite Nat.Div0.mod_mod. reflexivity. }
  split.
  - rewrite HS. unfold animate_doors. cbn [frame frames_shown doors_opening_closing].
    destruct (length shown mod 6)%nat as [|[|[|[|[|[|k]]]]]] eqn:E; try lia;
      cbn [nth splash_cycle] in Hst; injection Hst as -> -> ->; reflexivity.
  - rewrite seq_S, map_app, rev_app_distr. cbn [map app rev Nat.add]. f_equal.
    + destruct (length shown mod 6)%nat as [|[|[|[|[|[|k]]]]]] eqn:E; try lia;
        cbn [nth splash_cycle] in Hst; injection Hst as -> -> ->; reflexivity.
    + exact Hsh.
Qed.

Lemma start_screen_pass_ok (nbp : Z) (i : SplashInputs) (a : Splash) :
  splash_ok a -> splash_ok (fst (start_screen_pass nbp i a)).
Proof.
  intros H. unfold start_screen_pass. cbv zeta.
  destruct (interval_delay a <? _); [apply (animate_doors_ok (sp_time_after i)) in H|];
    destruct (_ || _); cbn [fst]; try exact H;
    destruct (negb _); cbn [fst]; exact H.
Qed.

Lemma start_screen_ok (nbp : Z) (l : list SplashInputs) (a : Splash) :
  splash_ok a -> splash_ok (fst (start_screen nbp l a)).
Proof.
  revert a. induction l as [|i l IH]; intros a H; cbn [start_screen].
  - exact H.
  - pose proof (start_screen_pass_ok nbp i a H) as H1.
    destruct (snd (start_screen_pass nbp i a)); [exact H1 | apply IH, H1].
Qed.

(** X17. Whatever the times, keys and buttons of its passes, the start
    screen only ever shows the frames 0, 1, 2, 3, 2, 1 in this order,
    over and over: [frame] stays between 0 and 3 (the [uint8_t] never
    wraps below 0), every frame passed to [start_display_animation] is
    one of the four, and the delay that follows a frame is 2000 ms
    after frame 0 (doors closed), 500 ms after frame 3 (doors open) and
    150 ms after the others. *)
Theorem start_screen_animation (nbp : Z) (l : list SplashInputs) :
  let a := fst (start_screen nbp l splash_start) in
  let n := length (frames_shown a) in
  0 <= frame a <= 3
  /\ frame a = nth (n mod 6) splash_frames 0
  /\ rev (frames_shown a) = map (fun k => nth (k mod 6) splash_frames 0) (List.seq 0 n)
  /\ Forall (fun f => 0 <= f <= 3) (frames_shown a)
  /\ (forall f rest, frames_shown a = f :: rest ->
      interval_delay a = if f =? 0 then 2000 else if f =? 3 then 500 else 150).
Proof.
  intros a n.
  assert (H : splash_ok a).
  { apply start_screen_ok. split; reflexivity. }
  destruct H as [Hst Hsh]. fold n in Hst, Hsh.
  assert (Hmod : (n mod 6 < 6)%nat) by (apply Nat.mod_upper_bound; lia).
  assert (Hf : frame a = nth (n mod 6) splash_frames 0).
  { destruct (n mod 6)%nat as [|[|[|[|[|[|k]]]]]]; try lia;
      cbn [nth splash_cycle] in Hst; injection Hst as -> _ _; reflexivity. }
  assert (Hrange : forall k, 0 <= nth (k mod 6) splash_frames 0 <= 3).
  { intros k. assert (k mod 6 < 6)%nat by (apply Nat.mod_upper_bound; lia).
    destruct (k mod 6)%nat as [|[|[|[|[|[|j]]]]]]; try lia; cbn; lia. }
  split; [rewrite Hf; apply Hrange|]. split; [exact Hf|]. split.
  { rewrite Hsh, rev_involutive. reflexivity. }
  split.
  { rewrite Hsh. apply Forall_rev, Forall_map, Forall_forall.
    intros k _. apply Hrange. }
  intros f rest E.
  assert (Hn : n = S (length rest)) by (unfold n; rewrite E; reflexivity).
  assert (HS : (S (length rest) mod 6 = S (length rest mod 6) mod 6)%nat).
  { change (S (length rest)) with (1 + length rest)%nat.
    change (S (length rest mod 6)) with (1 + length rest mod 6)%nat.
    rewrite (Nat.Div0.add_mod 1 (length rest) 6).
    rewrite (Nat.Div0.add_mod 1 (length rest mod 6) 6).
    rewrite Nat.Div0.mod_mod. reflexivity. }
  assert (Hm : (length rest mod 6 < 6)%nat) by (apply Nat.mod_upper_bound; lia).
  rewrite Hn, HS in Hst.
  rewrite Hn, seq_S, map_app, rev_app_distr, E in Hsh.
  cbn [map app rev Nat.add] in Hsh.
  remember (length rest mod 6)%nat as m eqn:Em.
  assert (Hfk : f = nth m splash_frames 0) by congruence.
  clear Hsh Em.
  destruct m as [|[|[|[|[|[|k]]]]]]; try lia;
    cbn in Hfk; subst f; cbn in Hst; injection Hst as _ _ ->; reflexivity.
Qed.

(** ** The terminal *)

Lemma ISR_only_clears (s : State) :
  floor_just_reached (seq (ISR s)) = true -> floor_just_reached (seq s) = true.
Proof.
  unfold ISR. fold (ISR_prefix s).
  destruct (ISR_prefix_animation s) as (<- & _).
  generalize (ISR_prefix s). clear s. intros s.
  unfold ISR_animation.
  destruct (animation_phase (seq s)) as [|[[]|[]|]|]; frame;
    intros H; first [exact H | discriminate H].
Qed.

Lemma travel_direction_shown (s : State) :
  car_ok s ->
  travel_direction s
  = shown_direction (uint8 (destination (car s) - current_position (car s))).
Proof.
  intros Hc. rewrite (travel_direction_in_range s Hc).
  destruct Hc as [H1 H2 _ _ _ _].
  unfold floor_coordinate, FLOOR_0, FLOOR_1, FLOOR_2, FLOOR_3 in H2.
  unfold shown_direction.
  pose proof (uint8_range (destination (car s) - current_position (car s))) as Hu.
  assert (Hm : uint8 (destination (car s) - current_position (car s))
               = destination (car s) - current_position (car s)
               \/ uint8 (destination (car s) - current_position (car s))
                  = destination (car s) - current_position (car s) + 256).
  { unfold uint8. change (2 ^ 8) with 256. Z.to_euclidean_division_equations. lia. }
  revert Hu Hm. generalize (uint8 (destination (car s) - current_position (car s))).
  intros u Hu Hm.
  destruct (Z.ltb_spec (current_position (car s)) (destination (car s)));
    destruct (Z.ltb_spec (destination (car s)) (current_position (car s)));
    destruct (Z.eqb_spec u 0); destruct (Z.ltb_spec u 128);
    try reflexivity; exfalso; lia.
Qed.

Lemma handle_displays_screen (s : State) :
  car_ok s ->
  floor_just_reached (seq s) = false ->
  on_screen s
  = Some (mkInfo (Z.quot (current_floor (car s)) 4)
                 (shown_direction (old_direction_change (car s)))
                 (floors_w_traveller (trav s)) (floors_no_traveller (trav s))) ->
  let s' := handle_displays s in
  on_screen s'
  = Some (mkInfo (Z.quot (current_floor (car s')) 4)
                 (shown_direction (old_direction_change (car s')))
                 (floors_w_traveller (trav s')) (floors_no_traveller (trav s')))
  /\ old_direction_change (car s')
     = uint8 (destination (car s') - current_position (car s')).
Proof.
  intros Hc Hf Hs. pose proof (travel_direction_shown s Hc) as Hd.
  pose proof (sticky_settled _ Hc) as Ho.
  unfold on_screen in *. unfold handle_displays, display_information, travel_direction in *.
  cbv zeta. reduce.
  destruct (at_a_floor (current_position (car s))); reduce; rewrite ?Hf, ?Ho;
    destruct (Z.eqb_spec (current_floor (car s)) (current_position (car s))) as [E|E];
    try rewrite Z.eqb_refl;
    cbn [negb andb orb]; reduce;
    destruct (traveller_onboard (trav s)); cbn [negb andb orb]; reduce;
    try (destruct (Z.eqb_spec (uint8 (destination (car s) - current_position (car s)))
                              (old_direction_change (car s))) as [E'|E'];
         cbn [negb orb]; reduce);
    cbn [hd_error]; rewrite ?Hd, ?E, ?Hf; try rewrite <- E';
    try (split; [assumption || reflexivity | reflexivity]);
    (split; [rewrite Hs, ?E; try rewrite <- E'; reflexivity | reflexivity]).
Qed.

Lemma move_elevator_screen (i : Inputs) (s : State) :
  old_direction_change (car (move_elevator i s)) = old_direction_change (car s)
  /\ (move_due i s = false -> car (move_elevator i s) = car s).
Proof.
  unfold move_elevator, move_due.
  destruct (_ && _); cbn zeta; [|split; [reflexivity | intros _; reflexivity]].
  split; [|discriminate].
  match goal with
  | |- context [draw_elevator ?x] =>
      destruct (draw_elevator_effect x) as (Hc & _);
      revert Hc; generalize (draw_elevator x)
  end.
  intros s1 Hc. reduce. rewrite Hc. clear.
  destruct (0 <? _); [reflexivity|]. destruct (_ <? 0); reflexivity.
Qed.

Lemma boot_screen (width t0 : Z) : screen_ok (boot width t0).
Proof.
  unfold boot, start_elevator_emulator_init. reduce. unfold display_information. reduce.
  destruct (draw_floors_frame width (draw_elevator (upd_car (with_time_since_move (uint32 t0)) zero_state)))
    as (Ec & Et & Eq & Eio & El).
  revert Ec Et Eq Eio El.
  generalize (draw_floors width (draw_elevator (upd_car (with_time_since_move (uint32 t0)) zero_state))).
  intros s1 Ec Et Eq Eio El.
  destruct (draw_elevator_effect (upd_car (with_time_since_move (uint32 t0)) zero_state))
    as (Ec0 & Et0 & Eq0 & _ & El0).
  revert Ec Et Eq El Ec0 Et0 Eq0 El0.
  generalize (draw_elevator (upd_car (with_time_since_move (uint32 t0)) zero_state)).
  intros s0 Ec Et Eq El Ec0 Et0 Eq0 El0.
  constructor; unfold on_screen; reduce.
  - cbn [hd_error]. unfold travel_direction. rewrite Eq, Eq0, Et, Et0, Ec, Ec0. reflexivity.
  - intros _. reflexivity.
Qed.

Lemma main_step_screen (i : Inputs) (m : Machine) :
  invariant m -> screen_ok m -> screen_ok (step (Main i) m).
Proof.
  intros [Hc Hq Hfc Hg] [Hs Hd]. unfold on_screen in *.
  cbn [step]. destruct (pc m) eqn:Hpc; cbn [before_trigger displayed] in *; reduce.
  - (* the movement block *)
    destruct (move_elevator_effect i (st m)) as (Et & Eq & _ & El & _ & _ & Ecf & _).
    destruct (move_elevator_screen i (st m)) as (Eo & Ecar).
    constructor; unfold on_screen; reduce.
    + rewrite El, Et, Eo, Ecf. exact Hs.
    + rewrite Eq. cbn [displayed]. intros Hf. rewrite Ecar; [exact (Hd eq_refl)|].
      unfold move_due. rewrite Hf. apply andb_false_r.
  - destruct (floor_just_reached (seq (st m))) eqn:Hf; cbn [negb]; reduce;
      constructor; unfold on_screen; reduce; cbn [displayed]; try exact Hs.
    + intros _. exact (Hd eq_refl).
    + discriminate.
  - destruct (handle_inputs_outcome (floor_choice m) (in_button i) (in_serial i) (st m))
      as [-> | (j & _ & _ & _ & Ha & ->)];
      constructor; unfold on_screen; reduce; cbn [displayed]; try exact Hs;
      discriminate.
  - destruct (pickup_destination_effect (floor_choice m) (st m))
      as (Et & _ & _ & _ & El & _ & _ & Ecf & _).
    assert (Eo : old_direction_change (car (pickup_destination (floor_choice m) (st m)))
                 = old_direction_change (car (st m))).
    { unfold pickup_destination. destruct (_ && _); reflexivity. }
    constructor; unfold on_screen; reduce; cbn [displayed]; [|discriminate].
    rewrite El, Et, Eo, Ecf. exact Hs.
  - destruct (handle_displays_screen (st m) Hc (Hg eq_refl) Hs) as (H1 & H2).
    constructor; unfold on_screen; reduce; [exact H1 | intros _; exact H2].
  - rewrite arrival_trigger_effect.
    destruct (_ && _); constructor; unfold on_screen, trigger; reduce;
      cbn [displayed]; try exact Hs; intros _; exact (Hd eq_refl).
  - destruct (drop_off_effect (st m)) as (Ec & _ & _ & El & _ & Ew & En & _).
    constructor; unfold on_screen; reduce; cbn [displayed].
    + rewrite El, Ec, Ew, En. exact Hs.
    + intros _. rewrite Ec. exact (Hd eq_refl).
  - destruct (board_effect (st m)) as (Ec & _ & _ & El & _ & _ & Ew & En).
    constructor; unfold on_screen; reduce; cbn [displayed].
    + rewrite El, Ec, Ew, En. exact Hs.
    + intros _. rewrite Ec. exact (Hd eq_refl).
Qed.

Lemma reachable_screen (m : Machine) : reachable m -> screen_ok m.
Proof.
  induction 1 as [width t0 | e m Hr IH].
  - apply boot_screen.
  - pose proof (reachable_invariant m Hr) as Hinv. destruct e as [|i].
    + destruct IH as [Hs Hd]. destruct (ISR_frame (st m)) as (Ec & Et & _ & El).
      constructor; unfold on_screen in *; cbn [step]; reduce.
      * rewrite El, Ec, Et. exact Hs.
      * rewrite Ec. intros H. apply Hd.
        destruct (pc m); cbn [displayed] in *; try exact H.
        apply ISR_only_clears, H.
    + apply main_step_screen; assumption.
Qed.

(** X18. The terminal is never out of date. In every reachable
    configuration, interrupts included, the last screen printed shows
    the sticky floor, the two counters as they are now, and a direction
    (never a blank). At the head of the loop body this direction is the
    one from the car to its destination, also while the doors are
    animated. *)
Theorem terminal_up_to_date (m : Machine) :
  reachable m ->
  exists d,
    on_screen (st m)
    = Some (mkInfo (Z.quot (current_floor (car (st m))) 4) (Some d)
                   (floors_w_traveller (trav (st m)))
                   (floors_no_traveller (trav (st m))))
    /\ (pc m = PcMove ->
        Some d = if current_position (car (st m)) <? destination (car (st m))
                 then Some Up
                 else if destination (car (st m)) <? current_position (car (st m))
                      then Some Down else Some Stationary).
Proof.
  intros Hr. destruct (reachable_screen m Hr) as [Hs Hd].
  pose proof (inv_car _ (reachable_invariant m Hr)) as Hc.
  assert (Hsome : exists d, shown_direction (old_direction_change (car (st m))) = Some d).
  { unfold shown_direction. destruct (_ =? 0); [eauto|]. destruct (_ <? 128); eauto. }
  destruct Hsome as (d & Ed). exists d. rewrite Hs, Ed. split; [reflexivity|].
  intros Hpc. rewrite Hpc in Hd. cbn [displayed] in Hd.
  rewrite <- Ed, (Hd eq_refl), <- (travel_direction_shown _ Hc).
  apply travel_direction_in_range, Hc.
Qed.

Lemma terminal_up_to_date_witness :
  reachable first_move
  /\ exists d,
       on_screen (st first_move)
       = Some (mkInfo (Z.quot (current_floor (car (st first_move))) 4) (Some d)
                      (floors_w_traveller (trav (st first_move)))
                      (floors_no_traveller (trav (st first_move))))
       /\ (pc first_move = PcMove ->
           Some d = if current_position (car (st first_move))
                       <? destination (car (st first_move))
                    then Some Up
                    else if destination (car (st first_move))
                            <? current_position (car (st first_move))
                         then Some Down else Some Stationary).
Proof.
  assert (Hr : reachable first_move).
  { repeat apply reachable_until_head. repeat apply reach_step. apply reach_boot. }
  split; [exact Hr|]. exact (terminal_up_to_date first_move Hr).
Defined.

Lemma start_screen_animation_witness :
  frames_shown (fst (start_screen (-1) splash_first_pass splash_start)) = [0]
  /\ interval_delay (fst (start_screen (-1) splash_first_pass splash_start)) = 2000.
Proof.
  split; [reflexivity|].
  exact (proj2 (proj2 (proj2 (proj2 (start_screen_animation (-1) splash_first_pass))))
           0 [] eq_refl).
Defined.

Lemma start_screen_pass_leaves (nbp : Z) (i : SplashInputs) (a : Splash) :
  snd (start_screen_pass nbp i a) = true <-> leaves nbp i.
Proof.
  unfold start_screen_pass, leaves. cbv zeta.
  generalize (if interval_delay a <? uint32 (sp_time i - doors_frame_time a)
              then animate_doors (sp_time_after i) a else a).
  intros a'.
  destruct (sp_serial i) as [c|].
  - destruct (Z.eqb_spec c 115) as [->|H1]; cbn [orb snd]; [tauto|].
    destruct (Z.eqb_spec c 83) as [->|H2]; cbn [orb snd]; [tauto|].
    destruct (Z.eqb_spec (int8 (sp_button i)) nbp) as [E|E]; cbn [negb snd].
    + split; [discriminate|]. intros [H | [H | H]]; congruence.
    + tauto.
  - change (-1 =? 115) with false. change (-1 =? 83) with false. cbn [orb].
    destruct (Z.eqb_spec (int8 (sp_button i)) nbp) as [E|E]; cbn [negb snd].
    + split; [discriminate|]. intros [H | [H | H]]; congruence.
    + tauto.
Qed.

(** X19. The start screen is left exactly when, on some pass, the key
    read is ['s'] or ['S'] or a button is pushed; any other key is read
    and dropped, and the times play no part. Until then the loop goes
    on. *)
Theorem start_screen_leaves (nbp : Z) (l : list SplashInputs) (a : Splash) :
  snd (start_screen nbp l a) = true <-> Exists (leaves nbp) l.
Proof.
  revert a. induction l as [|i l IH]; intros a; cbn [start_screen].
  - cbn [snd]. split; [discriminate|]. intros H. inversion H.
  - pose proof (start_screen_pass_leaves nbp i a) as Hp.
    destruct (snd (start_screen_pass nbp i a)) eqn:E.
    + rewrite E. split; [intros _; apply Exists_cons_hd, Hp; reflexivity | reflexivity].
    + rewrite IH. split.
      * intros H. apply Exists_cons_tl, H.
      * intros H. inversion H as [x r Hx | x r Hx]; subst; [|exact Hx].
        apply Hp in Hx. discriminate.
Qed.

(** ** The car and the door animation *)

(** X20. The car stands still while the doors are animated. In a
    reachable configuration in which [floor_just_reached] is set, and
    so whenever the door is open, no interrupt and no statement of the
    loop changes the position, the destination, the sticky floor or any
    other variable of the car. *)
Theorem car_stands_during_animation (e : Event) (m : Machine) :
  reachable m ->
  floor_just_reached (seq (st m)) = true \/ elevator_door_open (seq (st m)) = true ->
  floor_just_reached (seq (st m)) = true
  /\ car (st (step e m)) = car (st m).
Proof.
  intros Hr H. destruct (reachable_invariant m Hr) as [Hc Hq Hfc Hg].
  assert (Hf : floor_just_reached (seq (st m)) = true).
  { destruct H as [H | H]; [exact H|].
    destruct (floor_just_reached (seq (st m))) eqn:Hf; [reflexivity|].
    destruct (idle_when_clear _ Hq Hf) as (Hp & Ht).
    apply (door_span _ Hq) in H. unfold IDLE, OPENING, CLOSING in *. lia. }
  split; [exact Hf|]. destruct e as [|i]; cbn [step].
  - reduce. apply ISR_frame.
  - destruct (pc m) eqn:Hpc; cbn [before_trigger] in Hg; reduce;
      try (rewrite (Hg eq_refl) in Hf; discriminate Hf).
    + apply move_elevator_screen. unfold move_due. rewrite Hf. apply andb_false_r.
    + rewrite Hf. reflexivity.
    + apply drop_off_effect.
    + apply board_effect.
Qed.

Lemma car_stands_during_animation_witness :
  reachable boarded
  /\ elevator_door_open (seq (st boarded)) = true
  /\ car (st (step (Main quiet) boarded)) = car (st boarded).
Proof.
  assert (Hr : reachable boarded) by (apply reachable_play, reach_boot).
  assert (Hd : elevator_door_open (seq (st boarded)) = true)
    by (vm_compute; reflexivity).
  split; [exact Hr|]. split; [exact Hd|].
  exact (proj2 (car_stands_during_animation (Main quiet) boarded Hr (or_intror Hd))).
Defined.

(** ** The phases of the sequencer *)

(** X21. In every reachable configuration the phase is IDLE, OPENING or
    CLOSING and the counter is below 800. No statement of the main loop
    changes the phase; an interrupt moves it to the next phase of the
    cycle IDLE, OPENING, CLOSING, IDLE exactly when the trigger is
    pending and the counter stands at 799, and leaves it alone
    otherwise. [elevator_door_open] is true exactly when the phase is
    OPENING with the counter at 1 or more, or CLOSING with the counter
    at 0; and raising the trigger while the phase is OPENING or CLOSING
    leaves the whole state as it is. *)
Theorem sequencer_cycle (m : Machine) :
  reachable m ->
  let q := seq (st m) in
  (animation_phase q = IDLE \/ animation_phase q = OPENING \/ animation_phase q = CLOSING)
  /\ 0 <= animation_timer q < 800
  /\ (forall i, animation_phase (seq (st (step (Main i) m))) = animation_phase q)
  /\ animation_phase (seq (st (step Tick m)))
     = (if floor_just_reached q && (animation_timer q =? 799)
        then next_phase (animation_phase q) else animation_phase q)
  /\ (elevator_door_open q = true <->
        (animation_phase q = OPENING /\ 1 <= animation_timer q)
        \/ (animation_phase q = CLOSING /\ animation_timer q = 0))
  /\ (animation_phase q = OPENING \/ animation_phase q = CLOSING ->
      trigger (st m) = st m).
Proof.
  intros Hr. cbv zeta. apply reachable_invariant in Hr.
  destruct Hr as [_ Hq _ _]. pose proof Hq as [Ht Hp Hi Hd].
  split; [exact Hp|]. split; [exact Ht|]. split.
  { intros i. apply main_step_animation. }
  split.
  { cbn [step]. reduce.
    destruct (floor_just_reached (seq (st m))) eqn:Hf; cbn [andb].
    - destruct (ISR_counting (st m) Hq Hf) as (Hlt & Heq).
      destruct (Z.eqb_spec (animation_timer (seq (st m))) 799) as [E|E].
      + apply Heq, E.
      + apply Hlt. lia.
    - pose proof (ISR_seq_ok (st m) Hq) as Hq'.
      pose proof (ISR_keeps_clear (st m) Hq Hf) as Hf'.
      destruct (idle_when_clear _ Hq' Hf') as (-> & _).
      destruct (Hi eq_refl) as (E & _). rewrite E. reflexivity. }
  split; [apply Hd|].
  intros Hph. apply trigger_pending.
  destruct (floor_just_reached (seq (st m))) eqn:Hf; [reflexivity|].
  destruct (Hi eq_refl) as (H0 & _).
  unfold IDLE, OPENING, CLOSING in *. lia.
Qed.

Lemma sequencer_cycle_witness :
  reachable before_opening
  /\ animation_phase (seq (st before_opening)) = IDLE
  /\ animation_phase (seq (st (step Tick before_opening))) = OPENING
  /\ reachable boarded
  /\ animation_phase (seq (st boarded)) = OPENING
  /\ trigger (st boarded) = st boarded.
Proof.
  assert (Hr : reachable before_opening) by (apply reachable_play, reach_boot).
  assert (Hb : reachable boarded) by (apply reachable_play, reach_boot).
  assert (Hp : animation_phase (seq (st before_opening)) = IDLE)
    by (vm_compute; reflexivity).
  assert (Hf : floor_just_reached (seq (st before_opening))
               && (animation_timer (seq (st before_opening)) =? 799) = true)
    by (vm_compute; reflexivity).
  assert (Ho : animation_phase (seq (st boarded)) = OPENING)
    by (vm_compute; reflexivity).
  split; [exact Hr|]. split; [exact Hp|]. split.
  { pose proof (proj1 (proj2 (proj2 (proj2 (sequencer_cycle before_opening Hr))))) as H.
    cbv zeta in H. rewrite Hf, Hp in H. exact H. }
  split; [exact Hb|]. split; [exact Ho|].
  exact (proj2 (proj2 (proj2 (proj2 (proj2 (sequencer_cycle boarded Hb)))))
           (or_introl Ho)).
Defined.

(** ** The travel counters, step by step *)

(** X22. In every reachable configuration, a step
    that changes the sticky [current_floor] adds one, modulo 256, to
    exactly one counter: to [floors_w_traveller] when
    [traveller_onboard] is true at that step, to [floors_no_traveller]
    otherwise; a step that does not change [current_floor] changes no
    counter. So a counter never goes down while it is below 255, and the
    only way down is the wrap of the [uint8_t] from 255 to 0. *)
Theorem counters_follow_sticky_floor (m : Machine) (e : Event) :
  reachable m ->
  let s := st m in
  let s' := st (step e m) in
  let w := floors_w_traveller (trav s) in
  let n := floors_no_traveller (trav s) in
  let w' := floors_w_traveller (trav s') in
  let n' := floors_no_traveller (trav s') in
  (current_floor (car s') <> current_floor (car s) ->
     (traveller_onboard (trav s) = true -> w' = uint8 (w + 1) /\ n' = n)
     /\ (traveller_onboard (trav s) = false -> n' = uint8 (n + 1) /\ w' = w))
  /\ (current_floor (car s') = current_floor (car s) -> w' = w /\ n' = n)
  /\ (w < 255 -> w <= w') /\ (n < 255 -> n <= n')
  /\ (w' < w -> w = 255 /\ w' = 0) /\ (n' < n -> n = 255 /\ n' = 0).
Proof.
  intros Hr s s' w n w' n'. apply reachable_invariant in Hr.
  destruct Hr as [[_ _ _ Hst Hw Hn] _ _ _]. fold s w n in Hst, Hw, Hn.
  assert (Hcases :
    (current_floor (car s') = current_floor (car s) /\ w' = w /\ n' = n)
    \/ (current_floor (car s') <> current_floor (car s)
        /\ traveller_onboard (trav s) = true /\ w' = uint8 (w + 1) /\ n' = n)
    \/ (current_floor (car s') <> current_floor (car s)
        /\ traveller_onboard (trav s) = false /\ n' = uint8 (n + 1) /\ w' = w)).
  { destruct e as [|i].
    { left. apply step_counters. auto. }
    destruct (PC_eq_dec (pc m) PcDisplays) as [Hpc|Hpc];
      [|left; apply step_counters; auto].
    subst s' w' n'. cbn [step]. rewrite Hpc. reduce. fold s.
    destruct (handle_displays_effect s)
      as (_ & _ & _ & _ & _ & Ec & _ & _ & _ & _ & Ew & En).
    rewrite Ec, Ew, En. rewrite Hst. fold w n.
    destruct (Z.eqb_spec (current_floor (car s)) (sticky s)) as [E|E];
      cbn [negb andb].
    - left. auto.
    - right. destruct (traveller_onboard (trav s)); cbn [negb]; [left | right]; auto. }
  assert (Hw1 : 0 <= uint8 (w + 1) < 256) by apply uint8_range.
  assert (Hn1 : 0 <= uint8 (n + 1) < 256) by apply uint8_range.
  assert (Hw2 : w < 255 -> uint8 (w + 1) = w + 1) by (intros; apply uint8_small; lia).
  assert (Hn2 : n < 255 -> uint8 (n + 1) = n + 1) by (intros; apply uint8_small; lia).
  assert (Hw3 : uint8 (255 + 1) = 0) by reflexivity.
  destruct Hcases as [(Ec & Ew & En) | [(Ec & Ho & Ew & En) | (Ec & Ho & En & Ew)]].
  - split; [intros H; contradiction|]. split; [auto|].
    split; [lia|]. split; [lia|]. split; intros; lia.
  - split.
    { intros _. split; [auto|]. intros H; congruence. }
    split; [intros H; contradiction|].
    split; [intros H; rewrite Ew, Hw2; lia|]. split; [lia|].
    split; [|intros; lia].
    intros H. assert (w = 255) by (rewrite Ew in H; lia). subst w.
    split; [assumption|]. rewrite Ew, H0. exact Hw3.
  - split.
    { intros _. split; [intros H; congruence | auto]. }
    split; [intros H; contradiction|].
    split; [lia|]. split; [intros H; rewrite En, Hn2; lia|].
    split; [intros; lia|].
    intros H. assert (n = 255) by (rewrite En in H; lia). subst n.
    split; [assumption|]. rewrite En, H0. exact Hw3.
Qed.

Lemma counters_follow_sticky_floor_witness :
  reachable floor_change
  /\ current_floor (car (st (step (Main quiet) floor_change)))
     <> current_floor (car (st floor_change))
  /\ traveller_onboard (trav (st floor_change)) = false
  /\ floors_no_traveller (trav (st (step (Main quiet) floor_change)))
     = uint8 (floors_no_traveller (trav (st floor_change)) + 1)
  /\ floors_w_traveller (trav (st (step (Main quiet) floor_change)))
     = floors_w_traveller (trav (st floor_change)).
Proof.
  assert (Hr : reachable floor_change).
  { unfold floor_change. do 4 apply reach_step. apply reachable_play, reach_boot. }
  assert (Hc : current_floor (car (st (step (Main quiet) floor_change)))
               <> current_floor (car (st floor_change))) by (vm_compute; discriminate).
  assert (Ho : traveller_onboard (trav (st floor_change)) = false)
    by (vm_compute; reflexivity).
  split; [exact Hr|]. split; [exact Hc|]. split; [exact Ho|].
  exact (proj2 (proj1 (counters_follow_sticky_floor floor_change (Main quiet) Hr) Hc) Ho).
Defined.
